(** * ZsyncCoreJob_p.cc: the zsync matching engine of AppImageUpdaterBridge

    A shallow embedding of [src/src/ZsyncCoreJob_p.cc] and the properties of
    the engine that the specification states about it.

    Conventions of the embedding.
    - [unsigned char] values are [Byte.byte]; [uchar] is their value in [Z].
    - [unsigned short] values are [Z] reduced modulo 2^16 after every
      assignment ([ushort]).
    - [qint32], [zs_blockid], [off_t] and [size_t] values are [Z]; the
      engine keeps them far inside their ranges (they index arrays that
      fit in memory), and signed overflow is undefined in C++.
    - A pointer into a byte buffer ([data + x]) is the suffix of the buffer
      from that point on ([skipn]); reading a byte behind the end of the
      buffer, which the C++ code never relies on, reads [x00].
    - A pointer to a [hash_entry] is the index of the entry in
      [_pBlockHashes] (what [getHashEntryBlockId] computes), [NULL] is
      [None].
    - A function that may not return gives an [option]: [None] stands
      for a loop that has not ended within the fuel given, and for a read
      through [_pRsumHash] or [_pBitHash] while the hash is not
      allocated, where the program stops with a memory fault.
    - A value the language leaves indeterminate, the automatic array of
      [parseTargetFileCheckSumBlocks], is an argument of the function
      that reads it. *)

From Stdlib Require Import ZArith List Lia Bool.
From Stdlib Require Import Strings.Byte.
From Stdlib Require Strings.String.
From Equations Require Import Equations.
Import ListNotations.
Open Scope Z_scope.

(** ** Machine values *)

Definition uchar (c : byte) : Z := Z.of_N (Byte.to_N c).

Definition ushort (z : Z) : Z := z mod 65536.

(** ** Arrays

    C arrays are lists read and written at [int] indices.  A read outside
    the array gives the default value; the writes below rebuild the array
    cell by cell, which is what [memmove], [realloc] and an assignment to a
    cell do. *)

Definition zget {A} (d : A) (l : list A) (i : Z) : A :=
  if i <? 0 then d else nth (Z.to_nat i) l d.

Definition tabulate {A} (n : nat) (f : Z -> A) : list A :=
  map (fun i => f (Z.of_nat i)) (seq 0 n).

(** [l[i] = v]; nothing is written outside the array. *)
Definition zset {A} (d : A) (l : list A) (i : Z) (v : A) : list A :=
  tabulate (length l) (fun k => if k =? i then v else zget d l k).

(** [memmove(&l[dst], &l[src], cnt * sizeof(l[0]))]: the [cnt] cells from
    [src] on are copied to [dst] on, the two regions may overlap. *)
Definition memmove {A} (d : A) (l : list A) (dst src cnt : Z) : list A :=
  tabulate (length l)
    (fun k => if (dst <=? k) && (k <? dst + cnt)
              then zget d l (k - dst + src) else zget d l k).

(** [realloc(l, n * sizeof(l[0]))]: the first cells are kept. *)
Definition realloc {A} (d : A) (l : list A) (n : Z) : list A :=
  tabulate (Z.to_nat n) (fun k => zget d l k).

(** [data[i]] and [data + i] for a byte buffer. *)
Definition byte_at (data : list byte) (i : Z) : byte := zget x00 data i.

Definition advance (data : list byte) (i : Z) : list byte :=
  skipn (Z.to_nat i) data.

(** [data + off] seen as [len] bytes. *)
Definition window (data : list byte) (off len : Z) : list byte :=
  tabulate (Z.to_nat len) (fun k => byte_at data (off + k)).

(** [memcpy(buf + off, bytes, length bytes)]. *)
Definition blit (buf : list byte) (off : Z) (bytes : list byte) : list byte :=
  tabulate (length buf)
    (fun k => if (off <=? k) && (k <? off + Z.of_nat (length bytes))
              then byte_at bytes (k - off) else byte_at buf k).

(** [memcmp(p, q, n) == 0]. *)
Fixpoint bytes_eqb (p q : list byte) : bool :=
  match p, q with
  | [], [] => true
  | c :: p', d :: q' => Byte.eqb c d && bytes_eqb p' q'
  | _, _ => false
  end.

Definition memcmp_eq (p q : list byte) (n : Z) : bool :=
  bytes_eqb (window p 0 n) (window q 0 n).

(** ** The rolling checksum *)

Module Rsum.
Record t := mk { a : Z; b : Z }.
End Rsum.
Abbreviation rsum := Rsum.t.

(** [UPDATE_RSUM(a, b, oldc, newc, bshift)]. *)
Definition UPDATE_RSUM (r : rsum) (oldc newc : byte) (bshift : Z) : rsum :=
  let a' := ushort (Rsum.a r + (uchar newc - uchar oldc)) in
  let b' := ushort (Rsum.b r + (a' - Z.shiftl (uchar oldc) bshift)) in
  Rsum.mk a' b'.

(** The [while (len)] loop of [calc_rsum_block]; [len] counts down. *)
Fixpoint calc_rsum_loop (data : list byte) (len : nat) (a b : Z) : Z * Z :=
  match len with
  | O => (a, b)
  | S len' =>
      let c := uchar (hd x00 data) in
      calc_rsum_loop (tl data) len'
        (ushort (a + c)) (ushort (b + Z.of_nat len * c))
  end.

Definition calc_rsum_block (data : list byte) (len : Z) : rsum :=
  let (a, b) := calc_rsum_loop data (Z.to_nat len) 0 0 in Rsum.mk a b.

(** The constructor's [_nBlockShift]: [log2] of the block size, converted
    to an integer by truncation. *)
Definition block_shift_of (blockSize : Z) : Z :=
  if blockSize =? 1024 then 10
  else if blockSize =? 2048 then 11
  else Z.log2 blockSize.

(** Sliding a window of [bs] bytes [k] times, one byte at a time, from the
    start of [buf], as the scanner does between two matches. *)
Fixpoint slide_from (buf : list byte) (bs bshift : Z) (p : Z) (k : nat)
  (r : rsum) : rsum :=
  match k with
  | O => r
  | S k' =>
      slide_from buf bs bshift (p + 1) k'
        (UPDATE_RSUM r (byte_at buf p) (byte_at buf (p + bs)) bshift)
  end.

(** The sums the loop of [calc_rsum_block] accumulates, without wrap-around:
    the plain sum of the window and the sum weighted by the count-down. *)
Fixpoint plain_sum (data : list byte) (len : nat) : Z :=
  match len with
  | O => 0
  | S len' => uchar (hd x00 data) + plain_sum (tl data) len'
  end.

Fixpoint weighted_sum (data : list byte) (len : nat) : Z :=
  match len with
  | O => 0
  | S len' => Z.of_nat len * uchar (hd x00 data) + weighted_sum (tl data) len'
  end.

(** ** The known ranges

    [_pRanges] holds [2 * _nRanges] block ids, the inclusive bounds of the
    ranges of blocks already written. *)

Record known_ranges := mk_ranges { _pRanges : list Z; _nRanges : Z }.

(** The bisection loop of [rangeBeforeBlock]; [mn] and [mx] are the
    loop's [min] and [max]. *)
Equations? bisect (pRanges : list Z) (x mn mx : Z) : Z
  by wf (Z.to_nat (mx - mn + 1)) lt :=
  bisect pRanges x mn mx with Z_le_dec mn mx := {
    | left _ =>
        let r := Z.quot (mx + mn) 2 in
        if x >? zget 0 pRanges (2 * r + 1)
        then bisect pRanges x (r + 1) mx
        else if x <? zget 0 pRanges (2 * r)
             then bisect pRanges x mn (r - 1)
             else -1
    | right _ => mn }.
Proof.
  all: pose proof (Z.quot_rem' (mx + mn) 2);
       pose proof (Z.rem_bound_abs (mx + mn) 2); lia.
Qed.

Definition rangeBeforeBlock (k : known_ranges) (x : Z) : Z :=
  bisect (_pRanges k) x 0 (_nRanges k - 1).

Definition addToRanges (k : known_ranges) (x : Z) : known_ranges :=
  let r := rangeBeforeBlock k x in
  let p := _pRanges k in
  let n := _nRanges k in
  if r =? -1 then k
  else if (0 <? r) && (r <? n)
          && (zget 0 p (2 * (r - 1) + 1) =? x - 1)
          && (zget 0 p (2 * r) =? x + 1)
  then
    let p1 := zset 0 p (2 * (r - 1) + 1) (zget 0 p (2 * r + 1)) in
    let p2 := memmove 0 p1 (2 * r) (2 * r + 2) ((n - r - 1) * 2) in
    mk_ranges p2 (n - 1)
  else if (0 <? r) && negb (n =? 0) && (zget 0 p (2 * (r - 1) + 1) =? x - 1)
  then mk_ranges (zset 0 p (2 * (r - 1) + 1) x) n
  else if (r <? n) && (zget 0 p (2 * r) =? x + 1)
  then mk_ranges (zset 0 p (2 * r) x) n
  else
    let p1 := realloc 0 p ((n + 1) * 2) in
    let p2 := memmove 0 p1 (2 * r + 2) (2 * r) ((n - r) * 2) in
    let p3 := zset 0 (zset 0 p2 (2 * r) x) (2 * r + 1) x in
    mk_ranges p3 (n + 1).

Definition alreadyGotBlock (k : known_ranges) (x : Z) : bool :=
  rangeBeforeBlock k x =? -1.

(** [nextKnownBlock], for a job of [nBlocks] blocks. *)
Definition nextKnownBlock (nBlocks : Z) (k : known_ranges) (x : Z) : Z :=
  let r := rangeBeforeBlock k x in
  if r =? -1 then x
  else if r =? _nRanges k then nBlocks
  else zget 0 (_pRanges k) (2 * r).

(** The bounds of range [i], and what it means for the array to be a
    set of ranges: [n] ranges inside the array, each non-empty, in
    ascending order with a gap of at least one block between neighbours. *)
Definition range_lo (k : known_ranges) (i : Z) : Z := zget 0 (_pRanges k) (2 * i).
Definition range_hi (k : known_ranges) (i : Z) : Z :=
  zget 0 (_pRanges k) (2 * i + 1).

Definition ranges_inv (k : known_ranges) : Prop :=
  0 <= _nRanges k
  /\ 2 * _nRanges k <= Z.of_nat (length (_pRanges k))
  /\ (forall i, 0 <= i < _nRanges k -> range_lo k i <= range_hi k i)
  /\ (forall i, 0 <= i < _nRanges k - 1 -> range_hi k i + 1 < range_lo k (i + 1)).

Definition in_ranges (k : known_ranges) (y : Z) : Prop :=
  exists i, 0 <= i < _nRanges k /\ range_lo k i <= y <= range_hi k i.

(** ** Hash entries

    [struct hash_entry] of the block hash table: the link of the entry's
    hash chain, the weak checksum and the strong checksum of the block. *)

Module Entry.
Record t := mk { next : option Z; r : rsum; checksum : list byte }.
End Entry.
Abbreviation hash_entry := Entry.t.

Definition CHECKSUM_SIZE : Z := 16.

(** Modelled from the spec: the constant [BITHASHBITS] of the header
    [ZsyncCoreJob_p.hpp], which the specification gives as 3. *)
Definition BITHASHBITS : Z := 3.

(** An entry as [calloc] leaves it. *)
Definition zero_entry : hash_entry :=
  Entry.mk None (Rsum.mk 0 0) (repeat x00 (Z.to_nat CHECKSUM_SIZE)).

(** ** Devices

    A [QFile] is its bytes and its position.  [file_journal] is not part of
    the device: it records every [write] call, latest first, as the position
    written at and the bytes written, so that what the engine wrote can be
    stated.  Bytes of a hole left by a write behind the end read [x00]. *)

Record QFile := mk_file {
  file_data : list byte;
  file_pos : Z;
  file_journal : list (Z * list byte)
}.

Definition QFile_size (f : QFile) : Z := Z.of_nat (length (file_data f)).

Definition QFile_atEnd (f : QFile) : bool := QFile_size f <=? file_pos f.

Definition QFile_seek (f : QFile) (p : Z) : QFile :=
  if p <? 0 then f else mk_file (file_data f) p (file_journal f).

(** [read(buf, maxlen)]: the bytes read and the device afterwards. *)
Definition QFile_read (f : QFile) (maxlen : Z) : list byte * QFile :=
  let bytes :=
    firstn (Z.to_nat maxlen) (skipn (Z.to_nat (file_pos f)) (file_data f)) in
  (bytes,
   mk_file (file_data f) (file_pos f + Z.of_nat (length bytes)) (file_journal f)).

(** [write(data, len)]. *)
Definition QFile_write (f : QFile) (data : list byte) (len : Z) : QFile :=
  if len <=? 0 then f
  else
    let p := file_pos f in
    let size := Z.max (QFile_size f) (p + len) in
    mk_file
      (tabulate (Z.to_nat size)
         (fun k => if (p <=? k) && (k <? p + len) then byte_at data (k - p)
                   else zget x00 (file_data f) k))
      (p + len)
      ((p, window data 0 len) :: file_journal f).

(** The [QBuffer] of checksum blocks: its bytes, and whether [open]
    succeeds. *)
Record QBuffer := mk_buffer { buffer_data : list byte; buffer_opens : bool }.

(** What the file system holds at the seed file's path. *)
Record seed_path := mk_seed {
  seed_exists : bool;
  seed_readable : bool;
  seed_opens : bool;
  seed_bytes : list byte
}.

(** ** The job

    The members of [ZsyncCoreJobPrivate].  [_ranges] groups [_pRanges] and
    [_nRanges]; [_sSeedFilePath] stands for the file at that path. *)

Record job := mk_job {
  _nBlockSize : Z;
  _nBlockIdOffset : Z;
  _nBlocks : Z;
  _pWeakCheckSumMask : Z;
  _nWeakCheckSumBytes : Z;
  _nStrongCheckSumBytes : Z;
  _nSeqMatches : Z;
  _nContext : Z;
  _nBlockShift : Z;
  _pTargetFileCheckSumBlocks : option QBuffer;
  _sSeedFilePath : seed_path;
  _pBlockHashes : option (list hash_entry);
  _pTargetFile : QFile;
  _pRsumHash : option (list (option Z));
  _pBitHash : option (list Z);
  _pHashMask : Z;
  _pBitHashMask : Z;
  _ranges : known_ranges;
  _nSkip : Z;
  _pRover : option Z;
  _pNextMatch : option Z;
  _nNextKnown : Z;
  _pCurrentWeakCheckSums : rsum * rsum
}.

Definition set_pBlockHashes (j : job) (v : option (list hash_entry)) : job :=
  mk_job (_nBlockSize j) (_nBlockIdOffset j) (_nBlocks j)
    (_pWeakCheckSumMask j) (_nWeakCheckSumBytes j) (_nStrongCheckSumBytes j)
    (_nSeqMatches j) (_nContext j) (_nBlockShift j)
    (_pTargetFileCheckSumBlocks j) (_sSeedFilePath j) v (_pTargetFile j)
    (_pRsumHash j) (_pBitHash j) (_pHashMask j) (_pBitHashMask j) (_ranges j)
    (_nSkip j) (_pRover j) (_pNextMatch j) (_nNextKnown j)
    (_pCurrentWeakCheckSums j).

Definition set_pTargetFile (j : job) (v : QFile) : job :=
  mk_job (_nBlockSize j) (_nBlockIdOffset j) (_nBlocks j)
    (_pWeakCheckSumMask j) (_nWeakCheckSumBytes j) (_nStrongCheckSumBytes j)
    (_nSeqMatches j) (_nContext j) (_nBlockShift j)
    (_pTargetFileCheckSumBlocks j) (_sSeedFilePath j) (_pBlockHashes j) v
    (_pRsumHash j) (_pBitHash j) (_pHashMask j) (_pBitHashMask j) (_ranges j)
    (_nSkip j) (_pRover j) (_pNextMatch j) (_nNextKnown j)
    (_pCurrentWeakCheckSums j).

Definition set_pRsumHash (j : job) (v : option (list (option Z))) : job :=
  mk_job (_nBlockSize j) (_nBlockIdOffset j) (_nBlocks j)
    (_pWeakCheckSumMask j) (_nWeakCheckSumBytes j) (_nStrongCheckSumBytes j)
    (_nSeqMatches j) (_nContext j) (_nBlockShift j)
    (_pTargetFileCheckSumBlocks j) (_sSeedFilePath j) (_pBlockHashes j)
    (_pTargetFile j) v (_pBitHash j) (_pHashMask j) (_pBitHashMask j) (_ranges
    j) (_nSkip j) (_pRover j) (_pNextMatch j) (_nNextKnown j)
    (_pCurrentWeakCheckSums j).

Definition set_pBitHash (j : job) (v : option (list Z)) : job :=
  mk_job (_nBlockSize j) (_nBlockIdOffset j) (_nBlocks j)
    (_pWeakCheckSumMask j) (_nWeakCheckSumBytes j) (_nStrongCheckSumBytes j)
    (_nSeqMatches j) (_nContext j) (_nBlockShift j)
    (_pTargetFileCheckSumBlocks j) (_sSeedFilePath j) (_pBlockHashes j)
    (_pTargetFile j) (_pRsumHash j) v (_pHashMask j) (_pBitHashMask j)
    (_ranges j) (_nSkip j) (_pRover j) (_pNextMatch j) (_nNextKnown j)
    (_pCurrentWeakCheckSums j).

Definition set_pHashMask (j : job) (v : Z) : job :=
  mk_job (_nBlockSize j) (_nBlockIdOffset j) (_nBlocks j)
    (_pWeakCheckSumMask j) (_nWeakCheckSumBytes j) (_nStrongCheckSumBytes j)
    (_nSeqMatches j) (_nContext j) (_nBlockShift j)
    (_pTargetFileCheckSumBlocks j) (_sSeedFilePath j) (_pBlockHashes j)
    (_pTargetFile j) (_pRsumHash j) (_pBitHash j) v (_pBitHashMask j) (_ranges
    j) (_nSkip j) (_pRover j) (_pNextMatch j) (_nNextKnown j)
    (_pCurrentWeakCheckSums j).

Definition set_pBitHashMask (j : job) (v : Z) : job :=
  mk_job (_nBlockSize j) (_nBlockIdOffset j) (_nBlocks j)
    (_pWeakCheckSumMask j) (_nWeakCheckSumBytes j) (_nStrongCheckSumBytes j)
    (_nSeqMatches j) (_nContext j) (_nBlockShift j)
    (_pTargetFileCheckSumBlocks j) (_sSeedFilePath j) (_pBlockHashes j)
    (_pTargetFile j) (_pRsumHash j) (_pBitHash j) (_pHashMask j) v (_ranges j)
    (_nSkip j) (_pRover j) (_pNextMatch j) (_nNextKnown j)
    (_pCurrentWeakCheckSums j).

Definition set_ranges (j : job) (v : known_ranges) : job :=
  mk_job (_nBlockSize j) (_nBlockIdOffset j) (_nBlocks j)
    (_pWeakCheckSumMask j) (_nWeakCheckSumBytes j) (_nStrongCheckSumBytes j)
    (_nSeqMatches j) (_nContext j) (_nBlockShift j)
    (_pTargetFileCheckSumBlocks j) (_sSeedFilePath j) (_pBlockHashes j)
    (_pTargetFile j) (_pRsumHash j) (_pBitHash j) (_pHashMask j)
    (_pBitHashMask j) v (_nSkip j) (_pRover j) (_pNextMatch j) (_nNextKnown j)
    (_pCurrentWeakCheckSums j).

Definition set_nSkip (j : job) (v : Z) : job :=
  mk_job (_nBlockSize j) (_nBlockIdOffset j) (_nBlocks j)
    (_pWeakCheckSumMask j) (_nWeakCheckSumBytes j) (_nStrongCheckSumBytes j)
    (_nSeqMatches j) (_nContext j) (_nBlockShift j)
    (_pTargetFileCheckSumBlocks j) (_sSeedFilePath j) (_pBlockHashes j)
    (_pTargetFile j) (_pRsumHash j) (_pBitHash j) (_pHashMask j)
    (_pBitHashMask j) (_ranges j) v (_pRover j) (_pNextMatch j) (_nNextKnown
    j) (_pCurrentWeakCheckSums j).

Definition set_pRover (j : job) (v : option Z) : job :=
  mk_job (_nBlockSize j) (_nBlockIdOffset j) (_nBlocks j)
    (_pWeakCheckSumMask j) (_nWeakCheckSumBytes j) (_nStrongCheckSumBytes j)
    (_nSeqMatches j) (_nContext j) (_nBlockShift j)
    (_pTargetFileCheckSumBlocks j) (_sSeedFilePath j) (_pBlockHashes j)
    (_pTargetFile j) (_pRsumHash j) (_pBitHash j) (_pHashMask j)
    (_pBitHashMask j) (_ranges j) (_nSkip j) v (_pNextMatch j) (_nNextKnown j)
    (_pCurrentWeakCheckSums j).

Definition set_pNextMatch (j : job) (v : option Z) : job :=
  mk_job (_nBlockSize j) (_nBlockIdOffset j) (_nBlocks j)
    (_pWeakCheckSumMask j) (_nWeakCheckSumBytes j) (_nStrongCheckSumBytes j)
    (_nSeqMatches j) (_nContext j) (_nBlockShift j)
    (_pTargetFileCheckSumBlocks j) (_sSeedFilePath j) (_pBlockHashes j)
    (_pTargetFile j) (_pRsumHash j) (_pBitHash j) (_pHashMask j)
    (_pBitHashMask j) (_ranges j) (_nSkip j) (_pRover j) v (_nNextKnown j)
    (_pCurrentWeakCheckSums j).

Definition set_nNextKnown (j : job) (v : Z) : job :=
  mk_job (_nBlockSize j) (_nBlockIdOffset j) (_nBlocks j)
    (_pWeakCheckSumMask j) (_nWeakCheckSumBytes j) (_nStrongCheckSumBytes j)
    (_nSeqMatches j) (_nContext j) (_nBlockShift j)
    (_pTargetFileCheckSumBlocks j) (_sSeedFilePath j) (_pBlockHashes j)
    (_pTargetFile j) (_pRsumHash j) (_pBitHash j) (_pHashMask j)
    (_pBitHashMask j) (_ranges j) (_nSkip j) (_pRover j) (_pNextMatch j) v
    (_pCurrentWeakCheckSums j).

Definition set_pCurrentWeakCheckSums (j : job) (v : rsum * rsum) : job :=
  mk_job (_nBlockSize j) (_nBlockIdOffset j) (_nBlocks j)
    (_pWeakCheckSumMask j) (_nWeakCheckSumBytes j) (_nStrongCheckSumBytes j)
    (_nSeqMatches j) (_nContext j) (_nBlockShift j)
    (_pTargetFileCheckSumBlocks j) (_sSeedFilePath j) (_pBlockHashes j)
    (_pTargetFile j) (_pRsumHash j) (_pBitHash j) (_pHashMask j)
    (_pBitHashMask j) (_ranges j) (_nSkip j) (_pRover j) (_pNextMatch j)
    (_nNextKnown j) v.

(** The error codes of the class (the values are in the header; all
    differ from 0, which is [NO_ERROR] here). *)
Inductive error_code :=
| NO_ERROR
| HASH_TABLE_NOT_ALLOCATED
| INVALID_TARGET_FILE_CHECKSUM_BLOCKS
| CANNOT_OPEN_TARGET_FILE_CHECKSUM_BLOCKS
| QBUFFER_IO_READ_ERROR
| SOURCE_FILE_NOT_FOUND
| NO_PERMISSION_TO_READ_SOURCE_FILE
| CANNOT_OPEN_SOURCE_FILE.

Definition is_error (e : error_code) : bool :=
  match e with NO_ERROR => false | _ => true end.

Definition required_ranges := list ((Z * Z) * list (list byte)).

Record Result := mk_result {
  errorCode : error_code;
  gotBlocks : Z;
  requiredRanges : option required_ranges
}.

(** Modelled from the spec: the initial value of a [Result], declared in
    the header [ZsyncCoreJob_p.hpp]; on an error before scanning
    [got_blocks = 0] and [required_ranges = none]. *)
Definition Result_init : Result := mk_result NO_ERROR 0 None.

Record Information := mk_info {
  blockSize : Z;
  blockIdOffset : Z;
  blocks : Z;
  weakCheckSumBytes : Z;
  strongCheckSumBytes : Z;
  seqMatches : Z;
  targetFile : QFile;
  checkSumBlocks : option QBuffer;
  seedFilePath : seed_path
}.

(** The constructor.  Members it does not set start as [NULL] or 0. *)
Definition ZsyncCoreJobPrivate (info : Information) : job :=
  mk_job
    (blockSize info) (blockIdOffset info) (blocks info)
    (if weakCheckSumBytes info <? 3 then 0
     else if weakCheckSumBytes info =? 3 then 255 else 65535)
    (weakCheckSumBytes info) (strongCheckSumBytes info) (seqMatches info)
    (blockSize info * seqMatches info)
    (block_shift_of (blockSize info))
    (checkSumBlocks info) (seedFilePath info)
    (Some (repeat zero_entry (Z.to_nat (blocks info + seqMatches info))))
    (targetFile info)
    None None 0 0 (mk_ranges [] 0) 0 None None 0
    (Rsum.mk 0 0, Rsum.mk 0 0).

Definition is_some {A} (o : option A) : bool :=
  match o with Some _ => true | None => false end.

Definition blockHashes (j : job) : list hash_entry :=
  match _pBlockHashes j with Some l => l | None => [] end.

Definition rsumHash (j : job) : list (option Z) :=
  match _pRsumHash j with Some l => l | None => [] end.

Definition bitHash (j : job) : list Z :=
  match _pBitHash j with Some l => l | None => [] end.

(** Both hashes are allocated, as [buildHash] leaves them. *)
Definition hashes_built (j : job) : bool :=
  is_some (_pRsumHash j) && is_some (_pBitHash j).

(** [_pBlockHashes[e]]. *)
Definition entry (j : job) (e : Z) : hash_entry := zget zero_entry (blockHashes j) e.

Definition set_entry (j : job) (e : Z) (v : hash_entry) : job :=
  set_pBlockHashes j (Some (zset zero_entry (blockHashes j) e v)).

(** [_pBlockHashes[e].next = v]. *)
Definition set_entry_next (j : job) (e : Z) (v : option Z) : job :=
  set_entry j e (Entry.mk v (Entry.r (entry j e)) (Entry.checksum (entry j e))).

(** ** Parsing the checksum blocks *)

(** The record of one block: [weak] bytes read into the last bytes of the
    big-endian pair [(a, b)], then [strong] bytes read into the automatic
    array [checksum]; [None] when a [read] returns less than one byte.
    The array is not initialised: [stack] is what its 16 bytes hold
    before the read, and a read of fewer than [strong] bytes leaves the
    rest of them in place.  It gives the pair, the array and the rest of
    the stream. *)
Definition read_record (stack : list byte) (stream : list byte) (weak strong : Z)
  : option (rsum * list byte * list byte) :=
  let wbytes := firstn (Z.to_nat weak) stream in
  let stream1 := skipn (Z.to_nat weak) stream in
  let sbytes := firstn (Z.to_nat strong) stream1 in
  let stream2 := skipn (Z.to_nat strong) stream1 in
  if (Z.of_nat (length wbytes) <? 1) || (Z.of_nat (length sbytes) <? 1)
  then None
  else
    let field := blit (repeat x00 4) (4 - weak) wbytes in
    let a := 256 * uchar (byte_at field 0) + uchar (byte_at field 1) in
    let b := 256 * uchar (byte_at field 2) + uchar (byte_at field 3) in
    Some (Rsum.mk a b, blit (window stack 0 CHECKSUM_SIZE) 0 sbytes, stream2).

(** The loop over the blocks.  The language leaves the value of the array
    [checksum] at the start of an iteration open: [stack id] is what it
    holds when the loop reaches block [id]. *)
Fixpoint parse_loop (stack : Z -> list byte) (j : job) (stream : list byte)
  (id : Z) (count : nat) : error_code * job :=
  match count with
  | O => (NO_ERROR, j)
  | S count' =>
      match read_record (stack id) stream (_nWeakCheckSumBytes j)
              (_nStrongCheckSumBytes j) with
      | None => (QBUFFER_IO_READ_ERROR, j)
      | Some (r, checksum, stream') =>
          let e := entry j id in
          let j' :=
            set_entry j id
              (Entry.mk (Entry.next e)
                 (Rsum.mk (Z.land (Rsum.a r) (_pWeakCheckSumMask j)) (Rsum.b r))
                 (blit (Entry.checksum e) 0
                    (window checksum 0 (_nStrongCheckSumBytes j)))) in
          parse_loop stack j' stream' (id + 1) count'
      end
  end.

Definition parseTargetFileCheckSumBlocks (stack : Z -> list byte) (j : job)
  : error_code * job :=
  match _pBlockHashes j with
  | None => (HASH_TABLE_NOT_ALLOCATED, j)
  | Some _ =>
      match _pTargetFileCheckSumBlocks j with
      | None => (INVALID_TARGET_FILE_CHECKSUM_BLOCKS, j)
      | Some buffer =>
          if Z.of_nat (length (buffer_data buffer))
             <? _nWeakCheckSumBytes j + _nStrongCheckSumBytes j
          then (INVALID_TARGET_FILE_CHECKSUM_BLOCKS, j)
          else if negb (buffer_opens buffer)
          then (CANNOT_OPEN_TARGET_FILE_CHECKSUM_BLOCKS, j)
          else
            match
              parse_loop stack j (buffer_data buffer) 0 (Z.to_nat (_nBlocks j))
            with
            | (NO_ERROR, j') =>
                (NO_ERROR,
                 match _pRsumHash j' with
                 | Some _ => set_pBitHash (set_pRsumHash j' None) None
                 | None => j'
                 end)
            | failed => failed
            end
      end
  end.

Definition tryOpenSeedFile (j : job) : error_code * option QFile :=
  let seed := _sSeedFilePath j in
  if negb (seed_exists seed) then (SOURCE_FILE_NOT_FOUND, None)
  else if negb (seed_readable seed) then (NO_PERMISSION_TO_READ_SOURCE_FILE, None)
  else if negb (seed_opens seed) then (CANNOT_OPEN_SOURCE_FILE, None)
  else (NO_ERROR, Some (mk_file (seed_bytes seed) 0 [])).

(** ** The rsum hash *)

(** [calcRHash(e)]; the operands are 16-bit, so that nothing wraps in the
    [unsigned] result. *)
Definition calcRHash (j : job) (e : Z) : Z :=
  let h := Rsum.b (Entry.r (entry j e)) in
  Z.lxor h
    (Z.shiftl
       (if 1 <? _nSeqMatches j then Rsum.b (Entry.r (entry j (e + 1)))
        else Z.land (Rsum.a (Entry.r (entry j e))) (_pWeakCheckSumMask j))
       BITHASHBITS).

(** The size loop of [buildHash]:
    [while ((2 << (i - 1)) > _nBlocks && i > 4) i--]. *)
Equations? hash_size_loop (nBlocks i : Z) : Z by wf (Z.to_nat (i - 4)) lt :=
  hash_size_loop nBlocks i with Z_gt_dec i 4 := {
    | left _ =>
        if Z.shiftl 2 (i - 1) >? nBlocks
        then hash_size_loop nBlocks (i - 1) else i
    | right _ => i }.
Proof. lia. Qed.

(** The fill loop of [buildHash], from [id] down to 1. *)
Fixpoint buildHash_fill (j : job) (id : nat) : job :=
  match id with
  | O => j
  | S id' =>
      let e := Z.of_nat id' in
      let h := calcRHash j e in
      let bucket := Z.land h (_pHashMask j) in
      let j1 := set_entry_next j e (zget None (rsumHash j) bucket) in
      let j2 := set_pRsumHash j1 (Some (zset None (rsumHash j1) bucket (Some e))) in
      let cell := Z.shiftr (Z.land h (_pBitHashMask j)) 3 in
      let j3 :=
        set_pBitHash j2
          (Some (zset 0 (bitHash j2) cell
                   (Z.lor (zget 0 (bitHash j2) cell)
                      (Z.shiftl 1 (Z.land h 7))))) in
      buildHash_fill j3 id'
  end.

(** [buildHash]; the two [calloc]s succeed. *)
Definition buildHash (j : job) : Z * job :=
  let i := hash_size_loop (_nBlocks j) 16 in
  let j1 := set_pHashMask j (Z.shiftl 2 i - 1) in
  let j2 :=
    set_pRsumHash j1 (Some (repeat None (Z.to_nat (_pHashMask j1 + 1)))) in
  let j3 := set_pBitHashMask j2 (Z.shiftl 2 (i + BITHASHBITS) - 1) in
  let j4 := set_pBitHash j3 (Some (repeat 0 (Z.to_nat (_pBitHashMask j3 + 1)))) in
  (1, buildHash_fill j4 (Z.to_nat (_nBlocks j4))).

(** ** Loops that follow hash chains

    A loop that follows the links of a chain is given [fuel] iterations;
    [None] stands for a loop that has not ended within them. *)

Notation "' pat <- e ;; k" :=
  (match e with Some pat => k | None => None end)
  (at level 61, pat pattern, e at next level, right associativity).
Notation "x <- e ;; k" :=
  (match e with Some x => k | None => None end)
  (at level 61, e at next level, right associativity).

(** The cell [p] of [removeBlockFromHash] points at: the head of a bucket
    or the [next] member of an entry. *)
Inductive link := Bucket (i : Z) | NextOf (e : Z).

Definition load_link (j : job) (p : link) : option Z :=
  match p with
  | Bucket i => zget None (rsumHash j) i
  | NextOf e => Entry.next (entry j e)
  end.

Definition store_link (j : job) (p : link) (v : option Z) : job :=
  match p with
  | Bucket i => set_pRsumHash j (Some (zset None (rsumHash j) i v))
  | NextOf e => set_entry_next j e v
  end.

Definition option_Z_eqb (u v : option Z) : bool :=
  match u, v with
  | Some x, Some y => x =? y
  | None, None => true
  | _, _ => false
  end.

Fixpoint removeBlockFromHash_loop (fuel : nat) (j : job) (t : Z) (p : link)
  : option job :=
  match fuel with
  | O => None
  | S fuel' =>
      match load_link j p with
      | None => Some j
      | Some e =>
          if e =? t then
            let j1 :=
              if option_Z_eqb (_pRover j) (Some t)
              then set_pRover j (Entry.next (entry j t)) else j in
            Some (store_link j1 p (Entry.next (entry j1 e)))
          else removeBlockFromHash_loop fuel' j t (NextOf e)
      end
  end.

(** [removeBlockFromHash(id)].  The bucket is read through [_pRsumHash]:
    with the hash not allocated the call reads through a [NULL] pointer
    and does not return. *)
Definition removeBlockFromHash (fuel : nat) (j : job) (id : Z) : option job :=
  if is_some (_pRsumHash j) then
    removeBlockFromHash_loop fuel j id
      (Bucket (Z.land (calcRHash j id) (_pHashMask j)))
  else None.

(** ** Writing blocks *)

(** The loop of [writeBlocks] over the ids from [id] on. *)
Fixpoint writeBlocks_loop (fuel : nat) (j : job) (id : Z) (count : nat)
  : option job :=
  match count with
  | O => Some j
  | S count' =>
      j1 <- removeBlockFromHash fuel j id ;;
      writeBlocks_loop fuel (set_ranges j1 (addToRanges (_ranges j1) id))
        (id + 1) count'
  end.

Definition writeBlocks (fuel : nat) (j : job) (data : list byte)
  (bfrom bto : Z) : option job :=
  let len :=
    Z.shiftl ((bto + _nBlockIdOffset j) - (bfrom + _nBlockIdOffset j) + 1)
      (_nBlockShift j) in
  let offset := Z.shiftl (bfrom + _nBlockIdOffset j) (_nBlockShift j) in
  let pos := file_pos (_pTargetFile j) in
  let f1 := QFile_seek (_pTargetFile j) offset in
  let f2 := QFile_write f1 data len in
  let f3 := QFile_seek f2 pos in
  writeBlocks_loop fuel (set_pTargetFile j f3) bfrom (Z.to_nat (bto - bfrom + 1)).

Section Engine.

(** The digest of [QCryptographicHash::Md4]: a function from the data to
    16 bytes. *)
Variable md4 : list byte -> list byte.

(** [calcMd4Checksum(c, data, len)], as the value stored at [c]. *)
Definition calcMd4Checksum (data : list byte) (len : Z) : list byte :=
  md4 (window data 0 len).

(** ** Matching a window against a hash chain *)

(** The [do ... while (ok && !onlyone && check_md4 < _nSeqMatches)] loop
    of [checkCheckSumsOnHashChain]; [more] bounds the iterations left
    after this one.  It gives [ok], [check_md4], and the cache
    [md4sum], [done_md4]. *)
Fixpoint strong_loop (more : nat) (j : job) (data : list byte)
  (onlyone : bool) (id : Z) (md4sum : list (list byte))
  (done_md4 check_md4 : Z) : bool * Z * list (list byte) * Z :=
  let md4sum1 :=
    if done_md4 <? check_md4
    then zset [] md4sum check_md4
           (calcMd4Checksum (advance data (_nBlockSize j * check_md4))
              (_nBlockSize j))
    else md4sum in
  let done1 := if done_md4 <? check_md4 then check_md4 else done_md4 in
  let ok :=
    memcmp_eq (zget [] md4sum1 check_md4)
      (Entry.checksum (entry j (id + check_md4)))
      (_nStrongCheckSumBytes j) in
  let check1 := check_md4 + 1 in
  if ok && negb onlyone && (check1 <? _nSeqMatches j) then
    match more with
    | S more' => strong_loop more' j data onlyone id md4sum1 done1 check1
    | O => (ok, check1, md4sum1, done1)
    end
  else (ok, check1, md4sum1, done1).

(** The [while (_pRover)] loop of [checkCheckSumsOnHashChain]. *)
Fixpoint chain_loop (fuel walk : nat) (j : job) (data : list byte)
  (onlyone : bool) (rs : rsum) (md4sum : list (list byte)) (done_md4 : Z)
  (got_blocks : Z) : option (job * Z) :=
  match walk with
  | O => None
  | S walk' =>
      match _pRover j with
      | None => Some (j, got_blocks)
      | Some e =>
          let j := set_pRover j (if onlyone then None else Entry.next (entry j e)) in
          if negb (Rsum.a (Entry.r (entry j e))
                     =? Z.land (Rsum.a rs) (_pWeakCheckSumMask j))
             || negb (Rsum.b (Entry.r (entry j e)) =? Rsum.b rs)
          then chain_loop fuel walk' j data onlyone rs md4sum done_md4 got_blocks
          else
            let id := e in
            if negb onlyone && (1 <? _nSeqMatches j)
               && (negb (Rsum.a (Entry.r (entry j (id + 1)))
                           =? Z.land (Rsum.a (snd (_pCurrentWeakCheckSums j)))
                                (_pWeakCheckSumMask j))
                   || negb (Rsum.b (Entry.r (entry j (id + 1)))
                              =? Rsum.b (snd (_pCurrentWeakCheckSums j))))
            then chain_loop fuel walk' j data onlyone rs md4sum done_md4 got_blocks
            else
              let '(ok, check_md4, md4sum', done_md4') :=
                strong_loop (Z.to_nat (_nSeqMatches j - 1)) j data onlyone id
                  md4sum done_md4 0 in
              if ok then
                let next_known :=
                  if onlyone then _nNextKnown j
                  else nextKnownBlock (_nBlocks j) (_ranges j) id in
                let num_write_blocks :=
                  if id + check_md4 <? next_known then check_md4
                  else next_known - id in
                let j1 :=
                  if id + check_md4 <? next_known then
                    let j0 := set_pNextMatch j (Some (id + check_md4)) in
                    if onlyone then j0 else set_nNextKnown j0 next_known
                  else j in
                j2 <- writeBlocks fuel j1 data id (id + num_write_blocks - 1) ;;
                chain_loop fuel walk' j2 data onlyone rs md4sum' done_md4'
                  (got_blocks + num_write_blocks)
              else
                chain_loop fuel walk' j data onlyone rs md4sum' done_md4'
                  got_blocks
      end
  end.

Definition checkCheckSumsOnHashChain (fuel : nat) (j : job) (e : Z)
  (data : list byte) (onlyone : bool) : option (job * Z) :=
  let rs := fst (_pCurrentWeakCheckSums j) in
  let j1 := set_pNextMatch j None in
  let j2 := set_pRover j1 (Some e) in
  chain_loop fuel fuel j2 data onlyone rs
    [repeat x00 (Z.to_nat CHECKSUM_SIZE); repeat x00 (Z.to_nat CHECKSUM_SIZE)]
    (-1) 0.

(** ** Scanning a buffer *)

(** The hash of the window the scan is at, from the current weak sums. *)
Definition window_hash (j : job) : Z :=
  let sums := _pCurrentWeakCheckSums j in
  Z.lxor (Rsum.b (fst sums))
    (Z.shiftl
       (if 1 <? _nSeqMatches j then Rsum.b (snd sums)
        else Z.land (Rsum.a (fst sums)) (_pWeakCheckSumMask j))
       BITHASHBITS).

(** The first attempt of an iteration of [submitSourceData]: the window
    against the block after the previous hit.  It gives the job,
    [thismatch] and [blocks_matched]. *)
Definition match_next (fuel : nat) (j : job) (data : list byte)
  : option (job * Z * Z) :=
  match _pNextMatch j with
  | Some e =>
      if 1 <? _nSeqMatches j then
        '(j', thismatch) <- checkCheckSumsOnHashChain fuel j e data true ;;
        Some (j', thismatch, if thismatch =? 0 then 0 else 1)
      else Some (j, 0, 0)
  | None => Some (j, 0, 0)
  end.

(** The second attempt, [if (!thismatch)]: the lookup in the bit hash and
    the rsum hash, and the walk of the chain found.  The lookup reads
    [_pBitHash] and, when the bit is set, [_pRsumHash]: with the hash read
    not allocated it reads through a [NULL] pointer and does not
    return. *)
Definition match_hash (fuel : nat) (j : job) (data : list byte)
  (thismatch blocks_matched : Z) : option (job * Z * Z) :=
  if thismatch =? 0 then
    let hash := window_hash j in
    if negb (is_some (_pBitHash j)) then None
    else if negb (Z.land
               (zget 0 (bitHash j) (Z.shiftr (Z.land hash (_pBitHashMask j)) 3))
               (Z.shiftl 1 (Z.land hash 7)) =? 0)
    then
      if negb (is_some (_pRsumHash j)) then None
      else
        match zget None (rsumHash j) (Z.land hash (_pHashMask j)) with
        | Some e =>
            '(j', thismatch') <- checkCheckSumsOnHashChain fuel j e data false ;;
            Some (j', thismatch',
                  if thismatch' =? 0 then blocks_matched else _nSeqMatches j')
        | None => Some (j, thismatch, blocks_matched)
        end
    else Some (j, thismatch, blocks_matched)
  else Some (j, thismatch, blocks_matched).

(** The weak sums after a hit, with the window now at [x]. *)
Definition sums_after_hit (j : job) (data : list byte) (x blocks_matched : Z)
  : rsum * rsum :=
  let bs := _nBlockSize j in
  let sums := _pCurrentWeakCheckSums j in
  (if (1 <? _nSeqMatches j) && (blocks_matched =? 1) then snd sums
   else calc_rsum_block (advance data x) bs,
   if 1 <? _nSeqMatches j then calc_rsum_block (advance data (x + bs)) bs
   else snd sums).

(** The weak sums after the window at [x] has moved by one byte. *)
Definition sums_after_slide (j : job) (data : list byte) (x : Z) : rsum * rsum :=
  let bs := _nBlockSize j in
  let Nc := byte_at data (x + bs * 2) in
  let nc := byte_at data (x + bs) in
  let oc := byte_at data x in
  let sums := _pCurrentWeakCheckSums j in
  (UPDATE_RSUM (fst sums) oc nc (_nBlockShift j),
   if 1 <? _nSeqMatches j then UPDATE_RSUM (snd sums) nc Nc (_nBlockShift j)
   else snd sums).

(** The [for (;;)] loop of [submitSourceData], at window [x] with
    [got_blocks] blocks so far. *)
Fixpoint submit_loop (fuel steps : nat) (j : job) (data : list byte)
  (len x got_blocks : Z) : option (job * Z) :=
  match steps with
  | O => None
  | S steps' =>
      let bs := _nBlockSize j in
      if x + _nContext j =? len then Some (j, got_blocks)
      else
        '(j1, thismatch1, blocks_matched1) <-
          match_next fuel j (advance data x) ;;
        '(j2, thismatch2, blocks_matched2) <-
          match_hash fuel j1 (advance data x) thismatch1 blocks_matched1 ;;
        let got_blocks := got_blocks + thismatch2 in
        if negb (blocks_matched2 =? 0) then
          let x := x + (bs + (if 1 <? blocks_matched2 then bs else 0)) in
          if len <? x + _nContext j2 then
            Some (set_nSkip j2 (x + _nContext j2 - len), got_blocks)
          else
            submit_loop fuel steps'
              (set_pCurrentWeakCheckSums j2 (sums_after_hit j2 data x blocks_matched2))
              data len x got_blocks
        else
          submit_loop fuel steps'
            (set_pCurrentWeakCheckSums j2 (sums_after_slide j2 data x))
            data len (x + 1) got_blocks
  end.

Definition submitSourceData (fuel : nat) (j : job) (data : list byte)
  (len offset : Z) : option (job * Z) :=
  let bs := _nBlockSize j in
  let x := if offset =? 0 then 0 else _nSkip j in
  let j1 := if offset =? 0 then set_pNextMatch j None else j in
  let j2 :=
    if negb (x =? 0) || (offset =? 0) then
      let first := calc_rsum_block (advance data x) bs in
      let second :=
        if 1 <? _nSeqMatches j1
        then calc_rsum_block (advance data (x + bs)) bs
        else snd (_pCurrentWeakCheckSums j1) in
      set_pCurrentWeakCheckSums j1 (first, second)
    else j1 in
  let j3 := set_nSkip j2 0 in
  submit_loop fuel fuel j3 data len x 0.

(** ** Scanning the seed file *)

(** The [while (!file->atEnd())] loop of [submitSourceFile]; [in_] is the
    variable [in]. *)
Fixpoint source_loop (fuel rounds : nat) (j : job) (file : QFile)
  (buf : list byte) (in_ got_blocks : Z) : option (job * Z) :=
  match rounds with
  | O => None
  | S rounds' =>
      if QFile_atEnd file then Some (j, got_blocks)
      else
        let bufsize := _nBlockSize j * 16 in
        let start_in := in_ in
        let '(buf1, file1, len, in1) :=
          if in_ =? 0 then
            let (bytes, file1) := QFile_read file bufsize in
            (blit buf 0 bytes, file1, Z.of_nat (length bytes),
             in_ + Z.of_nat (length bytes))
          else
            let buf0 :=
              blit buf 0 (window buf (bufsize - _nContext j) (_nContext j)) in
            let (bytes, file1) := QFile_read file (bufsize - _nContext j) in
            (blit buf0 (_nContext j) bytes, file1,
             _nContext j + Z.of_nat (length bytes),
             in_ + (bufsize - _nContext j)) in
        let buf2 :=
          if QFile_atEnd file1
          then blit buf1 len (repeat x00 (Z.to_nat (_nContext j))) else buf1 in
        let len2 := if QFile_atEnd file1 then len + _nContext j else len in
        '(j1, got) <- submitSourceData fuel j buf2 len2 start_in ;;
        source_loop fuel rounds' j1 file1 buf2 in1 (got_blocks + got)
  end.

(** [submitSourceFile]; [malloc] succeeds, the fresh buffer is modelled
    as zeroed. *)
Definition submitSourceFile (fuel : nat) (j : job) (file : QFile)
  : option (job * Z) :=
  let bufsize := _nBlockSize j * 16 in
  let buf := repeat x00 (Z.to_nat (bufsize + _nContext j)) in
  let j1 := if is_some (_pRsumHash j) then j else snd (buildHash j) in
  source_loop fuel fuel j1 file buf 0 0.

(** ** The report of the ranges still required *)

(** The [for] loop of [getRequiredRanges] over the known ranges. *)
Fixpoint required_loop (count : nat) (j : job) (from to i : Z)
  (ret_ranges : list (Z * Z)) (n : Z) : list (Z * Z) * Z :=
  match count with
  | O => (ret_ranges, n)
  | S count' =>
      let off := _nBlockIdOffset j in
      let p := _pRanges (_ranges j) in
      let ret := ret_ranges ++ [if n =? 1 then (from, to) else (0, 0)] in
      if snd (zget (0, 0) ret (n - 1)) <? zget 0 p (2 * i) + off
      then required_loop count' j from to (i + 1) ret n
      else if zget 0 p (2 * i + 1) + off <? from
      then required_loop count' j from to (i + 1) ret n
      else if (n =? 1) && (zget 0 p (2 * i) + off <=? from)
      then
        required_loop count' j from to (i + 1)
          (zset (0, 0) ret 0
             (zget 0 p (2 * i + 1) + 1 + off, snd (zget (0, 0) ret 0)))
          n
      else if snd (zget (0, 0) ret (n - 1)) - 1 <=? zget 0 p (2 * i + 1) + off
      then
        required_loop count' j from to (i + 1)
          (zset (0, 0) ret (n - 1)
             (fst (zget (0, 0) ret (n - 1)), zget 0 p (2 * i) + off))
          n
      else
        let ret1 :=
          zset (0, 0) ret n
            (zget 0 p (2 * i + 1) + 1 + off, snd (zget (0, 0) ret n)) in
        let ret2 :=
          zset (0, 0) ret1 n
            (fst (zget (0, 0) ret1 n), snd (zget (0, 0) ret1 (n - 1))) in
        let ret3 :=
          zset (0, 0) ret2 (n - 1)
            (fst (zget (0, 0) ret2 (n - 1)), zget 0 p (2 * i) + off) in
        required_loop count' j from to (i + 1) ret3 (n + 1)
  end.

Definition pair_eqb (u v : Z * Z) : bool :=
  (fst u =? fst v) && (snd u =? snd v).

Definition getRequiredRanges (j : job) : option required_ranges :=
  let from := 0 + _nBlockIdOffset j in
  let to := _nBlocks j + _nBlockIdOffset j in
  let '(ret, n) :=
    required_loop (Z.to_nat (_nRanges (_ranges j))) j from to 0
      [(from, to); (0, 0)] 1 in
  let ret1 :=
    if (n =? 1) && (snd (zget (0, 0) ret 0) <=? fst (zget (0, 0) ret 0))
    then [] else ret in
  let ret2 := filter (fun q => negb (pair_eqb q (0, 0))) ret1 in
  match ret2 with
  | [] => None
  | _ =>
      Some
        (map (fun q =>
                let from := fst q - _nBlockIdOffset j in
                let to := snd q - _nBlockIdOffset j in
                (q,
                 tabulate (Z.to_nat (to - from + 1))
                   (fun k =>
                      window (Entry.checksum (entry j (from + k))) 0
                        (_nStrongCheckSumBytes j))))
           ret2)
  end.

(** ** The job: [operator ()] *)

Definition run (stack : Z -> list byte) (fuel : nat) (j : job)
  : option (Result * job) :=
  let result := Result_init in
  let (err, j1) := parseTargetFileCheckSumBlocks stack j in
  if is_error err then Some (mk_result err (gotBlocks result) (requiredRanges result), j1)
  else
    match tryOpenSeedFile j1 with
    | (err, None) =>
        Some (mk_result err (gotBlocks result) (requiredRanges result), j1)
    | (err, Some seedFile) =>
        if is_error err
        then Some (mk_result err (gotBlocks result) (requiredRanges result), j1)
        else
          '(j2, got) <- submitSourceFile fuel j1 seedFile ;;
          Some (mk_result err (gotBlocks result + got) (getRequiredRanges j2), j2)
    end.

End Engine.

(** ** MD4 (RFC 1320), the digest [QCryptographicHash::Md4] computes *)

Module MD4.

Definition to_byte (z : Z) : byte :=
  match Byte.of_N (Z.to_N (z mod 256)) with
  | Some c => c
  | None => x00
  end.

Definition w32 (z : Z) : Z := z mod 4294967296.

Definition rotl (x s : Z) : Z :=
  w32 (Z.lor (Z.shiftl x s) (Z.shiftr (w32 x) (32 - s))).

Definition F (x y z : Z) : Z := Z.lor (Z.land x y) (Z.land (Z.lxor x 4294967295) z).
Definition G (x y z : Z) : Z :=
  Z.lor (Z.lor (Z.land x y) (Z.land x z)) (Z.land y z).
Definition H (x y z : Z) : Z := Z.lxor (Z.lxor x y) z.

(** The message followed by the padding: a one bit, zeros up to 56
    modulo 64 bytes, and the length in bits as 8 little-endian bytes. *)
Definition pad (msg : list byte) : list byte :=
  let len := Z.of_nat (length msg) in
  let zeros := Z.to_nat ((55 - len) mod 64) in
  let bits := len * 8 in
  msg ++ x80 :: repeat x00 zeros
      ++ map (fun i => to_byte (Z.shiftr bits (8 * i))) [0; 1; 2; 3; 4; 5; 6; 7].

(** Little-endian 32-bit words of a byte sequence. *)
Fixpoint words (fuel : nat) (l : list byte) : list Z :=
  match fuel, l with
  | S fuel', b0 :: b1 :: b2 :: b3 :: rest =>
      (uchar b0 + 256 * uchar b1 + 65536 * uchar b2 + 16777216 * uchar b3)
        :: words fuel' rest
  | _, _ => []
  end.

Definition state := (Z * Z * Z * Z)%type.

(** One step: [a = (a + f(b,c,d) + X[k] + K) <<< s], followed by the
    rotation of the four registers. *)
Definition step (f : Z -> Z -> Z -> Z) (K : Z) (X : list Z) (st : state)
  (ks : Z * Z) : state :=
  let '(a, b, c, d) := st in
  let (k, s) := ks in
  (d, rotl (w32 (a + f b c d + nth (Z.to_nat k) X 0 + K)) s, b, c).

Definition round1 : list (Z * Z) :=
  [(0,3);(1,7);(2,11);(3,19);(4,3);(5,7);(6,11);(7,19);
   (8,3);(9,7);(10,11);(11,19);(12,3);(13,7);(14,11);(15,19)].
Definition round2 : list (Z * Z) :=
  [(0,3);(4,5);(8,9);(12,13);(1,3);(5,5);(9,9);(13,13);
   (2,3);(6,5);(10,9);(14,13);(3,3);(7,5);(11,9);(15,13)].
Definition round3 : list (Z * Z) :=
  [(0,3);(8,9);(4,11);(12,15);(2,3);(10,9);(6,11);(14,15);
   (1,3);(9,9);(5,11);(13,15);(3,3);(11,9);(7,11);(15,15)].

Definition compress (st : state) (X : list Z) : state :=
  let '(a0, b0, c0, d0) := st in
  let st1 := fold_left (step F 0 X) round1 st in
  let st2 := fold_left (step G 1518500249 X) round2 st1 in
  let '(a, b, c, d) := fold_left (step H 1859775393 X) round3 st2 in
  (w32 (a0 + a), w32 (b0 + b), w32 (c0 + c), w32 (d0 + d)).

Fixpoint blocks (fuel : nat) (st : state) (ws : list Z) : state :=
  match fuel, ws with
  | S fuel', _ :: _ => blocks fuel' (compress st (firstn 16 ws)) (skipn 16 ws)
  | _, _ => st
  end.

Definition le_bytes (w : Z) : list byte :=
  map (fun i => to_byte (Z.shiftr w (8 * i))) [0; 1; 2; 3].

Definition md4 (msg : list byte) : list byte :=
  let p := pad msg in
  let ws := words (length p) p in
  let '(a, b, c, d) :=
    blocks (length ws) (1732584193, 4023233417, 2562383102, 271733878) ws in
  le_bytes a ++ le_bytes b ++ le_bytes c ++ le_bytes d.

End MD4.

(** ** Test data: the checksum blocks of a target

    Modelled from the spec: the checksum stream a control file holds for a
    target (section 6), which the control-file parser outside this
    repository part supplies: for each block of [bs] bytes, the last
    [weak] bytes of the big-endian rolling checksum [(a, b)], then the
    first [strong] bytes of the MD4 of the block.  The last block is padded
    with zeros. *)

Definition block_of (target : list byte) (bs id : Z) : list byte :=
  window target (id * bs) bs.

Definition checksum_record (block : list byte) (weak strong : Z) : list byte :=
  let r := calc_rsum_block block (Z.of_nat (length block)) in
  let field :=
    [MD4.to_byte (Z.shiftr (Rsum.a r) 8); MD4.to_byte (Rsum.a r);
     MD4.to_byte (Z.shiftr (Rsum.b r) 8); MD4.to_byte (Rsum.b r)] in
  window field (4 - weak) weak ++ window (MD4.md4 block) 0 strong.

Definition checksum_blocks (target : list byte) (bs nblocks weak strong : Z)
  : list byte :=
  concat (tabulate (Z.to_nat nblocks)
            (fun id => checksum_record (block_of target bs id) weak strong)).

(** A job for a target, a seed and an empty target file. *)
Definition job_for (target seed : list byte)
  (bs offset nblocks weak strong seq : Z) : job :=
  ZsyncCoreJobPrivate
    (mk_info bs offset nblocks weak strong seq (mk_file [] 0 [])
       (Some (mk_buffer (checksum_blocks target bs nblocks weak strong) true))
       (mk_seed true true true seed)).

(** The bytes the automatic array of the parser holds in the runs
    computed below, when nothing tells otherwise: 16 bytes [0xa5]. *)
Definition stale_stack (id : Z) : list byte := repeat xa5 16.

(** The data of the scenarios of the specification. *)
Module Scenario.
Import Strings.String.

Definition target : list byte := list_byte_of_string "ABCDEFGHIJKLMNOP".
Definition ABCD : list byte := list_byte_of_string "ABCD".
Definition EFGH : list byte := list_byte_of_string "EFGH".
Definition IJKL : list byte := list_byte_of_string "IJKL".
Definition MNOP : list byte := list_byte_of_string "MNOP".

(** [block_size = 4], [blocks = 4], [weak_bytes = 4],
    [strong_bytes = 16], [seq_matches = 1], [block_id_offset = 0]. *)
Definition job_with_seed (seed : list byte) : job :=
  job_for target seed 4 0 4 4 16 1.

(** The seed of scenario 1, and the job once the checksum blocks are
    parsed and once the hash is built. *)
Definition seed1 : list byte := list_byte_of_string "XXXXABCDYYYYIJKL".

Definition parsed (seed : list byte) : job :=
  snd (parseTargetFileCheckSumBlocks stale_stack (job_with_seed seed)).

Definition hashed (seed : list byte) : job := snd (buildHash (parsed seed)).

End Scenario.

(** ** Predicates on jobs *)

(** The members that are set when the job and its hash are built and that
    scanning leaves alone. *)
Definition config_of (j : job) :=
  (_nBlockSize j, _nBlockIdOffset j, _nBlocks j, _pWeakCheckSumMask j,
   _nWeakCheckSumBytes j, _nStrongCheckSumBytes j, _nSeqMatches j,
   _nContext j, _nBlockShift j, _pHashMask j, _pBitHashMask j, _pBitHash j).

(** The checksums of the block hash table are the same in [j] and [j']. *)
Definition same_checksums (j j' : job) : Prop :=
  length (blockHashes j') = length (blockHashes j)
  /\ forall e, Entry.r (entry j' e) = Entry.r (entry j e)
               /\ Entry.checksum (entry j' e) = Entry.checksum (entry j e).

(** [j'] differs from [j] in chain links, bucket heads and the rover
    only. *)
Definition only_links_changed (j j' : job) : Prop :=
  config_of j' = config_of j
  /\ same_checksums j j'
  /\ _pTargetFile j' = _pTargetFile j
  /\ _ranges j' = _ranges j
  /\ _nSkip j' = _nSkip j
  /\ _pNextMatch j' = _pNextMatch j
  /\ _nNextKnown j' = _nNextKnown j
  /\ _pCurrentWeakCheckSums j' = _pCurrentWeakCheckSums j.

(** Every link of the table leads to a later entry: the chains are built
    in ascending order of block id and stay so. *)
Definition links_ascend (j : job) : Prop :=
  forall e v, Entry.next (entry j e) = Some v -> e < v.

Definition links_ascendb (j : job) : bool :=
  forallb
    (fun e : Z =>
       match Entry.next (entry j e) with
       | Some v => e <? v
       | None => true
       end)
    (tabulate (length (blockHashes j)) (fun e => e)).

(** The block ids held by the heads of the buckets, the links of the
    table, the rover and the hint for the next match are not negative. *)
Definition nonneg_link (o : option Z) : bool :=
  match o with Some v => 0 <=? v | None => true end.

Definition ids_nonneg (j : job) : Prop :=
  (forall b, nonneg_link (zget None (rsumHash j) b) = true)
  /\ (forall e, nonneg_link (Entry.next (entry j e)) = true)
  /\ nonneg_link (_pRover j) = true
  /\ nonneg_link (_pNextMatch j) = true.

Definition ids_nonnegb (j : job) : bool :=
  forallb nonneg_link (rsumHash j)
  && forallb (fun e => nonneg_link (Entry.next e)) (blockHashes j)
  && nonneg_link (_pRover j)
  && nonneg_link (_pNextMatch j).

(** The number of entries of the table from [e] on, and a bound on the
    steps a walk takes from the link [o] when the links ascend. *)
Definition entries_left (j : job) (e : Z) : nat :=
  if (0 <=? e) && (e <? Z.of_nat (length (blockHashes j)))
  then Z.to_nat (Z.of_nat (length (blockHashes j)) - e) else 0%nat.

Definition chain_rank (j : job) (o : option Z) : nat :=
  match o with
  | None => 0%nat
  | Some e => S (entries_left j e)
  end.

(** What a scan of seed data leaves unchanged. *)
Definition scan_frame (j j' : job) : Prop :=
  config_of j' = config_of j /\ same_checksums j j'.

Section Verified.

Variable md4 : list byte -> list byte.

(** The digest of [block] agrees with the stored strong checksum of
    block [id] in its first [strong_bytes] bytes. *)
Definition strong_match (j : job) (block : list byte) (id : Z) : Prop :=
  memcmp_eq (md4 block) (Entry.checksum (entry j id)) (_nStrongCheckSumBytes j)
  = true.

(** The block size is the power of two that the block shift stands for,
    and block ids are not shifted below 0: positions and lengths, which
    [writeBlocks] computes with the shift, are then those of blocks. *)
Definition aligned (j : job) : Prop :=
  0 <= _nBlockShift j
  /\ _nBlockSize j = 2 ^ _nBlockShift j
  /\ 0 <= _nBlockIdOffset j.

(** A write of blocks that have passed the strong comparison: for a
    block [id] and a number [num] of blocks, the write is at the position
    of block [id] in the target file, its bytes are [num] blocks, and the
    [k]-th of them passes the comparison with the stored checksum of
    block [id + k]. *)
Definition verified_write (j : job) (w : Z * list byte) : Prop :=
  exists id num,
    0 <= id /\ 0 < num
    /\ fst w = Z.shiftl (id + _nBlockIdOffset j) (_nBlockShift j)
    /\ Z.of_nat (length (snd w)) = num * _nBlockSize j
    /\ forall k, 0 <= k < num ->
         strong_match j (window (snd w) (_nBlockSize j * k) (_nBlockSize j))
           (id + k).

(** The bytes of the write [w] are bytes of [data], from some position
    on; bytes behind the end of [data] are zeros. *)
Definition taken_from (data : list byte) (w : Z * list byte) : Prop :=
  exists x, 0 <= x /\ snd w = window data x (Z.of_nat (length (snd w))).

(** The journal of the target file of [j'] is the journal of [j] with
    verified writes of bytes of [data] added. *)
Definition verified_writes (data : list byte) (j j' : job) : Prop :=
  exists ws,
    file_journal (_pTargetFile j') = ws ++ file_journal (_pTargetFile j)
    /\ Forall (fun w => verified_write j w /\ taken_from data w) ws.

End Verified.

Section Scanning.

Variable md4 : list byte -> list byte.

(** What a walk of a hash chain with the window at [data] leaves
    unchanged, and what it writes. *)
Definition chain_step (data : list byte) (j j' : job) : Prop :=
  scan_frame j j'
  /\ _nSkip j' = _nSkip j
  /\ _pCurrentWeakCheckSums j' = _pCurrentWeakCheckSums j
  /\ verified_writes md4 data j j'.

(** The cache [md4sum] of [checkCheckSumsOnHashChain]: two digests, of
    which those up to [done_md4] are the digests of the blocks at
    [data]. *)
Definition cache_ok (j : job) (data : list byte) (md4sum : list (list byte))
  (done_md4 : Z) : Prop :=
  length md4sum = 2%nat
  /\ -1 <= done_md4
  /\ forall k, 0 <= k <= done_md4 ->
       zget [] md4sum k = md4 (window data (_nBlockSize j * k) (_nBlockSize j)).

(** What a scan of the buffer [data] leaves unchanged, and what it
    writes. *)
Definition scan_step (data : list byte) (j j' : job) : Prop :=
  scan_frame j j' /\ verified_writes md4 data j j'.

(** What the scan of a seed file leaves unchanged, and what it writes. *)
Definition file_step (j j' : job) : Prop :=
  scan_frame j j'
  /\ exists ws,
       file_journal (_pTargetFile j') = ws ++ file_journal (_pTargetFile j)
       /\ Forall (verified_write md4 j) ws.

End Scanning.

(** What walking chains and writing blocks keeps of a job, whatever they
    match. *)
Definition chain_keeps (j j' : job) : Prop :=
  config_of j' = config_of j
  /\ length (blockHashes j') = length (blockHashes j)
  /\ _nSkip j' = _nSkip j
  /\ _pCurrentWeakCheckSums j' = _pCurrentWeakCheckSums j.

(** What the scan needs of a job to end: ascending links, enough fuel
    for the walks of its chains, and the hashes it looks the window up
    in. *)
Definition scan_ready (fuel : nat) (j : job) : Prop :=
  links_ascend j
  /\ (S (length (blockHashes j)) < fuel)%nat
  /\ hashes_built j = true.

(** The largest step of the window after a hit. *)
Definition hit_step (j : job) : Z :=
  _nBlockSize j + (if 1 <? _nSeqMatches j then _nBlockSize j else 0).

(** The parameters of the job, set by the constructor. *)
Definition params_of (j : job) :=
  (_nBlockSize j, _nBlockIdOffset j, _nBlocks j, _pWeakCheckSumMask j,
   _nWeakCheckSumBytes j, _nStrongCheckSumBytes j, _nSeqMatches j,
   _nContext j, _nBlockShift j).

(** The members that building the hash does not touch, apart from the
    parameters and the checksums. *)
Definition scan_state_of (j : job) :=
  (_pTargetFile j, _ranges j, _nSkip j, _pRover j, _pNextMatch j,
   _nNextKnown j, _pCurrentWeakCheckSums j).

(** ** A job whose table describes a target *)



Definition unknown (j : job) (e : Z) : bool := negb (alreadyGotBlock (_ranges j) e).







Section Target.

Variable md4 : list byte -> list byte.






End Target.










(** The blocks that start before the position [p] of the target are
    known. *)
Definition progress (j : job) (p : Z) : Prop :=
  forall e, 0 <= e < _nBlocks j -> e * _nBlockSize j < p -> unknown j e = false.

Section Buffer.

Variable md4 : list byte -> list byte.



End Buffer.




Section Written.

Variable md4 : list byte -> list byte.



End Written.

(** * Properties *)

(** Closed facts about concrete runs are settled by computation. *)
Ltac by_computation :=
  vm_compute; first [reflexivity | discriminate | (intro; discriminate)].

(** ** Arrays *)

Lemma tabulate_length {A} n (f : Z -> A) : length (tabulate n f) = n.
Proof. unfold tabulate. rewrite length_map, length_seq. reflexivity. Qed.

Lemma zget_tabulate {A} (d : A) n f k :
  0 <= k < Z.of_nat n -> zget d (tabulate n f) k = f k.
Proof.
  intros Hk. unfold zget, tabulate.
  destruct (Z.ltb_spec k 0); [lia|].
  rewrite nth_indep with (d' := f (Z.of_nat 0)) by (rewrite length_map, length_seq; lia).
  rewrite (map_nth (fun i => f (Z.of_nat i)) (seq 0 n) 0%nat).
  rewrite seq_nth by lia. f_equal. lia.
Qed.

Lemma zget_outside {A} (d : A) l k :
  k < 0 \/ Z.of_nat (length l) <= k -> zget d l k = d.
Proof.
  intros Hk. unfold zget. destruct (Z.ltb_spec k 0); [reflexivity|].
  apply nth_overflow. lia.
Qed.

Lemma zset_length {A} (d : A) l i v : length (zset d l i v) = length l.
Proof. apply tabulate_length. Qed.

Lemma zget_zset {A} (d : A) l i v k :
  0 <= i < Z.of_nat (length l) ->
  zget d (zset d l i v) k = if k =? i then v else zget d l k.
Proof.
  intros Hi.
  destruct (Z_lt_dec k 0) as [Hk|Hk]; [|destruct (Z_lt_dec k (Z.of_nat (length l))) as [Hk'|Hk']].
  - rewrite !zget_outside by (rewrite ?zset_length; lia).
    destruct (Z.eqb_spec k i); [lia|reflexivity].
  - unfold zset. rewrite zget_tabulate by lia. reflexivity.
  - rewrite !zget_outside by (rewrite ?zset_length; lia).
    destruct (Z.eqb_spec k i); [lia|reflexivity].
Qed.

Lemma memmove_length {A} (d : A) l dst src cnt :
  length (memmove d l dst src cnt) = length l.
Proof. apply tabulate_length. Qed.

Lemma zget_memmove {A} (d : A) l dst src cnt k :
  0 <= k < Z.of_nat (length l) ->
  zget d (memmove d l dst src cnt) k =
  if (dst <=? k) && (k <? dst + cnt) then zget d l (k - dst + src)
  else zget d l k.
Proof. intros Hk. unfold memmove. rewrite zget_tabulate by lia. reflexivity. Qed.

Lemma realloc_length {A} (d : A) l n : length (realloc d l n) = Z.to_nat n.
Proof. apply tabulate_length. Qed.

Lemma zget_realloc {A} (d : A) l n k :
  0 <= k < n -> zget d (realloc d l n) k = zget d l k.
Proof. intros Hk. unfold realloc. rewrite zget_tabulate by lia. reflexivity. Qed.

(** A cell of an array after a write, whatever the indices. *)
Lemma zget_zset_any {A} (d : A) l i v k :
  zget d (zset d l i v) k =
  if (k =? i) && (0 <=? i) && (i <? Z.of_nat (length l)) then v
  else zget d l k.
Proof.
  destruct (Z_lt_dec k 0) as [Hk|Hk];
    [|destruct (Z_lt_dec k (Z.of_nat (length l))) as [Hk'|Hk']].
  - rewrite !zget_outside by (rewrite ?zset_length; lia).
    destruct (Z.eqb_spec k i); destruct (Z.leb_spec 0 i);
      destruct (Z.ltb_spec i (Z.of_nat (length l))); cbn; try reflexivity; lia.
  - unfold zset. rewrite zget_tabulate by lia.
    destruct (Z.eqb_spec k i); destruct (Z.leb_spec 0 i);
      destruct (Z.ltb_spec i (Z.of_nat (length l))); cbn; try reflexivity; lia.
  - rewrite !zget_outside by (rewrite ?zset_length; lia).
    destruct (Z.eqb_spec k i); destruct (Z.leb_spec 0 i);
      destruct (Z.ltb_spec i (Z.of_nat (length l))); cbn; try reflexivity; lia.
Qed.

Lemma zget_nth {A} (d : A) l (n : nat) : zget d l (Z.of_nat n) = nth n l d.
Proof.
  unfold zget. destruct (Z.ltb_spec (Z.of_nat n) 0); [lia|].
  rewrite Nat2Z.id. reflexivity.
Qed.

(** Two arrays with the same cells are the same array. *)
Lemma zget_ext {A} (d : A) l l' :
  length l = length l' ->
  (forall k, 0 <= k < Z.of_nat (length l) -> zget d l k = zget d l' k) ->
  l = l'.
Proof.
  intros Hlen H. apply nth_ext with (d := d) (d' := d); [assumption|].
  intros n Hn. rewrite <- !zget_nth. apply H. lia.
Qed.

Lemma tabulate_zget {A} (d : A) l : tabulate (length l) (zget d l) = l.
Proof.
  apply zget_ext with (d := d).
  - apply tabulate_length.
  - intros k Hk. rewrite tabulate_length in Hk.
    apply zget_tabulate. assumption.
Qed.

Lemma window_length data off len : length (window data off len) = Z.to_nat len.
Proof. apply tabulate_length. Qed.

Lemma byte_at_window data off len k :
  0 <= k < len -> byte_at (window data off len) k = byte_at data (off + k).
Proof.
  intros Hk. unfold byte_at, window. rewrite zget_tabulate by lia. reflexivity.
Qed.

Lemma window_ext data data' off off' len :
  (forall k, 0 <= k < len -> byte_at data (off + k) = byte_at data' (off' + k)) ->
  window data off len = window data' off' len.
Proof.
  intros H. apply zget_ext with (d := x00).
  - rewrite !window_length. reflexivity.
  - intros k Hk. rewrite window_length in Hk.
    fold (byte_at (window data off len) k).
    fold (byte_at (window data' off' len) k).
    rewrite !byte_at_window by lia. apply H. lia.
Qed.

Lemma byte_at_advance' data x k :
  0 <= x -> 0 <= k -> byte_at (advance data x) k = byte_at data (x + k).
Proof.
  intros Hx Hk. unfold byte_at, zget, advance.
  destruct (Z.ltb_spec k 0); [lia|]. destruct (Z.ltb_spec (x + k) 0); [lia|].
  rewrite nth_skipn. f_equal. lia.
Qed.

(** ** The rolling checksum *)

Lemma ushort_idem z : ushort (ushort z) = ushort z.
Proof. unfold ushort. apply Z.mod_mod. lia. Qed.

Lemma ushort_add_l x y : ushort (ushort x + y) = ushort (x + y).
Proof. unfold ushort. apply Zplus_mod_idemp_l. Qed.

Lemma ushort_add_r x y : ushort (x + ushort y) = ushort (x + y).
Proof. unfold ushort. apply Zplus_mod_idemp_r. Qed.

Lemma ushort_sub_l x y : ushort (ushort x - y) = ushort (x - y).
Proof. unfold ushort. apply Zminus_mod_idemp_l. Qed.

Lemma ushort_congr x y : (x - y) mod 65536 = 0 -> ushort x = ushort y.
Proof.
  unfold ushort. intros H.
  replace x with (y + (x - y)) by lia.
  rewrite <- Zplus_mod_idemp_r, H, Z.add_0_r. reflexivity.
Qed.

Lemma calc_rsum_loop_sums data len : forall a b,
  calc_rsum_loop data len a b =
  (if Nat.eqb len 0 then a else ushort (a + plain_sum data len),
   if Nat.eqb len 0 then b else ushort (b + weighted_sum data len)).
Proof.
  revert data. induction len as [|n IH]; intros data a b.
  - reflexivity.
  - cbn [calc_rsum_loop plain_sum weighted_sum Nat.eqb]. rewrite IH.
    destruct n as [|n].
    + cbn [Nat.eqb plain_sum weighted_sum]. rewrite !Z.add_0_r. reflexivity.
    + cbn [Nat.eqb]. rewrite !ushort_add_l, !Z.add_assoc. reflexivity.
Qed.

Lemma calc_rsum_block_sums data len :
  calc_rsum_block data len =
  Rsum.mk (ushort (plain_sum data (Z.to_nat len)))
          (ushort (weighted_sum data (Z.to_nat len))).
Proof.
  unfold calc_rsum_block. rewrite calc_rsum_loop_sums.
  destruct (Z.to_nat len); reflexivity.
Qed.

Lemma plain_sum_snoc data n :
  plain_sum data (S n) = plain_sum data n + uchar (nth n data x00).
Proof.
  revert data. induction n as [|n IH]; intros data.
  - destruct data; cbn; lia.
  - change (plain_sum data (S (S n)))
      with (uchar (hd x00 data) + plain_sum (tl data) (S n)).
    rewrite IH. cbn [plain_sum]. destruct data as [|c data]; cbn [tl hd nth].
    + destruct n; cbn; lia.
    + lia.
Qed.

Lemma weighted_sum_snoc data n :
  weighted_sum data (S n) = weighted_sum data n + plain_sum data (S n).
Proof.
  revert data. induction n as [|n IH]; intros data.
  - cbn [weighted_sum plain_sum]. lia.
  - change (weighted_sum data (S (S n)))
      with (Z.of_nat (S (S n)) * uchar (hd x00 data)
            + weighted_sum (tl data) (S n)).
    rewrite IH.
    change (weighted_sum data (S n))
      with (Z.of_nat (S n) * uchar (hd x00 data) + weighted_sum (tl data) n).
    change (plain_sum data (S (S n)))
      with (uchar (hd x00 data) + plain_sum (tl data) (S n)).
    lia.
Qed.

(** Moving the window one byte forward, without wrap-around. *)
Lemma plain_sum_tl data n :
  plain_sum (tl data) (S n) =
  plain_sum data (S n) - uchar (hd x00 data) + uchar (nth (S n) data x00).
Proof.
  rewrite plain_sum_snoc. cbn [plain_sum].
  replace (nth n (tl data) x00) with (nth (S n) data x00); [lia|].
  destruct data; cbn [tl nth]; [destruct n|]; reflexivity.
Qed.

Lemma weighted_sum_tl data n :
  weighted_sum (tl data) (S n) =
  weighted_sum data (S n) - Z.of_nat (S n) * uchar (hd x00 data)
  + plain_sum (tl data) (S n).
Proof. rewrite weighted_sum_snoc. cbn [weighted_sum]. lia. Qed.

Lemma UPDATE_RSUM_tl data len bshift :
  0 <= bshift -> len = 2 ^ bshift ->
  UPDATE_RSUM (calc_rsum_block data len) (hd x00 data)
    (nth (Z.to_nat len) data x00) bshift
  = calc_rsum_block (tl data) len.
Proof.
  intros Hs Hlen.
  assert (0 < len) by (subst; apply Z.pow_pos_nonneg; lia).
  rewrite !calc_rsum_block_sums. unfold UPDATE_RSUM. cbn [Rsum.a Rsum.b].
  destruct (Z.to_nat len) as [|n] eqn:En; [lia|].
  rewrite Z.shiftl_mul_pow2 by lia. rewrite <- Hlen.
  assert (Hl : len = Z.of_nat (S n)) by lia.
  assert (HA : ushort (ushort (plain_sum data (S n))
                       + (uchar (nth (S n) data x00) - uchar (hd x00 data)))
               = ushort (plain_sum (tl data) (S n))).
  { rewrite ushort_add_l. f_equal. rewrite plain_sum_tl. lia. }
  rewrite HA. f_equal.
  rewrite ushort_add_l.
  replace (weighted_sum data (S n)
           + (ushort (plain_sum (tl data) (S n)) - uchar (hd x00 data) * len))
    with (weighted_sum data (S n) - uchar (hd x00 data) * len
          + ushort (plain_sum (tl data) (S n))) by lia.
  rewrite ushort_add_r. f_equal. rewrite weighted_sum_tl. lia.
Qed.

Lemma advance_succ buf p : 0 <= p -> advance buf (p + 1) = tl (advance buf p).
Proof.
  intros Hp. unfold advance.
  replace (Z.to_nat (p + 1)) with (S (Z.to_nat p)) by lia.
  generalize (Z.to_nat p) as n. clear.
  intros n. revert buf. induction n as [|n IH]; intros [|c buf];
    try reflexivity.
  change (skipn (S (S n)) (c :: buf)) with (skipn (S n) buf).
  change (skipn (S n) (c :: buf)) with (skipn n buf).
  apply IH.
Qed.

Lemma byte_at_advance buf p k :
  0 <= p -> 0 <= k -> byte_at buf (p + k) = nth (Z.to_nat k) (advance buf p) x00.
Proof.
  intros Hp Hk. unfold byte_at, zget, advance.
  destruct (Z.ltb_spec (p + k) 0); [lia|].
  replace (Z.to_nat (p + k)) with (Z.to_nat p + Z.to_nat k)%nat by lia.
  generalize (Z.to_nat p) as n, (Z.to_nat k) as m. clear.
  intros n. revert buf. induction n as [|n IH]; intros buf m.
  - reflexivity.
  - destruct buf as [|c buf]; cbn [skipn Nat.add nth].
    + destruct m; reflexivity.
    + apply IH.
Qed.

Lemma byte_at_hd buf p : 0 <= p -> byte_at buf p = hd x00 (advance buf p).
Proof.
  intros Hp. replace p with (p + 0) at 1 by lia.
  rewrite byte_at_advance by lia. destruct (advance buf p); reflexivity.
Qed.

(** One slide of the scanner's window: [UPDATE_RSUM] applied to the fresh
    checksum at [p] is the fresh checksum at [p + 1]. *)
Lemma UPDATE_RSUM_fresh buf p bs bshift :
  0 <= p -> 0 <= bshift -> bs = 2 ^ bshift ->
  UPDATE_RSUM (calc_rsum_block (advance buf p) bs)
    (byte_at buf p) (byte_at buf (p + bs)) bshift
  = calc_rsum_block (advance buf (p + 1)) bs.
Proof.
  intros Hp Hs Hbs.
  assert (0 < bs) by (subst; apply Z.pow_pos_nonneg; lia).
  rewrite byte_at_hd, byte_at_advance, advance_succ by lia.
  apply UPDATE_RSUM_tl; assumption.
Qed.

Lemma slide_from_fresh buf bs bshift k : forall p,
  0 <= p -> 0 <= bshift -> bs = 2 ^ bshift ->
  slide_from buf bs bshift p k (calc_rsum_block (advance buf p) bs)
  = calc_rsum_block (advance buf (p + Z.of_nat k)) bs.
Proof.
  induction k as [|k IH]; intros p Hp Hs Hbs.
  - cbn [slide_from]. rewrite Z.add_0_r. reflexivity.
  - cbn [slide_from]. rewrite UPDATE_RSUM_fresh by assumption.
    rewrite IH by lia. f_equal. f_equal. lia.
Qed.

Lemma block_shift_of_pow2 s : 0 <= s -> block_shift_of (2 ^ s) = s.
Proof.
  intros Hs. unfold block_shift_of.
  destruct (Z.eqb_spec (2 ^ s) 1024) as [E|_].
  - change 1024 with (2 ^ 10) in E. apply Z.pow_inj_r in E; lia.
  - destruct (Z.eqb_spec (2 ^ s) 2048) as [E|_].
    + change 2048 with (2 ^ 11) in E. apply Z.pow_inj_r in E; lia.
    + apply Z.log2_pow2. assumption.
Qed.

(** C5, as stated, fails for a block size that is not a power of two:
    with [block_size = 3] the shift is 1 (it is 2 if rounded up), and one
    slide over the buffer 1,0,0,0 does not give the checksum of the next
    window, for either shift. *)
Lemma rolling_slide_not_fresh_block_size_3 :
  let buf := [x01; x00; x00; x00] in
  block_shift_of 3 = 1
  /\ UPDATE_RSUM (calc_rsum_block (advance buf 0) 3)
       (byte_at buf 0) (byte_at buf (0 + 3)) (block_shift_of 3)
     <> calc_rsum_block (advance buf (0 + 1)) 3
  /\ UPDATE_RSUM (calc_rsum_block (advance buf 0) 3)
       (byte_at buf 0) (byte_at buf (0 + 3)) 2
     <> calc_rsum_block (advance buf (0 + 1)) 3.
Proof. repeat split; vm_compute; discriminate. Qed.

(** C5, amended: for a block size [2 ^ s] (whose shift is [s]), the
    checksum of the window at [p] updated by one slide is the checksum of
    the window at [p + 1], and after [k] slides it is the checksum of the
    window at [p + k]. *)
Theorem rolling_checksum_round_trip buf p s k :
  0 <= p -> 0 <= s ->
  let bs := 2 ^ s in
  let bshift := block_shift_of bs in
  UPDATE_RSUM (calc_rsum_block (advance buf p) bs)
    (byte_at buf p) (byte_at buf (p + bs)) bshift
  = calc_rsum_block (advance buf (p + 1)) bs
  /\ slide_from buf bs bshift p k (calc_rsum_block (advance buf p) bs)
     = calc_rsum_block (advance buf (p + Z.of_nat k)) bs.
Proof.
  intros Hp Hs bs bshift. unfold bshift, bs.
  rewrite block_shift_of_pow2 by assumption. split.
  - apply UPDATE_RSUM_fresh; auto.
  - apply slide_from_fresh; auto.
Qed.

Lemma rolling_checksum_round_trip_witness :
  let buf := [x01; xff; x10; x80; xfe; x07; x00; x33; x41] in
  UPDATE_RSUM (calc_rsum_block (advance buf 1) (2 ^ 2))
    (byte_at buf 1) (byte_at buf (1 + 2 ^ 2)) (block_shift_of (2 ^ 2))
  = calc_rsum_block (advance buf (1 + 1)) (2 ^ 2)
  /\ slide_from buf (2 ^ 2) (block_shift_of (2 ^ 2)) 1 3
       (calc_rsum_block (advance buf 1) (2 ^ 2))
     = calc_rsum_block (advance buf (1 + Z.of_nat 3)) (2 ^ 2).
Proof.
  intros buf. apply (rolling_checksum_round_trip buf 1 2 3); lia.
Defined.

(** ** The known ranges *)

Lemma ranges_ascending k : ranges_inv k ->
  forall i j, 0 <= i -> i < j -> j < _nRanges k -> range_hi k i + 1 < range_lo k j.
Proof.
  intros (Hn & Hlen & Hne & Hgap) i j Hi Hij Hj.
  assert (H : forall d : nat, forall j, j = i + 1 + Z.of_nat d -> j < _nRanges k ->
                range_hi k i + 1 < range_lo k j).
  { induction d as [|d IH]; intros j' -> Hj'.
    - rewrite Z.add_0_r. apply Hgap. lia.
    - specialize (IH (i + 1 + Z.of_nat d) eq_refl ltac:(lia)).
      specialize (Hne (i + 1 + Z.of_nat d) ltac:(lia)).
      specialize (Hgap (i + 1 + Z.of_nat d) ltac:(lia)).
      replace (i + 1 + Z.of_nat (S d)) with (i + 1 + Z.of_nat d + 1) by lia.
      lia. }
  apply (H (Z.to_nat (j - i - 1))); lia.
Qed.

Lemma bisect_eq p x mn mx :
  bisect p x mn mx =
  if Z_le_dec mn mx then
    let r := Z.quot (mx + mn) 2 in
    if x >? zget 0 p (2 * r + 1) then bisect p x (r + 1) mx
    else if x <? zget 0 p (2 * r) then bisect p x mn (r - 1)
    else -1
  else mn.
Proof.
  simp bisect. destruct (Z_le_dec mn mx); reflexivity.
Qed.

(** What the bisection returns on a set of ranges. *)
Lemma bisect_spec k x : ranges_inv k ->
  forall (d : nat) mn mx,
  Z.of_nat d = mx - mn + 1 -> 0 <= mn -> mx < _nRanges k ->
  (forall i, 0 <= i < mn -> range_hi k i < x) ->
  (forall i, mx < i < _nRanges k -> x < range_lo k i) ->
  let r := bisect (_pRanges k) x mn mx in
  (r = -1 /\ in_ranges k x)
  \/ (mn <= r <= mx + 1
      /\ (forall i, 0 <= i < r -> range_hi k i < x)
      /\ (forall i, r <= i < _nRanges k -> x < range_lo k i)).
Proof.
  intros Hinv d. induction d as [d IH] using lt_wf_ind.
  intros mn mx Hd Hmn Hmx Hbelow Habove. cbv zeta.
  rewrite bisect_eq. destruct (Z_le_dec mn mx) as [Hle|Hle].
  - set (r := Z.quot (mx + mn) 2) in *.
    assert (Hr : mn <= r <= mx).
    { unfold r. rewrite Z.quot_div_nonneg by lia.
      pose proof (Z.div_mod (mx + mn) 2 ltac:(lia)).
      pose proof (Z.mod_pos_bound (mx + mn) 2 ltac:(lia)). lia. }
    cbv zeta.
    fold (range_hi k r). fold (range_lo k r).
    pose proof (proj1 (proj2 (proj2 Hinv))) as Hne.
    destruct (Z.gtb_spec x (range_hi k r)) as [Hgt|Hgt].
    + assert (Hb' : forall i, 0 <= i < r + 1 -> range_hi k i < x).
      { intros i Hi. destruct (Z.eq_dec i r) as [->|]; [lia|].
        pose proof (ranges_ascending k Hinv i r).
        specialize (Hne r ltac:(lia)). lia. }
      destruct (IH (Z.to_nat (mx - (r + 1) + 1)) ltac:(lia) (r + 1) mx
                  ltac:(lia) ltac:(lia) ltac:(lia) Hb' Habove)
        as [?|(? & ? & ?)]; [left; assumption|].
      right. repeat split; auto; lia.
    + destruct (Z.ltb_spec x (range_lo k r)) as [Hlt|Hlt].
      * assert (Ha' : forall i, r - 1 < i < _nRanges k -> x < range_lo k i).
        { intros i Hi. destruct (Z.eq_dec i r) as [->|]; [lia|].
          pose proof (ranges_ascending k Hinv r i).
          specialize (Hne r ltac:(lia)). lia. }
        destruct (IH (Z.to_nat (r - 1 - mn + 1)) ltac:(lia) mn (r - 1)
                    ltac:(lia) ltac:(lia) ltac:(lia) Hbelow Ha')
          as [?|(? & ? & ?)]; [left; assumption|].
        right. repeat split; auto; lia.
      * left. split; [reflexivity|]. exists r. split; lia.
  - right. repeat split; try lia; auto.
    intros i Hi. apply Habove. lia.
Qed.

Lemma rangeBeforeBlock_spec k x : ranges_inv k ->
  let r := rangeBeforeBlock k x in
  (r = -1 /\ in_ranges k x)
  \/ (0 <= r <= _nRanges k
      /\ (forall i, 0 <= i < r -> range_hi k i < x)
      /\ (forall i, r <= i < _nRanges k -> x < range_lo k i)).
Proof.
  intros Hinv. pose proof (proj1 Hinv) as Hn.
  destruct (bisect_spec k x Hinv (Z.to_nat (_nRanges k)) 0 (_nRanges k - 1))
    as [?|(? & ? & ?)]; try lia; auto.
  right. unfold rangeBeforeBlock. repeat split; auto; lia.
Qed.

(** A block outside every range is not reported as inside one. *)
Lemma rangeBeforeBlock_outside k x : ranges_inv k ->
  0 <= rangeBeforeBlock k x -> ~ in_ranges k x.
Proof.
  intros Hinv Hr (i & Hi & Hlo & Hhi).
  destruct (rangeBeforeBlock_spec k x Hinv) as [[? _]|(Hb & Hbelow & Habove)];
    [lia|].
  destruct (Z_lt_dec i (rangeBeforeBlock k x)).
  - specialize (Hbelow i ltac:(lia)). lia.
  - specialize (Habove i ltac:(lia)). lia.
Qed.

(** Case analysis on the comparisons of a goal, for [lia]. *)
Ltac split_if :=
  match goal with
  | |- context [if ?c then _ else _] =>
      match c with
      | (?u =? ?v) => destruct (Z.eqb_spec u v)
      | (?u <? ?v) => destruct (Z.ltb_spec u v)
      | (?u <=? ?v) => destruct (Z.leb_spec u v)
      | _ => let E := fresh "E" in destruct c eqn:E
      end
  end.

Ltac bool_to_Z :=
  repeat match goal with
  | H : _ && _ = true |- _ => apply andb_true_iff in H; destruct H
  | H : _ && _ = false |- _ => apply andb_false_iff in H; destruct H
  | H : negb _ = true |- _ => apply negb_true_iff in H
  | H : negb _ = false |- _ => apply negb_false_iff in H
  | H : (_ =? _) = true |- _ => apply Z.eqb_eq in H
  | H : (_ =? _) = false |- _ => apply Z.eqb_neq in H
  | H : (_ <? _) = true |- _ => apply Z.ltb_lt in H
  | H : (_ <? _) = false |- _ => apply Z.ltb_ge in H
  | H : (_ <=? _) = true |- _ => apply Z.leb_le in H
  | H : (_ <=? _) = false |- _ => apply Z.leb_gt in H
  | H : (_ >? _) = true |- _ => rewrite Z.gtb_ltb in H
  | H : (_ >? _) = false |- _ => rewrite Z.gtb_ltb in H
  end.

Section AddToRanges.

Variable k : known_ranges.
Variable x : Z.
Hypothesis Hinv : ranges_inv k.

Let n := _nRanges k.
Let r := rangeBeforeBlock k x.

Hypothesis Hr : 0 <= r <= n.
Hypothesis Hbelow : forall i, 0 <= i < r -> range_hi k i < x.
Hypothesis Habove : forall i, r <= i < n -> x < range_lo k i.

Let Hn : 0 <= n := proj1 Hinv.
Let Hlen : 2 * n <= Z.of_nat (length (_pRanges k)) := proj1 (proj2 Hinv).
Let Hne : forall i, 0 <= i < n -> range_lo k i <= range_hi k i :=
  proj1 (proj2 (proj2 Hinv)).
Let Hgap : forall i, 0 <= i < n - 1 -> range_hi k i + 1 < range_lo k (i + 1) :=
  proj2 (proj2 (proj2 Hinv)).

(** The new block extends the range below it. *)
Lemma extend_below_ok :
  0 < r -> range_hi k (r - 1) = x - 1 ->
  (r < n -> range_lo k r <> x + 1) ->
  let k' := mk_ranges (zset 0 (_pRanges k) (2 * (r - 1) + 1) x) n in
  ranges_inv k' /\ forall y, in_ranges k' y <-> in_ranges k y \/ y = x.
Proof.
  intros Hr0 Hhi Hlo k'.
  assert (Elo : forall i, range_lo k' i = range_lo k i).
  { intros i. unfold range_lo, k'. cbn [_pRanges].
    rewrite zget_zset by lia. split_if; [lia|reflexivity]. }
  assert (Ehi : forall i, range_hi k' i = if i =? r - 1 then x else range_hi k i).
  { intros i. unfold range_hi, k'. cbn [_pRanges].
    rewrite zget_zset by lia. repeat split_if; try lia; reflexivity. }
  split.
  - unfold ranges_inv. cbn [_nRanges _pRanges k']. rewrite zset_length.
    repeat split; try assumption.
    + intros i Hi. rewrite Elo, Ehi. split_if.
      * subst i. specialize (Hne (r - 1) ltac:(lia)). lia.
      * apply Hne; lia.
    + intros i Hi. rewrite Elo, Ehi. split_if.
      * subst i. replace (r - 1 + 1) with r by lia.
        specialize (Habove r ltac:(lia)). specialize (Hlo ltac:(lia)). lia.
      * apply Hgap; lia.
  - intros y. unfold in_ranges. cbn [_nRanges k']. fold n. split.
    + intros (i & Hi & Hy). rewrite Elo, Ehi in Hy.
      destruct (Z.eqb_spec i (r - 1)) as [->|].
      * destruct (Z.eq_dec y x); [right; assumption|].
        left. exists (r - 1). split; [lia|]. lia.
      * left. exists i. split; [lia|]. lia.
    + intros [(i & Hi & Hy)| ->].
      * exists i. split; [lia|]. rewrite Elo, Ehi. split_if; [|lia].
        subst i. lia.
      * exists (r - 1). split; [lia|]. rewrite Elo, Ehi.
        destruct (Z.eqb_spec (r - 1) (r - 1)); [|lia].
        specialize (Hne (r - 1) ltac:(lia)). lia.
Qed.

(** The new block extends the range above it. *)
Lemma extend_above_ok :
  r < n -> range_lo k r = x + 1 ->
  (0 < r -> range_hi k (r - 1) <> x - 1) ->
  let k' := mk_ranges (zset 0 (_pRanges k) (2 * r) x) n in
  ranges_inv k' /\ forall y, in_ranges k' y <-> in_ranges k y \/ y = x.
Proof.
  intros Hrn Hlo Hhi k'.
  assert (Elo : forall i, range_lo k' i = if i =? r then x else range_lo k i).
  { intros i. unfold range_lo, k'. cbn [_pRanges].
    rewrite zget_zset by lia. repeat split_if; try lia; reflexivity. }
  assert (Ehi : forall i, range_hi k' i = range_hi k i).
  { intros i. unfold range_hi, k'. cbn [_pRanges].
    rewrite zget_zset by lia. split_if; [lia|reflexivity]. }
  split.
  - unfold ranges_inv. cbn [_nRanges _pRanges k']. rewrite zset_length.
    repeat split; try assumption.
    + intros i Hi. rewrite Elo, Ehi. split_if.
      * subst i. specialize (Hne r ltac:(lia)). lia.
      * apply Hne; lia.
    + intros i Hi. rewrite Elo, Ehi. split_if.
      * replace i with (r - 1) in * by lia.
        specialize (Hbelow (r - 1) ltac:(lia)). specialize (Hhi ltac:(lia)).
        lia.
      * apply Hgap; lia.
  - intros y. unfold in_ranges. cbn [_nRanges k']. fold n. split.
    + intros (i & Hi & Hy). rewrite Elo, Ehi in Hy.
      destruct (Z.eqb_spec i r) as [->|].
      * destruct (Z.eq_dec y x); [right; assumption|].
        left. exists r. split; [lia|]. lia.
      * left. exists i. split; [lia|]. lia.
    + intros [(i & Hi & Hy)| ->].
      * exists i. split; [lia|]. rewrite Elo, Ehi. split_if; [|lia].
        subst i. lia.
      * exists r. split; [lia|]. rewrite Elo, Ehi.
        destruct (Z.eqb_spec r r); [|lia].
        specialize (Hne r ltac:(lia)). lia.
Qed.

(** The new block fills the hole between two ranges, which are merged. *)
Lemma merge_ok :
  0 < r -> r < n -> range_hi k (r - 1) = x - 1 -> range_lo k r = x + 1 ->
  let p1 := zset 0 (_pRanges k) (2 * (r - 1) + 1)
              (zget 0 (_pRanges k) (2 * r + 1)) in
  let p2 := memmove 0 p1 (2 * r) (2 * r + 2) ((n - r - 1) * 2) in
  let k' := mk_ranges p2 (n - 1) in
  ranges_inv k' /\ forall y, in_ranges k' y <-> in_ranges k y \/ y = x.
Proof.
  intros Hr0 Hrn Hhi Hlo p1 p2 k'.
  assert (Elo : forall i, 0 <= i < n - 1 ->
            range_lo k' i = if i <? r then range_lo k i else range_lo k (i + 1)).
  { intros i Hi. unfold range_lo, k', p2, p1. cbn [_pRanges].
    rewrite zget_memmove by (rewrite zset_length; lia).
    rewrite !zget_zset by lia.
    repeat split_if; bool_to_Z; try lia; f_equal; lia. }
  assert (Ehi : forall i, 0 <= i < n - 1 ->
            range_hi k' i = if i <? r - 1 then range_hi k i
                            else range_hi k (i + 1)).
  { intros i Hi. unfold range_hi, k', p2, p1. cbn [_pRanges].
    rewrite zget_memmove by (rewrite zset_length; lia).
    rewrite !zget_zset by lia.
    repeat split_if; bool_to_Z; try lia; f_equal; lia. }
  split.
  - unfold ranges_inv. cbn [_nRanges _pRanges k'].
    unfold p2, p1. rewrite memmove_length, zset_length.
    repeat split; try lia.
    + intros i Hi. rewrite Elo, Ehi by lia. repeat split_if; try lia.
      * apply Hne; lia.
      * pose proof (Hne (r - 1) ltac:(lia)). pose proof (Hne r ltac:(lia)).
        replace i with (r - 1) by lia. replace (r - 1 + 1) with r by lia. lia.
      * apply Hne; lia.
    + intros i Hi. rewrite Elo, Ehi by lia. repeat split_if; try lia.
      * apply Hgap; lia.
      * apply Hgap; lia.
  - intros y. unfold in_ranges. cbn [_nRanges k']. fold n. split.
    + intros (i & Hi & Hy). rewrite Elo, Ehi in Hy by lia.
      destruct (Z.ltb_spec i r); destruct (Z.ltb_spec i (r - 1)); try lia.
      * left. exists i. split; lia.
      * replace i with (r - 1) in * by lia. replace (r - 1 + 1) with r in * by lia.
        destruct (Z.eq_dec y x); [right; assumption|].
        left. destruct (Z_lt_dec y x).
        -- exists (r - 1). split; lia.
        -- exists r. split; lia.
      * left. exists (i + 1). split; lia.
    + pose proof (Hne (r - 1) ltac:(lia)). pose proof (Hne r ltac:(lia)).
      assert (Hmid : range_lo k' (r - 1) = range_lo k (r - 1)
                     /\ range_hi k' (r - 1) = range_hi k r).
      { rewrite Elo, Ehi by lia.
        destruct (Z.ltb_spec (r - 1) r); destruct (Z.ltb_spec (r - 1) (r - 1));
          try lia.
        replace (r - 1 + 1) with r by lia. auto. }
      destruct Hmid as [Hm1 Hm2].
      intros [(i & Hi & Hy)| ->].
      * destruct (Z_lt_dec i (r - 1)); [|destruct (Z_le_dec i r)].
        -- exists i. split; [lia|]. rewrite Elo, Ehi by lia.
           destruct (Z.ltb_spec i r); destruct (Z.ltb_spec i (r - 1)); lia.
        -- exists (r - 1). split; [lia|]. rewrite Hm1, Hm2.
           assert (i = r - 1 \/ i = r) as [-> | ->] by lia; lia.
        -- exists (i - 1). split; [lia|]. rewrite Elo, Ehi by lia.
           destruct (Z.ltb_spec (i - 1) r);
             destruct (Z.ltb_spec (i - 1) (r - 1)); try lia.
           replace (i - 1 + 1) with i by lia. lia.
      * exists (r - 1). split; [lia|]. rewrite Hm1, Hm2. lia.
Qed.

(** The new block becomes a range of its own. *)
Lemma insert_ok :
  (0 < r -> range_hi k (r - 1) <> x - 1) ->
  (r < n -> range_lo k r <> x + 1) ->
  let p1 := realloc 0 (_pRanges k) ((n + 1) * 2) in
  let p2 := memmove 0 p1 (2 * r + 2) (2 * r) ((n - r) * 2) in
  let p3 := zset 0 (zset 0 p2 (2 * r) x) (2 * r + 1) x in
  let k' := mk_ranges p3 (n + 1) in
  ranges_inv k' /\ forall y, in_ranges k' y <-> in_ranges k y \/ y = x.
Proof.
  intros Hhi Hlo p1 p2 p3 k'.
  assert (L1 : length p1 = Z.to_nat ((n + 1) * 2)) by apply realloc_length.
  assert (L2 : length p2 = Z.to_nat ((n + 1) * 2))
    by (unfold p2; rewrite memmove_length; exact L1).
  assert (Elo : forall i, 0 <= i < n + 1 ->
            range_lo k' i = if i =? r then x
                            else if i <? r then range_lo k i
                                 else range_lo k (i - 1)).
  { intros i Hi. unfold range_lo, k', p3. cbn [_pRanges].
    rewrite !zget_zset by (rewrite ?zset_length, ?L2; lia).
    unfold p2. rewrite zget_memmove by (rewrite L1; lia).
    repeat split_if; bool_to_Z; try lia;
      unfold p1; rewrite zget_realloc by lia; f_equal; lia. }
  assert (Ehi : forall i, 0 <= i < n + 1 ->
            range_hi k' i = if i =? r then x
                            else if i <? r then range_hi k i
                                 else range_hi k (i - 1)).
  { intros i Hi. unfold range_hi, k', p3. cbn [_pRanges].
    rewrite !zget_zset by (rewrite ?zset_length, ?L2; lia).
    unfold p2. rewrite zget_memmove by (rewrite L1; lia).
    repeat split_if; bool_to_Z; try lia;
      unfold p1; rewrite zget_realloc by lia; f_equal; lia. }
  split.
  - unfold ranges_inv. cbn [_nRanges _pRanges k'].
    unfold p3. rewrite !zset_length, L2.
    repeat split; try lia.
    + intros i Hi. rewrite Elo, Ehi by lia. repeat split_if; try lia.
      * apply Hne; lia.
      * apply Hne; lia.
    + intros i Hi. rewrite Elo, Ehi by lia. repeat split_if; try lia.
      * replace (i + 1 - 1) with r by lia.
        specialize (Habove r ltac:(lia)). specialize (Hlo ltac:(lia)). lia.
      * replace i with (r - 1) in * by lia.
        specialize (Hbelow (r - 1) ltac:(lia)). specialize (Hhi ltac:(lia)).
        lia.
      * apply Hgap; lia.
      * replace (i + 1 - 1) with (i - 1 + 1) by lia. apply Hgap; lia.
  - intros y. unfold in_ranges. cbn [_nRanges k']. fold n. split.
    + intros (i & Hi & Hy). rewrite Elo, Ehi in Hy by lia.
      destruct (Z.eqb_spec i r); [right; lia|].
      destruct (Z.ltb_spec i r); left.
      * exists i. split; lia.
      * exists (i - 1). split; lia.
    + intros [(i & Hi & Hy)| ->].
      * destruct (Z_lt_dec i r).
        -- exists i. split; [lia|]. rewrite Elo, Ehi by lia.
           destruct (Z.eqb_spec i r); destruct (Z.ltb_spec i r); lia.
        -- exists (i + 1). split; [lia|]. rewrite Elo, Ehi by lia.
           destruct (Z.eqb_spec (i + 1) r); destruct (Z.ltb_spec (i + 1) r);
             try lia.
           replace (i + 1 - 1) with i by lia. lia.
      * exists r. split; [lia|]. rewrite Elo, Ehi by lia.
        destruct (Z.eqb_spec r r); lia.
Qed.

End AddToRanges.

(** [addToRanges] keeps the array a set of ranges and adds exactly [x]. *)
Lemma addToRanges_spec k x : ranges_inv k ->
  ranges_inv (addToRanges k x)
  /\ (forall y, in_ranges (addToRanges k x) y <-> in_ranges k y \/ y = x)
  /\ (in_ranges k x -> addToRanges k x = k).
Proof.
  intros Hinv.
  destruct (rangeBeforeBlock_spec k x Hinv) as [[Hr Hin]|(Hr & Hbelow & Habove)].
  - unfold addToRanges. rewrite Hr. cbn [Z.eqb Pos.eqb].
    split; [assumption|]. split; [|reflexivity].
    intros y. split; [auto|]. intros [?| ->]; assumption.
  - assert (Hout : ~ in_ranges k x)
      by (apply rangeBeforeBlock_outside; [assumption|lia]).
    assert (Hgoal : ranges_inv (addToRanges k x)
              /\ forall y, in_ranges (addToRanges k x) y <-> in_ranges k y \/ y = x).
    { unfold addToRanges.
      destruct (Z.eqb_spec (rangeBeforeBlock k x) (-1)); [lia|].
      fold (range_hi k (rangeBeforeBlock k x - 1)).
      fold (range_lo k (rangeBeforeBlock k x)).
      cbv zeta.
      repeat split_if; bool_to_Z; try (exfalso; lia);
        first [ apply merge_ok | apply extend_below_ok
              | apply extend_above_ok | apply insert_ok ];
        try assumption; try (intros; lia). }
    destruct Hgoal as [G1 G2]. split; [exact G1|]. split; [exact G2|].
    intros Hx. destruct (Hout Hx).
Qed.

(** C6: an insertion keeps the array a set of sorted, disjoint,
    non-adjacent ranges, whose members are the old members and [x]; when
    [x] is already covered nothing changes. *)
Theorem addToRanges_preserves_invariant k x :
  ranges_inv k ->
  ranges_inv (addToRanges k x)
  /\ (forall y, in_ranges (addToRanges k x) y <-> in_ranges k y \/ y = x)
  /\ (in_ranges k x -> addToRanges k x = k).
Proof. apply addToRanges_spec. Qed.

Lemma addToRanges_preserves_invariant_witness :
  let k := mk_ranges [0; 1; 3; 5; 9; 9] 3 in
  ranges_inv k
  /\ ranges_inv (addToRanges k 2)
  /\ (forall y, in_ranges (addToRanges k 2) y <-> in_ranges k y \/ y = 2)
  /\ (in_ranges k 2 -> addToRanges k 2 = k).
Proof.
  intros k.
  assert (Hk : ranges_inv k).
  { unfold ranges_inv, k. cbn [_nRanges _pRanges length].
    split; [lia|]. split; [lia|]. split; intros i Hi.
    - assert (Hc : i = 0 \/ i = 1 \/ i = 2) by lia.
      destruct Hc as [-> | [-> | ->]]; vm_compute; discriminate.
    - assert (Hc : i = 0 \/ i = 1) by lia.
      destruct Hc as [-> | ->]; vm_compute; reflexivity. }
  split; [exact Hk|].
  exact (addToRanges_preserves_invariant k 2 Hk).
Defined.

(** ** The size of the rsum hash *)

Lemma hash_size_loop_eq nBlocks i :
  hash_size_loop nBlocks i =
  if (Z.shiftl 2 (i - 1) >? nBlocks) && (i >? 4)
  then hash_size_loop nBlocks (i - 1) else i.
Proof.
  rewrite hash_size_loop_equation_1 at 1.
  destruct (Z_gt_dec i 4) as [E|E]; cbn.
  - destruct (Z.gtb_spec i 4); [|lia]. rewrite andb_true_r. reflexivity.
  - destruct (Z.gtb_spec i 4); [lia|]. rewrite andb_false_r. reflexivity.
Qed.

Lemma shiftl_2 i : 1 <= i -> Z.shiftl 2 (i - 1) = 2 ^ i.
Proof.
  intros Hi. rewrite Z.shiftl_mul_pow2 by lia.
  replace i with (1 + (i - 1)) at 2 by lia.
  rewrite Z.pow_add_r by lia. reflexivity.
Qed.

Lemma hash_size_loop_spec nBlocks (d : nat) : forall i,
  i = 4 + Z.of_nat d ->
  let r := hash_size_loop nBlocks i in
  4 <= r <= i
  /\ (4 < r -> 2 ^ r <= nBlocks)
  /\ (forall i', r < i' <= i -> nBlocks < 2 ^ i').
Proof.
  induction d as [|d IH]; intros i Hi; cbv zeta; rewrite hash_size_loop_eq.
  - destruct (Z.gtb_spec i 4); [lia|]. rewrite andb_false_r.
    repeat split; try lia.
  - rewrite shiftl_2 by lia.
    destruct (Z.gtb_spec (2 ^ i) nBlocks) as [Hgt|Hle]; cbn [andb].
    + destruct (Z.gtb_spec i 4); [|lia].
      destruct (IH (i - 1) ltac:(lia)) as (Hr & Hlow & Hup).
      repeat split; try lia. intros i' Hi'.
      destruct (Z.eq_dec i' i) as [->|]; [lia|]. apply Hup. lia.
    + repeat split; try lia.
Qed.

Lemma buildHash_fill_frame j id :
  let j' := buildHash_fill j id in
  _pHashMask j' = _pHashMask j
  /\ _pBitHashMask j' = _pBitHashMask j
  /\ length (rsumHash j') = length (rsumHash j)
  /\ length (bitHash j') = length (bitHash j).
Proof.
  revert j. induction id as [|id IH]; intros j; cbv zeta.
  - auto.
  - cbn [buildHash_fill].
    match goal with |- context [buildHash_fill ?j0 id] =>
      destruct (IH j0) as (H1 & H2 & H3 & H4) end.
    rewrite H1, H2, H3, H4.
    unfold rsumHash, bitHash. cbn -[zset zget]. rewrite !zset_length. auto.
Qed.

(** C8, as stated, fails: for one block the loop stops at 4, while 16 is in
    [4, 16] and [2 ^ (16 + 1) >= 1]; the exponent chosen is not the largest
    with [2 ^ (i + 1) >= blocks]. *)
Lemma hash_exponent_not_largest_for_one_block :
  hash_size_loop 1 16 = 4
  /\ exists i', 4 <= i' <= 16 /\ 2 ^ (i' + 1) >= 1 /\ hash_size_loop 1 16 < i'.
Proof.
  split; [reflexivity|]. exists 16. repeat split; vm_compute; congruence.
Qed.

(** C8, amended: the exponent [i] left by the loop that starts at 16 and
    decrements while [(2 << (i - 1)) > blocks] and [i > 4] lies in [4, 16],
    has [2 ^ i <= blocks] unless it is 4, and every larger exponent up to
    16 has [2 ^ i' > blocks]: it is the largest exponent of [4, 16] with
    [2 ^ i <= blocks], or 4 when there is none.  The masks are
    [(2 << i) - 1] and [(2 << (i + 3)) - 1]; the tables are allocated with
    [hash_mask + 1] chain heads and [bithash_mask + 1] cells of 8 bits. *)
Theorem buildHash_sizes j :
  let i := hash_size_loop (_nBlocks j) 16 in
  let j' := snd (buildHash j) in
  (4 <= i <= 16
   /\ (4 < i -> 2 ^ i <= _nBlocks j)
   /\ (forall i', i < i' <= 16 -> _nBlocks j < 2 ^ i'))
  /\ _pHashMask j' = Z.shiftl 2 i - 1
  /\ _pBitHashMask j' = Z.shiftl 2 (i + 3) - 1
  /\ Z.of_nat (length (rsumHash j')) = _pHashMask j' + 1
  /\ Z.of_nat (length (bitHash j')) = _pBitHashMask j' + 1.
Proof.
  cbv zeta.
  pose proof (hash_size_loop_spec (_nBlocks j) 12 16 eq_refl) as Hi.
  cbv zeta in Hi. split; [exact Hi|].
  destruct Hi as (Hi & _).
  unfold buildHash. cbn [snd].
  match goal with |- context [buildHash_fill ?j0 ?n] =>
    destruct (buildHash_fill_frame j0 n) as (H1 & H2 & H3 & H4) end.
  rewrite H1, H2, H3, H4.
  unfold rsumHash, bitHash. cbn -[Z.shiftl Z.to_nat]. rewrite !repeat_length.
  set (i := hash_size_loop (_nBlocks j) 16) in *.
  unfold BITHASHBITS.
  assert (0 < Z.shiftl 2 i) by (rewrite Z.shiftl_mul_pow2 by lia; lia).
  assert (0 < Z.shiftl 2 (i + 3)) by (rewrite Z.shiftl_mul_pow2 by lia; lia).
  repeat split; lia.
Qed.

(** ** What the operations on the hash leave unchanged *)

Lemma zero_entry_next : Entry.next zero_entry = None.
Proof. reflexivity. Qed.

Lemma entry_outside j e :
  e < 0 \/ Z.of_nat (length (blockHashes j)) <= e -> entry j e = zero_entry.
Proof. intros H. unfold entry. apply zget_outside. assumption. Qed.

Lemma blockHashes_set_entry j e v :
  blockHashes (set_entry j e v) = zset zero_entry (blockHashes j) e v.
Proof. reflexivity. Qed.

Lemma entry_set_entry j e v e' :
  entry (set_entry j e v) e' =
  if (e' =? e) && (0 <=? e) && (e <? Z.of_nat (length (blockHashes j)))
  then v else entry j e'.
Proof. unfold entry. rewrite blockHashes_set_entry. apply zget_zset_any. Qed.

Lemma entry_set_entry_next j e v e' :
  entry (set_entry_next j e v) e' =
  if (e' =? e) && (0 <=? e) && (e <? Z.of_nat (length (blockHashes j)))
  then Entry.mk v (Entry.r (entry j e)) (Entry.checksum (entry j e))
  else entry j e'.
Proof. unfold set_entry_next. apply entry_set_entry. Qed.

Lemma same_checksums_refl j : same_checksums j j.
Proof. split; auto. Qed.

Lemma same_checksums_trans j1 j2 j3 :
  same_checksums j1 j2 -> same_checksums j2 j3 -> same_checksums j1 j3.
Proof.
  intros [L1 E1] [L2 E2]. split; [congruence|].
  intros e. destruct (E1 e), (E2 e). split; congruence.
Qed.

Lemma same_checksums_set_entry_next j e v :
  same_checksums j (set_entry_next j e v).
Proof.
  split.
  - unfold set_entry_next. rewrite blockHashes_set_entry. apply zset_length.
  - intros e'. rewrite entry_set_entry_next.
    destruct ((e' =? e) && (0 <=? e) && (e <? Z.of_nat (length (blockHashes j))))
      eqn:E; [|auto].
    apply andb_true_iff in E. destruct E as [E _].
    apply andb_true_iff in E. destruct E as [E _].
    apply Z.eqb_eq in E. subst e'. auto.
Qed.

Lemma only_links_changed_refl j : only_links_changed j j.
Proof. unfold only_links_changed. repeat split; auto. Qed.

Lemma only_links_changed_trans j1 j2 j3 :
  only_links_changed j1 j2 -> only_links_changed j2 j3 ->
  only_links_changed j1 j3.
Proof.
  unfold only_links_changed.
  intros (A1 & A2 & A3 & A4 & A5 & A6 & A7 & A8)
         (B1 & B2 & B3 & B4 & B5 & B6 & B7 & B8).
  repeat split; try congruence.
  - destruct A2, B2. congruence.
  - destruct A2 as [_ A2], B2 as [_ B2]. destruct (A2 e), (B2 e). congruence.
  - destruct A2 as [_ A2], B2 as [_ B2]. destruct (A2 e), (B2 e). congruence.
Qed.

Lemma only_links_changed_set_pRover j v : only_links_changed j (set_pRover j v).
Proof. unfold only_links_changed. repeat split; auto. Qed.

Lemma only_links_changed_store_link j p v :
  only_links_changed j (store_link j p v).
Proof.
  destruct p as [i|e]; cbn [store_link].
  - unfold only_links_changed. repeat split; auto.
  - unfold only_links_changed.
    split; [reflexivity|]. split; [apply same_checksums_set_entry_next|].
    repeat split; reflexivity.
Qed.

Lemma removeBlockFromHash_loop_frame fuel : forall j t p j',
  removeBlockFromHash_loop fuel j t p = Some j' -> only_links_changed j j'.
Proof.
  induction fuel as [|fuel IH]; intros j t p j' H; cbn [removeBlockFromHash_loop] in H.
  - discriminate.
  - destruct (load_link j p) as [e|].
    + destruct (e =? t).
      * injection H as <-.
        eapply only_links_changed_trans; [|apply only_links_changed_store_link].
        destruct (option_Z_eqb (_pRover j) (Some t)).
        -- apply only_links_changed_set_pRover.
        -- apply only_links_changed_refl.
      * eapply IH; eassumption.
    + injection H as <-. apply only_links_changed_refl.
Qed.

(** [removeBlockFromHash] returns only with the rsum hash allocated, and
    is then its loop from the head of the bucket of the block. *)
Lemma removeBlockFromHash_returns fuel j id j' :
  removeBlockFromHash fuel j id = Some j' ->
  is_some (_pRsumHash j) = true
  /\ removeBlockFromHash_loop fuel j id
       (Bucket (Z.land (calcRHash j id) (_pHashMask j))) = Some j'.
Proof.
  unfold removeBlockFromHash. destruct (is_some (_pRsumHash j)); [auto|discriminate].
Qed.

Lemma removeBlockFromHash_built fuel j id :
  is_some (_pRsumHash j) = true ->
  removeBlockFromHash fuel j id
  = removeBlockFromHash_loop fuel j id
      (Bucket (Z.land (calcRHash j id) (_pHashMask j))).
Proof. intros H. unfold removeBlockFromHash. rewrite H. reflexivity. Qed.

Lemma removeBlockFromHash_frame fuel j id j' :
  removeBlockFromHash fuel j id = Some j' -> only_links_changed j j'.
Proof.
  intros H. apply removeBlockFromHash_returns in H. destruct H as [_ H].
  eapply removeBlockFromHash_loop_frame. exact H.
Qed.

(** The hashes stay allocated. *)
Lemma hashes_built_parts j :
  hashes_built j = true <->
  is_some (_pRsumHash j) = true /\ is_some (_pBitHash j) = true.
Proof. unfold hashes_built. apply andb_true_iff. Qed.

Lemma store_link_built j p v :
  is_some (_pRsumHash j) = true -> is_some (_pRsumHash (store_link j p v)) = true.
Proof. intros H. destruct p; [reflexivity|exact H]. Qed.

Lemma removeBlockFromHash_loop_rsum fuel : forall j t p j',
  removeBlockFromHash_loop fuel j t p = Some j' ->
  is_some (_pRsumHash j) = true -> is_some (_pRsumHash j') = true.
Proof.
  induction fuel as [|fuel IH]; intros j t p j' H Hr;
    cbn [removeBlockFromHash_loop] in H; [discriminate|].
  destruct (load_link j p) as [e|].
  - destruct (e =? t).
    + injection H as <-. apply store_link_built.
      destruct (option_Z_eqb (_pRover j) (Some t)); exact Hr.
    + eapply IH; eassumption.
  - injection H as <-. exact Hr.
Qed.

Lemma removeBlockFromHash_loop_built fuel j t p j' :
  removeBlockFromHash_loop fuel j t p = Some j' ->
  hashes_built j = true -> hashes_built j' = true.
Proof.
  intros H Hb. apply hashes_built_parts in Hb. destruct Hb as [Hr Hbit].
  pose proof (removeBlockFromHash_loop_frame _ _ _ _ _ H) as (Hc & _).
  apply hashes_built_parts. split.
  - eapply removeBlockFromHash_loop_rsum; eassumption.
  - unfold config_of in Hc. injection Hc as _ _ _ _ _ _ _ _ _ _ _ ->. exact Hbit.
Qed.

Lemma removeBlockFromHash_hashes fuel j id j' :
  removeBlockFromHash fuel j id = Some j' ->
  hashes_built j = true -> hashes_built j' = true.
Proof.
  intros H. apply removeBlockFromHash_returns in H. destruct H as [_ H].
  eapply removeBlockFromHash_loop_built. exact H.
Qed.

(** [writeBlocks_loop] changes links and known ranges only. *)
Lemma writeBlocks_loop_frame fuel count : forall j id j',
  writeBlocks_loop fuel j id count = Some j' ->
  config_of j' = config_of j
  /\ same_checksums j j'
  /\ _pTargetFile j' = _pTargetFile j
  /\ _nSkip j' = _nSkip j
  /\ _pNextMatch j' = _pNextMatch j
  /\ _nNextKnown j' = _nNextKnown j
  /\ _pCurrentWeakCheckSums j' = _pCurrentWeakCheckSums j.
Proof.
  induction count as [|count IH]; intros j id j' H; cbn [writeBlocks_loop] in H.
  - injection H as <-. repeat split; auto.
  - destruct (removeBlockFromHash fuel j id) as [j1|] eqn:E1; [|discriminate].
    apply removeBlockFromHash_frame in E1.
    destruct E1 as (A1 & A2 & A3 & A4 & A5 & A6 & A7 & A8).
    apply IH in H. destruct H as (B1 & B2 & B3 & B4 & B5 & B6 & B7).
    cbn in B3, B4, B5, B6, B7.
    assert (B2' : same_checksums j1 j') by exact B2.
    split; [transitivity (config_of j1); [exact B1|exact A1]|].
    split; [apply (same_checksums_trans j j1 j'); assumption|].
    repeat split; congruence.
Qed.

Lemma writeBlocks_loop_hashes fuel count : forall j id j',
  writeBlocks_loop fuel j id count = Some j' ->
  hashes_built j = true -> hashes_built j' = true.
Proof.
  induction count as [|count IH]; intros j id j' H Hb; cbn [writeBlocks_loop] in H.
  - injection H as <-. exact Hb.
  - destruct (removeBlockFromHash fuel j id) as [j1|] eqn:E1; [|discriminate].
    apply (removeBlockFromHash_hashes _ _ _ _ E1) in Hb.
    eapply IH; [exact H|exact Hb].
Qed.

Lemma writeBlocks_hashes fuel j data bfrom bto j' :
  writeBlocks fuel j data bfrom bto = Some j' ->
  hashes_built j = true -> hashes_built j' = true.
Proof.
  intros H Hb. unfold writeBlocks in H.
  eapply writeBlocks_loop_hashes; [exact H|exact Hb].
Qed.

Lemma writeBlocks_loop_rsum fuel count : forall j id j',
  writeBlocks_loop fuel j id count = Some j' ->
  is_some (_pRsumHash j) = true -> is_some (_pRsumHash j') = true.
Proof.
  induction count as [|count IH]; intros j id j' H Hb; cbn [writeBlocks_loop] in H.
  - injection H as <-. exact Hb.
  - destruct (removeBlockFromHash fuel j id) as [j1|] eqn:E1; [|discriminate].
    apply removeBlockFromHash_returns in E1. destruct E1 as [_ E1].
    apply (removeBlockFromHash_loop_rsum _ _ _ _ _ E1) in Hb.
    eapply IH; [exact H|exact Hb].
Qed.

(** ** Writing to the target file *)

Lemma shiftl_mul x n : 0 <= n -> Z.shiftl x n = x * 2 ^ n.
Proof. intros Hn. apply Z.shiftl_mul_pow2. assumption. Qed.

(** What a call of [writeBlocks] that returns has done to the target
    file. *)
Lemma writeBlocks_file_effect fuel j data bfrom bto j' :
  bfrom <= bto ->
  0 <= bfrom + _nBlockIdOffset j ->
  0 <= _nBlockShift j ->
  0 <= file_pos (_pTargetFile j) ->
  writeBlocks fuel j data bfrom bto = Some j' ->
  let f := _pTargetFile j in
  let f' := _pTargetFile j' in
  let len := (bto - bfrom + 1) * 2 ^ _nBlockShift j in
  let offset := (bfrom + _nBlockIdOffset j) * 2 ^ _nBlockShift j in
  file_pos f' = file_pos f
  /\ (forall k, 0 <= k < len ->
        zget x00 (file_data f') (offset + k) = byte_at data k)
  /\ (forall k, k < offset \/ offset + len <= k ->
        zget x00 (file_data f') k = zget x00 (file_data f) k)
  /\ file_journal f' = (offset, window data 0 len) :: file_journal f
  /\ (_nBlockSize j = 2 ^ _nBlockShift j ->
      len = (bto - bfrom + 1) * _nBlockSize j).
Proof.
  intros Hft Hoff Hshift Hpos H. cbv zeta.
  unfold writeBlocks in H. apply writeBlocks_loop_frame in H.
  destruct H as (_ & _ & Hfile & _). cbn [_pTargetFile set_pTargetFile] in Hfile.
  rewrite Hfile. clear Hfile.
  rewrite !shiftl_mul by assumption.
  replace (bto + _nBlockIdOffset j - (bfrom + _nBlockIdOffset j) + 1)
    with (bto - bfrom + 1) by lia.
  remember ((bto - bfrom + 1) * 2 ^ _nBlockShift j) as len eqn:Elen.
  remember ((bfrom + _nBlockIdOffset j) * 2 ^ _nBlockShift j) as offset eqn:Eoff.
  assert (Hpow : 0 < 2 ^ _nBlockShift j) by (apply Z.pow_pos_nonneg; lia).
  assert (Hlen : 0 < len) by nia.
  assert (Hoffset : 0 <= offset) by nia.
  remember (_pTargetFile j) as f eqn:Ef.
  assert (E1 : QFile_seek f offset = mk_file (file_data f) offset (file_journal f)).
  { unfold QFile_seek. destruct (Z.ltb_spec offset 0); [lia|reflexivity]. }
  rewrite E1.
  assert (E3 : forall f2, QFile_seek f2 (file_pos f)
                          = mk_file (file_data f2) (file_pos f) (file_journal f2)).
  { intros f2. unfold QFile_seek.
    destruct (Z.ltb_spec (file_pos f) 0); [lia|reflexivity]. }
  rewrite E3. unfold QFile_write.
  destruct (Z.leb_spec len 0); [lia|].
  cbn [file_pos file_data file_journal QFile_size].
  split; [reflexivity|].
  split; [|split; [|split; [reflexivity|]]].
  - intros k Hk. unfold QFile_size; cbn [file_data].
    rewrite zget_tabulate by lia.
    destruct (Z.leb_spec offset (offset + k)); [|lia].
    destruct (Z.ltb_spec (offset + k) (offset + len)); [|lia].
    cbn [andb]. f_equal. lia.
  - intros k Hk.
    destruct (Z_lt_dec k 0) as [Hk0|Hk0].
    { rewrite !zget_outside by lia. reflexivity. }
    destruct (Z_lt_dec k (Z.max (QFile_size f) (offset + len))) as [Hk1|Hk1];
      unfold QFile_size in *; cbn [file_data] in *.
    + rewrite zget_tabulate by lia.
      destruct (Z.leb_spec offset k); destruct (Z.ltb_spec k (offset + len));
        cbn [andb]; try reflexivity; lia.
    + rewrite !zget_outside; try reflexivity.
      * right. rewrite ?tabulate_length. cbn [file_data]. lia.
      * right. rewrite ?tabulate_length. cbn [file_data]. lia.
  - intros Hbs. rewrite Hbs. exact Elen.
Qed.

(** ** Parsing the checksum blocks *)

Lemma parse_loop_result stack count : forall j stream id,
  let r := parse_loop stack j stream id count in
  (fst r = NO_ERROR \/ fst r = QBUFFER_IO_READ_ERROR)
  /\ _pTargetFile (snd r) = _pTargetFile j.
Proof.
  induction count as [|count IH]; intros j stream id; cbv zeta;
    cbn [parse_loop].
  - auto.
  - destruct (read_record (stack id) stream (_nWeakCheckSumBytes j)
                (_nStrongCheckSumBytes j))
      as [[[r checksum] stream']|]; [|auto].
    match goal with |- context [parse_loop stack ?j0 ?s0 ?i0 count] =>
      destruct (IH j0 s0 i0) as [H1 H2] end.
    split; [exact H1|]. rewrite H2. reflexivity.
Qed.

(** The error of [parseTargetFileCheckSumBlocks], case by case. *)
Lemma parse_error_cases stack j :
  let r := parseTargetFileCheckSumBlocks stack j in
  _pTargetFile (snd r) = _pTargetFile j
  /\ match _pBlockHashes j, _pTargetFileCheckSumBlocks j with
     | None, _ => fst r = HASH_TABLE_NOT_ALLOCATED
     | Some _, None => fst r = INVALID_TARGET_FILE_CHECKSUM_BLOCKS
     | Some _, Some buffer =>
         if Z.of_nat (length (buffer_data buffer))
            <? _nWeakCheckSumBytes j + _nStrongCheckSumBytes j
         then fst r = INVALID_TARGET_FILE_CHECKSUM_BLOCKS
         else if buffer_opens buffer
              then fst r = NO_ERROR \/ fst r = QBUFFER_IO_READ_ERROR
              else fst r = CANNOT_OPEN_TARGET_FILE_CHECKSUM_BLOCKS
     end.
Proof.
  cbv zeta. unfold parseTargetFileCheckSumBlocks.
  destruct (_pBlockHashes j) as [bh|]; [|auto].
  destruct (_pTargetFileCheckSumBlocks j) as [buffer|]; [|auto].
  destruct (Z.of_nat (length (buffer_data buffer))
            <? _nWeakCheckSumBytes j + _nStrongCheckSumBytes j); [auto|].
  destruct (buffer_opens buffer); cbn [negb]; [|auto].
  pose proof (parse_loop_result stack (Z.to_nat (_nBlocks j)) j
                (buffer_data buffer) 0)
    as [H1 H2]. cbv zeta in H1, H2.
  destruct (parse_loop stack j (buffer_data buffer) 0 (Z.to_nat (_nBlocks j)))
    as [err j1]. cbn [fst snd] in *.
  destruct err; cbn [fst snd]; try (split; [assumption|auto]).
  split; [|auto]. destruct (_pRsumHash j1); [cbn|]; assumption.
Qed.

(** C4, as stated, fails: a stream of one record for a job of two blocks
    is shorter than [blocks * (weak_bytes + strong_bytes)] and parsing it
    fails with [QBUFFER_IO_READ_ERROR]; a stream that cannot be opened
    fails with [CANNOT_OPEN_TARGET_FILE_CHECKSUM_BLOCKS]. *)
Lemma short_or_unopened_stream_is_not_invalid :
  let info stream :=
    mk_info 4 0 2 4 16 1 (mk_file [] 0 []) (Some stream)
      (mk_seed true true true []) in
  let short := mk_buffer (repeat x00 20) true in
  let closed := mk_buffer (repeat x00 40) false in
  Z.of_nat (length (buffer_data short)) < 2 * (4 + 16)
  /\ fst (parseTargetFileCheckSumBlocks stale_stack
            (ZsyncCoreJobPrivate (info short)))
     = QBUFFER_IO_READ_ERROR
  /\ buffer_opens closed = false
  /\ fst (parseTargetFileCheckSumBlocks stale_stack
            (ZsyncCoreJobPrivate (info closed)))
     = CANNOT_OPEN_TARGET_FILE_CHECKSUM_BLOCKS.
Proof. repeat split; vm_compute; reflexivity. Qed.

Section Parse.

Variable md4 : list byte -> list byte.

(** C4, amended: parsing fails with
    [INVALID_TARGET_FILE_CHECKSUM_BLOCKS] exactly when the hash table is
    allocated and the stream is absent or shorter than one record of
    [weak_bytes + strong_bytes] bytes; a stream of at least one record
    that cannot be opened fails with
    [CANNOT_OPEN_TARGET_FILE_CHECKSUM_BLOCKS]; and whenever parsing
    fails, the job returns that error with [got_blocks = 0] and no
    required ranges, the target file untouched. *)
Theorem parse_failure stack j :
  let r := parseTargetFileCheckSumBlocks stack j in
  (fst r = INVALID_TARGET_FILE_CHECKSUM_BLOCKS <->
   _pBlockHashes j <> None
   /\ match _pTargetFileCheckSumBlocks j with
      | None => True
      | Some buffer =>
          Z.of_nat (length (buffer_data buffer))
          < _nWeakCheckSumBytes j + _nStrongCheckSumBytes j
      end)
  /\ (fst r = CANNOT_OPEN_TARGET_FILE_CHECKSUM_BLOCKS <->
      _pBlockHashes j <> None
      /\ exists buffer,
           _pTargetFileCheckSumBlocks j = Some buffer
           /\ _nWeakCheckSumBytes j + _nStrongCheckSumBytes j
              <= Z.of_nat (length (buffer_data buffer))
           /\ buffer_opens buffer = false)
  /\ (is_error (fst r) = true ->
      forall fuel,
        run md4 stack fuel j = Some (mk_result (fst r) 0 None, snd r)
        /\ _pTargetFile (snd r) = _pTargetFile j).
Proof.
  cbv zeta. pose proof (parse_error_cases stack j) as [Hfile Hcases].
  cbv zeta in Hfile, Hcases.
  split; [|split].
  - destruct (_pBlockHashes j) as [bh|].
    + destruct (_pTargetFileCheckSumBlocks j) as [buffer|].
      * destruct (Z.ltb_spec (Z.of_nat (length (buffer_data buffer)))
                    (_nWeakCheckSumBytes j + _nStrongCheckSumBytes j)).
        -- split; [intros _; split; [discriminate|assumption]|auto].
        -- split; [|intros [_ ?]; lia].
           intros E. rewrite E in Hcases.
           destruct (buffer_opens buffer); [destruct Hcases|]; discriminate.
      * split; [intros _; split; [discriminate|exact I]|auto].
    + rewrite Hcases. split; [discriminate|intros [E _]; congruence].
  - destruct (_pBlockHashes j) as [bh|].
    + destruct (_pTargetFileCheckSumBlocks j) as [buffer|].
      * destruct (Z.ltb_spec (Z.of_nat (length (buffer_data buffer)))
                    (_nWeakCheckSumBytes j + _nStrongCheckSumBytes j)).
        -- rewrite Hcases. split; [discriminate|].
           intros (_ & b & Eb & Hb & _). injection Eb as <-. lia.
        -- destruct (buffer_opens buffer) eqn:Eo.
           ++ split.
              ** intros E. rewrite E in Hcases. destruct Hcases; discriminate.
              ** intros (_ & b & Eb & _ & Hb). injection Eb as <-. congruence.
           ++ split; [|auto]. intros _. split; [discriminate|].
              exists buffer. auto.
      * rewrite Hcases. split; [discriminate|].
        intros (_ & b & Eb & _). discriminate.
    + rewrite Hcases. split; [discriminate|intros [E _]; congruence].
  - intros Herr fuel. split; [|exact Hfile].
    unfold run.
    destruct (parseTargetFileCheckSumBlocks stack j) as [err j1].
    cbn [fst snd] in *. rewrite Herr. reflexivity.
Qed.

End Parse.

Lemma parse_failure_witness :
  let j :=
    ZsyncCoreJobPrivate
      (mk_info 4 0 2 4 16 1 (mk_file [] 0 [])
         (Some (mk_buffer (repeat x00 19) true)) (mk_seed true true true [])) in
  let r := parseTargetFileCheckSumBlocks stale_stack j in
  is_error (fst r) = true
  /\ forall fuel,
       run MD4.md4 stale_stack fuel j = Some (mk_result (fst r) 0 None, snd r)
       /\ _pTargetFile (snd r) = _pTargetFile j.
Proof.
  intros j r. split; [reflexivity|].
  apply (parse_failure MD4.md4 stale_stack j). reflexivity.
Defined.

(** ** The report with nothing known *)

(** C3: the code at the scenario with an empty seed.  The job returns no
    error and [got_blocks = 0], and one required range; its pair is
    (0, 4), and its checksums are the four digests of the blocks followed
    by the 16 zero bytes of the entry behind the last block. *)
Lemma empty_seed_report stack :
  option_map fst (run MD4.md4 stack 1 (Scenario.job_with_seed []))
  = Some (mk_result NO_ERROR 0
            (Some [((0, 4),
                    [MD4.md4 Scenario.ABCD; MD4.md4 Scenario.EFGH;
                     MD4.md4 Scenario.IJKL; MD4.md4 Scenario.MNOP;
                     repeat x00 16])])).
Proof. vm_compute. reflexivity. Qed.

(** ** Chains whose links ascend *)

Lemma links_ascendb_ok j : links_ascendb j = true <-> links_ascend j.
Proof.
  unfold links_ascendb, links_ascend. rewrite forallb_forall. split.
  - intros H e v Hv.
    destruct (Z_lt_dec e 0) as [He|He];
      [rewrite entry_outside in Hv by lia; discriminate|].
    destruct (Z_le_dec (Z.of_nat (length (blockHashes j))) e) as [He'|He'];
      [rewrite entry_outside in Hv by lia; discriminate|].
    specialize (H e). rewrite Hv in H. apply Z.ltb_lt. apply H.
    unfold tabulate. apply in_map_iff. exists (Z.to_nat e).
    split; [lia|]. apply in_seq. lia.
  - intros H e _. destruct (Entry.next (entry j e)) as [v|] eqn:Hv; [|reflexivity].
    apply Z.ltb_lt. eapply H. eassumption.
Qed.

Lemma chain_rank_next j e :
  links_ascend j ->
  (chain_rank j (Entry.next (entry j e)) < chain_rank j (Some e))%nat.
Proof.
  intros Hl. destruct (Entry.next (entry j e)) as [v|] eqn:Hv;
    cbn [chain_rank]; [|lia].
  pose proof (Hl e v Hv) as Hev.
  unfold entries_left.
  destruct (Z.leb_spec 0 e); destruct (Z.ltb_spec e (Z.of_nat (length (blockHashes j))));
    cbn [andb]; try (rewrite entry_outside in Hv by lia; discriminate).
  destruct (Z.leb_spec 0 v); destruct (Z.ltb_spec v (Z.of_nat (length (blockHashes j))));
    cbn [andb]; lia.
Qed.

Lemma chain_rank_bound j o :
  (chain_rank j o <= S (length (blockHashes j)))%nat.
Proof.
  destruct o as [e|]; cbn [chain_rank]; [|lia].
  unfold entries_left.
  destruct (Z.leb_spec 0 e); destruct (Z.ltb_spec e (Z.of_nat (length (blockHashes j))));
    cbn [andb]; lia.
Qed.

Lemma chain_rank_same j j' o :
  length (blockHashes j') = length (blockHashes j) ->
  chain_rank j' o = chain_rank j o.
Proof.
  intros E. destruct o as [e|]; [|reflexivity].
  cbn [chain_rank]. unfold entries_left. rewrite E. reflexivity.
Qed.

Lemma links_ascend_same_table j j' :
  blockHashes j' = blockHashes j -> links_ascend j -> links_ascend j'.
Proof.
  intros E H e v. unfold entry. rewrite E. apply H.
Qed.

Lemma links_ascend_set_entry_next j e v :
  links_ascend j -> (forall u, v = Some u -> e < u) ->
  links_ascend (set_entry_next j e v).
Proof.
  intros Hl Hv e' v' H. rewrite entry_set_entry_next in H.
  destruct ((e' =? e) && (0 <=? e) && (e <? Z.of_nat (length (blockHashes j))))
    eqn:E.
  - cbn [Entry.next] in H. apply andb_true_iff in E. destruct E as [E _].
    apply andb_true_iff in E. destruct E as [E _]. apply Z.eqb_eq in E.
    subst e'. apply Hv. assumption.
  - eapply Hl. eassumption.
Qed.

(** Unlinking an entry ends, keeps the links ascending, and moves the
    rover forward only. *)
Lemma removeBlockFromHash_loop_links fuel : forall j t p,
  links_ascend j ->
  (chain_rank j (load_link j p) < fuel)%nat ->
  exists j',
    removeBlockFromHash_loop fuel j t p = Some j'
    /\ links_ascend j'
    /\ (chain_rank j' (_pRover j') <= chain_rank j (_pRover j))%nat.
Proof.
  induction fuel as [|fuel IH]; intros j t p Hl Hfuel; [lia|].
  cbn [removeBlockFromHash_loop].
  destruct (load_link j p) as [e|] eqn:Hp.
  - destruct (Z.eqb_spec e t) as [->|Hne].
    + eexists. split; [reflexivity|].
      set (j1 := if option_Z_eqb (_pRover j) (Some t)
                 then set_pRover j (Entry.next (entry j t)) else j).
      assert (Hb : blockHashes j1 = blockHashes j)
        by (unfold j1; destruct (option_Z_eqb _ _); reflexivity).
      assert (Hl1 : links_ascend j1)
        by (apply (links_ascend_same_table j); assumption).
      assert (Hr1 : (chain_rank j1 (_pRover j1) <= chain_rank j (_pRover j))%nat).
      { unfold j1. destruct (option_Z_eqb (_pRover j) (Some t)) eqn:Eo; [|lia].
        destruct (_pRover j) as [u|]; [|discriminate].
        cbn [option_Z_eqb] in Eo. apply Z.eqb_eq in Eo. subst u.
        cbn [_pRover set_pRover].
        rewrite (chain_rank_same j) by reflexivity.
        pose proof (chain_rank_next j t Hl). lia. }
      assert (Hp1 : load_link j1 p = Some t).
      { rewrite <- Hp. unfold j1. destruct (option_Z_eqb _ _); [|reflexivity].
        destruct p; reflexivity. }
      destruct p as [i|prev]; cbn [store_link].
      * split.
        -- apply (links_ascend_same_table j1); [reflexivity|assumption].
        -- cbn [_pRover set_pRsumHash]. rewrite (chain_rank_same j1) by reflexivity.
           exact Hr1.
      * split.
        -- apply links_ascend_set_entry_next; [assumption|].
           intros u Hu. cbn [load_link] in Hp1.
           pose proof (Hl1 prev t Hp1). pose proof (Hl1 t u Hu). lia.
        -- change (_pRover (set_entry_next j1 prev (Entry.next (entry j1 t))))
             with (_pRover j1).
           rewrite (chain_rank_same j1)
             by (destruct (same_checksums_set_entry_next j1 prev
                             (Entry.next (entry j1 t))); assumption).
           exact Hr1.
    + apply IH; [assumption|]. cbn [load_link].
      pose proof (chain_rank_next j e Hl). lia.
  - exists j. auto.
Qed.

Lemma removeBlockFromHash_links fuel j id :
  links_ascend j ->
  is_some (_pRsumHash j) = true ->
  (S (length (blockHashes j)) < fuel)%nat ->
  exists j',
    removeBlockFromHash fuel j id = Some j'
    /\ links_ascend j'
    /\ (chain_rank j' (_pRover j') <= chain_rank j (_pRover j))%nat.
Proof.
  intros Hl Hh Hfuel. rewrite removeBlockFromHash_built by exact Hh.
  apply removeBlockFromHash_loop_links; [assumption|].
  pose proof (chain_rank_bound j
                (load_link j (Bucket (Z.land (calcRHash j id) (_pHashMask j))))).
  lia.
Qed.

Lemma writeBlocks_loop_links fuel count : forall j id,
  links_ascend j ->
  is_some (_pRsumHash j) = true ->
  (S (length (blockHashes j)) < fuel)%nat ->
  exists j',
    writeBlocks_loop fuel j id count = Some j'
    /\ links_ascend j'
    /\ (chain_rank j' (_pRover j') <= chain_rank j (_pRover j))%nat.
Proof.
  induction count as [|count IH]; intros j id Hl Hh Hfuel; cbn [writeBlocks_loop].
  - exists j. auto.
  - destruct (removeBlockFromHash_links fuel j id Hl Hh Hfuel)
      as (j1 & E1 & Hl1 & Hr1).
    rewrite E1.
    pose proof (removeBlockFromHash_frame _ _ _ _ E1) as (_ & [Hlen _] & _).
    pose proof (removeBlockFromHash_returns _ _ _ _ E1) as [_ E1'].
    pose proof (removeBlockFromHash_loop_rsum _ _ _ _ _ E1' Hh) as Hh1.
    destruct (IH (set_ranges j1 (addToRanges (_ranges j1) id)) (id + 1))
      as (j' & E' & Hl' & Hr').
    + apply (links_ascend_same_table j1); [reflexivity|assumption].
    + exact Hh1.
    + change (blockHashes (set_ranges j1 (addToRanges (_ranges j1) id)))
        with (blockHashes j1). lia.
    + exists j'. repeat split; try assumption.
      change (_pRover (set_ranges j1 (addToRanges (_ranges j1) id)))
        with (_pRover j1) in Hr'.
      rewrite (chain_rank_same j1 (set_ranges j1 (addToRanges (_ranges j1) id)))
        in Hr' by reflexivity.
      lia.
Qed.

Lemma writeBlocks_links fuel j data bfrom bto :
  links_ascend j ->
  is_some (_pRsumHash j) = true ->
  (S (length (blockHashes j)) < fuel)%nat ->
  exists j',
    writeBlocks fuel j data bfrom bto = Some j'
    /\ links_ascend j'
    /\ (chain_rank j' (_pRover j') <= chain_rank j (_pRover j))%nat.
Proof.
  intros Hl Hh Hfuel. unfold writeBlocks.
  match goal with |- context [writeBlocks_loop fuel ?j0 bfrom ?c] =>
    destruct (writeBlocks_loop_links fuel c j0 bfrom) as (j' & E & Hl' & Hr');
      [apply (links_ascend_same_table j); [reflexivity|assumption]
      |exact Hh|exact Hfuel|]
  end.
  exists j'. auto.
Qed.

(** ** A call of [writeBlocks] *)

(** C7, as stated, fails for a block size that is not a power of two: a
    job with [block_size = 3] has [block_shift = 1], and with its hash
    built, writing block 0 from a buffer of three bytes writes two bytes,
    not [1 * block_size]. *)
Lemma writeBlocks_writes_two_bytes_for_block_size_3 :
  let data := [x01; x02; x03] in
  let j :=
    snd (buildHash
           (snd (parseTargetFileCheckSumBlocks stale_stack
                   (job_for data [] 3 0 1 4 16 1)))) in
  _nBlockShift j = 1
  /\ hashes_built j = true
  /\ option_map (fun j' => file_data (_pTargetFile j')) (writeBlocks 3 j data 0 0)
     = Some [x01; x02]
  /\ [x01; x02] <> firstn (Z.to_nat ((0 - 0 + 1) * _nBlockSize j)) data.
Proof. repeat split; by_computation. Qed.

(** C7, amended: a call [writeBlocks(data, bfrom, bto)] with
    [bfrom <= bto], on a job whose rsum hash is built and whose chains
    ascend, returns; it has written the [(bto - bfrom + 1) << block_shift]
    bytes at [data] to the target file from byte
    [(bfrom + block_id_offset) << block_shift] on, in one write, has
    changed no other byte of the file, and has left the file's position
    where it was; the number of bytes is [(bto - bfrom + 1) * block_size]
    when [block_size = 2 ^ block_shift]. *)
Theorem writeBlocks_target_file fuel j data bfrom bto :
  bfrom <= bto ->
  0 <= bfrom + _nBlockIdOffset j ->
  0 <= _nBlockShift j ->
  0 <= file_pos (_pTargetFile j) ->
  is_some (_pRsumHash j) = true ->
  links_ascendb j = true ->
  Z.of_nat (length (blockHashes j)) + 1 < Z.of_nat fuel ->
  exists j',
    writeBlocks fuel j data bfrom bto = Some j'
    /\ let f := _pTargetFile j in
       let f' := _pTargetFile j' in
       let len := (bto - bfrom + 1) * 2 ^ _nBlockShift j in
       let offset := (bfrom + _nBlockIdOffset j) * 2 ^ _nBlockShift j in
       file_pos f' = file_pos f
       /\ (forall k, 0 <= k < len ->
             zget x00 (file_data f') (offset + k) = byte_at data k)
       /\ (forall k, k < offset \/ offset + len <= k ->
             zget x00 (file_data f') k = zget x00 (file_data f) k)
       /\ file_journal f' = (offset, window data 0 len) :: file_journal f
       /\ (_nBlockSize j = 2 ^ _nBlockShift j ->
           len = (bto - bfrom + 1) * _nBlockSize j).
Proof.
  intros Hft Hoff Hshift Hpos Hh Hl Hfuel.
  apply links_ascendb_ok in Hl.
  destruct (writeBlocks_links fuel j data bfrom bto Hl Hh ltac:(lia))
    as (j' & E & _).
  exists j'. split; [exact E|].
  apply (writeBlocks_file_effect fuel j data bfrom bto j'); assumption.
Qed.

Lemma writeBlocks_target_file_witness :
  let j :=
    set_pTargetFile
      (snd (buildHash
              (snd (parseTargetFileCheckSumBlocks stale_stack
                      (job_for Scenario.target [] 4 1 3 4 16 1)))))
      (mk_file [xaa; xbb; xcc; xdd; xee; xff; x11; x22; x33; x44; x55; x66; x77] 5 []) in
  let data := [x01; x02; x03; x04; x05; x06; x07; x08; x09] in
  option_map
    (fun j' => (file_pos (_pTargetFile j'), file_data (_pTargetFile j')))
    (writeBlocks 6 j data 0 1)
  = Some (5, [xaa; xbb; xcc; xdd; x01; x02; x03; x04; x05; x06; x07; x08; x77])
  /\ exists j',
       writeBlocks 6 j data 0 1 = Some j'
       /\ let f := _pTargetFile j in
          let f' := _pTargetFile j' in
          let len := (1 - 0 + 1) * 2 ^ _nBlockShift j in
          let offset := (0 + _nBlockIdOffset j) * 2 ^ _nBlockShift j in
          file_pos f' = file_pos f
          /\ (forall k, 0 <= k < len ->
                zget x00 (file_data f') (offset + k) = byte_at data k)
          /\ (forall k, k < offset \/ offset + len <= k ->
                zget x00 (file_data f') k = zget x00 (file_data f) k)
          /\ file_journal f' = (offset, window data 0 len) :: file_journal f
          /\ (_nBlockSize j = 2 ^ _nBlockShift j ->
              len = (1 - 0 + 1) * _nBlockSize j).
Proof.
  intros j data. split; [vm_compute; reflexivity|].
  apply (writeBlocks_target_file 6 j data 0 1); by_computation.
Defined.

(** ** The block ids the hash holds are not negative *)

Lemma ids_nonnegb_ok j : ids_nonnegb j = true -> ids_nonneg j.
Proof.
  unfold ids_nonnegb, ids_nonneg. intros H.
  apply andb_true_iff in H. destruct H as [H H4].
  apply andb_true_iff in H. destruct H as [H H3].
  apply andb_true_iff in H. destruct H as [H1 H2].
  rewrite forallb_forall in H1, H2.
  split; [|split; [|split; assumption]].
  - intros b. unfold zget. destruct (b <? 0); [reflexivity|].
    destruct (nth_in_or_default (Z.to_nat b) (rsumHash j) None) as [Hin| ->];
      [apply H1; exact Hin|reflexivity].
  - intros e. unfold entry, zget. destruct (e <? 0); [reflexivity|].
    destruct (nth_in_or_default (Z.to_nat e) (blockHashes j) zero_entry)
      as [Hin| ->]; [apply (H2 _ Hin)|reflexivity].
Qed.

Lemma ids_nonneg_same j j' :
  rsumHash j' = rsumHash j -> blockHashes j' = blockHashes j ->
  nonneg_link (_pRover j') = true -> nonneg_link (_pNextMatch j') = true ->
  ids_nonneg j -> ids_nonneg j'.
Proof.
  intros Hr Hb Hrv Hnm (H1 & H2 & _ & _). unfold ids_nonneg, entry.
  rewrite Hr, Hb. auto.
Qed.

Lemma ids_nonneg_store_link j p v :
  nonneg_link v = true -> ids_nonneg j -> ids_nonneg (store_link j p v).
Proof.
  intros Hv (H1 & H2 & H3 & H4). destruct p as [i|e]; cbn [store_link].
  - split; [|split; [|split]]; try assumption.
    intros b. unfold rsumHash at 1. cbn [_pRsumHash set_pRsumHash].
    rewrite zget_zset_any. destruct (_ && _); [exact Hv|apply H1].
  - split; [|split; [|split]]; try assumption.
    intros e'. rewrite entry_set_entry_next.
    destruct (_ && _); [exact Hv|apply H2].
Qed.

Lemma removeBlockFromHash_loop_ids fuel : forall j t p j',
  removeBlockFromHash_loop fuel j t p = Some j' ->
  ids_nonneg j -> ids_nonneg j'.
Proof.
  induction fuel as [|fuel IH]; intros j t p j' H Hi;
    cbn [removeBlockFromHash_loop] in H; [discriminate|].
  destruct (load_link j p) as [e|].
  - destruct (e =? t).
    + injection H as <-.
      set (j1 := if option_Z_eqb (_pRover j) (Some t)
                 then set_pRover j (Entry.next (entry j t)) else j).
      assert (Hi1 : ids_nonneg j1).
      { unfold j1. destruct (option_Z_eqb (_pRover j) (Some t)); [|exact Hi].
        destruct Hi as (H1 & H2 & H3 & H4).
        split; [exact H1|]. split; [exact H2|]. split; [apply H2|exact H4]. }
      apply ids_nonneg_store_link; [|exact Hi1].
      destruct Hi1 as (_ & H2 & _). apply H2.
    + eapply IH; eassumption.
  - injection H as <-. exact Hi.
Qed.

Lemma writeBlocks_loop_ids fuel count : forall j id j',
  writeBlocks_loop fuel j id count = Some j' ->
  ids_nonneg j -> ids_nonneg j'.
Proof.
  induction count as [|count IH]; intros j id j' H Hi; cbn [writeBlocks_loop] in H.
  - injection H as <-. exact Hi.
  - destruct (removeBlockFromHash fuel j id) as [j1|] eqn:E1; [|discriminate].
    apply removeBlockFromHash_returns in E1. destruct E1 as [_ E1].
    apply (removeBlockFromHash_loop_ids _ _ _ _ _ E1) in Hi.
    eapply IH; [exact H|]. exact Hi.
Qed.

Lemma writeBlocks_ids fuel j data bfrom bto j' :
  writeBlocks fuel j data bfrom bto = Some j' ->
  ids_nonneg j -> ids_nonneg j'.
Proof.
  intros H Hi. unfold writeBlocks in H.
  eapply writeBlocks_loop_ids; [exact H|]. exact Hi.
Qed.

Lemma buildHash_fill_ids id : forall j,
  ids_nonneg j -> ids_nonneg (buildHash_fill j id).
Proof.
  induction id as [|id IH]; intros j Hi; cbn [buildHash_fill]; [exact Hi|].
  apply IH.
  set (e := Z.of_nat id).
  set (bucket := Z.land (calcRHash j e) (_pHashMask j)).
  set (j1 := store_link j (NextOf e) (zget None (rsumHash j) bucket)).
  assert (Hi1 : ids_nonneg j1).
  { apply ids_nonneg_store_link; [|exact Hi]. destruct Hi as (H1 & _). apply H1. }
  assert (Hi2 : ids_nonneg (store_link j1 (Bucket bucket) (Some e))).
  { apply ids_nonneg_store_link; [|exact Hi1].
    cbn [nonneg_link]. apply Z.leb_le. unfold e. lia. }
  revert Hi2. apply ids_nonneg_same; try reflexivity.
  - destruct Hi as (_ & _ & H3 & _). exact H3.
  - destruct Hi as (_ & _ & _ & H4). exact H4.
Qed.

Lemma buildHash_ids j : ids_nonneg j -> ids_nonneg (snd (buildHash j)).
Proof.
  intros (H1 & H2 & H3 & H4). unfold buildHash. cbn [snd].
  apply buildHash_fill_ids. split; [|split; [|split]]; try assumption.
  intros b. unfold rsumHash. cbn [_pRsumHash set_pBitHash set_pBitHashMask set_pRsumHash].
  unfold zget. destruct (b <? 0); [reflexivity|].
  destruct (Nat.lt_ge_cases (Z.to_nat b)
              (Z.to_nat (_pHashMask (set_pHashMask j
                 (Z.shiftl 2 (hash_size_loop (_nBlocks j) 16) - 1)) + 1))).
  - rewrite nth_repeat_lt by assumption. reflexivity.
  - rewrite nth_overflow by (rewrite repeat_length; assumption). reflexivity.
Qed.

(** ** Matching against a chain: what is written has been compared *)

Lemma config_of_fields j j' :
  config_of j' = config_of j ->
  _nBlockSize j' = _nBlockSize j
  /\ _nBlockIdOffset j' = _nBlockIdOffset j
  /\ _nBlocks j' = _nBlocks j
  /\ _pWeakCheckSumMask j' = _pWeakCheckSumMask j
  /\ _nStrongCheckSumBytes j' = _nStrongCheckSumBytes j
  /\ _nSeqMatches j' = _nSeqMatches j
  /\ _nContext j' = _nContext j
  /\ _nBlockShift j' = _nBlockShift j
  /\ _pHashMask j' = _pHashMask j
  /\ _pBitHashMask j' = _pBitHashMask j
  /\ _pBitHash j' = _pBitHash j.
Proof.
  unfold config_of. intros H. injection H as -> -> -> -> _ -> -> -> -> -> -> ->.
  repeat split.
Qed.

Ltac config_fields H :=
  let H' := fresh in
  pose proof (config_of_fields _ _ H) as H';
  destruct H' as (?Hbs & ?Hoff & ?Hnb & ?Hmask & ?Hsb & ?Hseq & ?Hctx & ?Hsh
                  & ?Hhm & ?Hbm & ?Hbh).

Lemma scan_frame_refl j : scan_frame j j.
Proof. split; [reflexivity|apply same_checksums_refl]. Qed.

Lemma scan_frame_trans j1 j2 j3 :
  scan_frame j1 j2 -> scan_frame j2 j3 -> scan_frame j1 j3.
Proof.
  intros [A1 A2] [B1 B2]. split; [congruence|].
  eapply same_checksums_trans; eassumption.
Qed.

Section ChainSound.

Variable md4 : list byte -> list byte.

Lemma strong_match_frame j j' block id :
  scan_frame j j' -> strong_match md4 j' block id -> strong_match md4 j block id.
Proof.
  intros [Hc [_ Hs]] H. config_fields Hc. unfold strong_match in *.
  destruct (Hs id) as [_ Hck]. rewrite <- Hck, <- Hsb. exact H.
Qed.

Lemma aligned_same j j' : config_of j' = config_of j -> aligned j -> aligned j'.
Proof.
  intros Hc (A & B & C).
  pose proof (config_of_fields _ _ Hc)
    as (Hbs & Hoff & _ & _ & _ & _ & _ & Hsh & _).
  unfold aligned. rewrite Hsh, Hbs, Hoff. auto.
Qed.

Lemma aligned_block_size j : aligned j -> 0 < _nBlockSize j.
Proof. intros (A & B & _). rewrite B. apply Z.pow_pos_nonneg; lia. Qed.

Lemma verified_write_frame j j' w :
  scan_frame j j' -> verified_write md4 j' w -> verified_write md4 j w.
Proof.
  intros Hf (id & num & Hid & Hnum & Hpos & Hlen & Hv).
  pose proof Hf as [Hc _].
  pose proof (config_of_fields _ _ Hc)
    as (Hbs & Hoff & _ & _ & _ & _ & _ & Hsh & _).
  exists id, num. rewrite <- Hbs, <- Hsh, <- Hoff.
  repeat split; try assumption.
  intros k Hk. eapply strong_match_frame; [eassumption|]. apply Hv. assumption.
Qed.

Lemma verified_writes_refl data j : verified_writes md4 data j j.
Proof. exists []. split; [reflexivity|constructor]. Qed.

Lemma verified_writes_trans data j1 j2 j3 :
  scan_frame j1 j2 ->
  verified_writes md4 data j1 j2 -> verified_writes md4 data j2 j3 ->
  verified_writes md4 data j1 j3.
Proof.
  intros Hf (ws1 & E1 & F1) (ws2 & E2 & F2).
  exists (ws2 ++ ws1). split.
  - rewrite E2, E1. apply app_assoc.
  - apply Forall_app. split; [|assumption].
    eapply Forall_impl; [|exact F2].
    intros w [Hw Ht]. split; [|exact Ht].
    eapply verified_write_frame; eassumption.
Qed.

Lemma chain_step_refl data j : chain_step md4 data j j.
Proof.
  split; [apply scan_frame_refl|]. repeat split; try reflexivity.
  apply verified_writes_refl.
Qed.

Lemma chain_step_trans data j1 j2 j3 :
  chain_step md4 data j1 j2 -> chain_step md4 data j2 j3 ->
  chain_step md4 data j1 j3.
Proof.
  intros (A1 & A2 & A3 & A4) (B1 & B2 & B3 & B4).
  split; [eapply scan_frame_trans; eassumption|].
  repeat split; try congruence.
  eapply verified_writes_trans; eassumption.
Qed.

(** A change of members other than the table, the file and those of
    [chain_step] is a step that writes nothing. *)
Lemma chain_step_same j j' :
  config_of j' = config_of j ->
  blockHashes j' = blockHashes j ->
  _pTargetFile j' = _pTargetFile j ->
  _nSkip j' = _nSkip j ->
  _pCurrentWeakCheckSums j' = _pCurrentWeakCheckSums j ->
  forall data, chain_step md4 data j j'.
Proof.
  intros Hc Hb Hf Hs Hw data. split; [split; [assumption|]|].
  - split; [rewrite Hb; reflexivity|]. intros e. unfold entry. rewrite Hb. auto.
  - repeat split; try assumption. exists []. split; [rewrite Hf; reflexivity|constructor].
Qed.

Lemma file_journal_seek f p : file_journal (QFile_seek f p) = file_journal f.
Proof. unfold QFile_seek. destruct (p <? 0); reflexivity. Qed.

Lemma file_journal_write f data len :
  file_journal (QFile_write f data len) =
  if len <=? 0 then file_journal f
  else (file_pos f, window data 0 len) :: file_journal f.
Proof. unfold QFile_write. destruct (len <=? 0); reflexivity. Qed.

Lemma window_of_written data num bs k :
  0 <= k < num -> 0 <= bs ->
  window (window data 0 (num * bs)) (bs * k) bs = window data (bs * k) bs.
Proof.
  intros Hk Hbs. apply window_ext. intros i Hi.
  rewrite byte_at_window by nia. reflexivity.
Qed.

Lemma file_pos_seek f p : 0 <= p -> file_pos (QFile_seek f p) = p.
Proof. intros Hp. unfold QFile_seek. destruct (Z.ltb_spec p 0); [lia|reflexivity]. Qed.

(** [writeBlocks] of blocks that have passed the comparison. *)
Lemma writeBlocks_step fuel j data id num j' :
  aligned j -> 0 <= id ->
  (forall k, 0 <= k < num ->
     strong_match md4 j (window data (_nBlockSize j * k) (_nBlockSize j)) (id + k)) ->
  writeBlocks fuel j data id (id + num - 1) = Some j' ->
  chain_step md4 data j j'
  /\ _pNextMatch j' = _pNextMatch j
  /\ _nNextKnown j' = _nNextKnown j.
Proof.
  intros Ha Hid Hv H. pose proof (aligned_block_size j Ha) as Hbs.
  destruct Ha as (Hsh & Hpow & Hoff).
  unfold writeBlocks in H. apply writeBlocks_loop_frame in H.
  destruct H as (Hc & Hs & Hf & Hskip & Hnm & Hnk & Hsums).
  cbn [set_pTargetFile _pTargetFile _nSkip _pNextMatch _nNextKnown
         _pCurrentWeakCheckSums] in Hf, Hskip, Hnm, Hnk, Hsums.
  split; [|auto]. split; [split; assumption|].
  split; [assumption|]. split; [assumption|].
  unfold verified_writes. rewrite Hf.
  replace (id + num - 1 + _nBlockIdOffset j - (id + _nBlockIdOffset j) + 1)
    with num by lia.
  rewrite file_journal_seek, file_journal_write, file_journal_seek.
  assert (Elen : Z.shiftl num (_nBlockShift j) = num * _nBlockSize j)
    by (rewrite shiftl_mul by assumption; rewrite Hpow; reflexivity).
  rewrite Elen.
  destruct (Z.leb_spec (num * _nBlockSize j) 0) as [Hle|Hgt].
  - exists []. split; [reflexivity|constructor].
  - eexists [_]. split; [reflexivity|]. constructor; [|constructor].
    assert (Hnum : 0 < num) by nia.
    assert (Hl : Z.of_nat (length (window data 0 (num * _nBlockSize j)))
                 = num * _nBlockSize j)
      by (rewrite window_length; lia).
    cbn [fst snd]. split.
    + exists id, num. cbn [fst snd].
      split; [assumption|]. split; [assumption|].
      split; [apply file_pos_seek; apply Z.shiftl_nonneg; lia|].
      split; [exact Hl|].
      intros k Hk. rewrite window_of_written by lia. apply Hv. assumption.
    + exists 0. split; [lia|]. cbn [snd]. rewrite Hl. reflexivity.
Qed.

Lemma calcMd4Checksum_window data bs k :
  0 <= k ->
  calcMd4Checksum md4 (advance data (bs * k)) bs = md4 (window data (bs * k) bs).
Proof.
  intros Hk. unfold calcMd4Checksum. f_equal. apply window_ext. intros i Hi.
  rewrite byte_at_advance' by nia. reflexivity.
Qed.

Lemma strong_loop_sound more : forall j data onlyone id md4sum done_md4 check_md4
    ok check' md4sum' done',
  _nSeqMatches j <= 2 ->
  cache_ok md4 j data md4sum done_md4 ->
  0 <= check_md4 <= done_md4 + 1 -> check_md4 < 2 ->
  (forall k, 0 <= k < check_md4 ->
     strong_match md4 j (window data (_nBlockSize j * k) (_nBlockSize j)) (id + k)) ->
  strong_loop md4 more j data onlyone id md4sum done_md4 check_md4
  = (ok, check', md4sum', done') ->
  cache_ok md4 j data md4sum' done'
  /\ check_md4 < check'
  /\ (onlyone = true -> check' = check_md4 + 1)
  /\ (ok = true ->
      forall k, 0 <= k < check' ->
        strong_match md4 j (window data (_nBlockSize j * k) (_nBlockSize j)) (id + k)).
Proof.
  induction more as [|more IH];
    intros j data onlyone id md4sum done_md4 check_md4 ok check' md4sum' done'
      Hseq (Hlen & Hdone & Hcache) Hcheck Hcheck2 Hver H;
    cbn [strong_loop] in H.
  all: set (md4sum1 :=
              if done_md4 <? check_md4
              then zset [] md4sum check_md4
                     (calcMd4Checksum md4 (advance data (_nBlockSize j * check_md4))
                        (_nBlockSize j))
              else md4sum) in *.
  all: set (done1 := if done_md4 <? check_md4 then check_md4 else done_md4) in *.
  all: assert (Hc1 : cache_ok md4 j data md4sum1 done1)
    by (unfold md4sum1, done1; destruct (Z.ltb_spec done_md4 check_md4);
        [ split; [rewrite zset_length; assumption|]; split; [lia|];
          intros k Hk; rewrite zget_zset_any, Hlen;
          destruct (Z.eqb_spec k check_md4) as [->|Hne];
          [ destruct (Z.leb_spec 0 check_md4); [|lia];
            destruct (Z.ltb_spec check_md4 (Z.of_nat 2)); [|lia];
            cbn [andb]; apply calcMd4Checksum_window; lia
          | cbn [andb]; apply Hcache; lia ]
        | repeat split; assumption ]).
  all: assert (Hd1 : check_md4 <= done1)
    by (unfold done1; destruct (Z.ltb_spec done_md4 check_md4); lia).
  all: assert (Hok :
      memcmp_eq (zget [] md4sum1 check_md4)
        (Entry.checksum (entry j (id + check_md4))) (_nStrongCheckSumBytes j) = true ->
      forall k, 0 <= k < check_md4 + 1 ->
        strong_match md4 j (window data (_nBlockSize j * k) (_nBlockSize j)) (id + k))
    by (intros Hm k Hk; destruct (Z.eq_dec k check_md4) as [->|Hne];
        [ unfold strong_match; destruct Hc1 as (_ & _ & Hc1);
          rewrite <- Hc1 by lia; exact Hm
        | apply Hver; lia ]).
  all: destruct (memcmp_eq (zget [] md4sum1 check_md4)
                   (Entry.checksum (entry j (id + check_md4)))
                   (_nStrongCheckSumBytes j)) eqn:Em; cbn [andb] in H.
  all: try (injection H as <- <- <- <-; repeat split;
            try apply Hc1; try lia; discriminate).
  - (* no iteration left *)
    assert (Hres : (true, check_md4 + 1, md4sum1, done1) = (ok, check', md4sum', done'))
      by (destruct (negb onlyone && (check_md4 + 1 <? _nSeqMatches j)); exact H).
    injection Hres as <- <- <- <-.
    split; [exact Hc1|]. split; [lia|]. split; [reflexivity|]. auto.
  - destruct onlyone; cbn [negb andb] in H.
    + injection H as <- <- <- <-.
      split; [exact Hc1|]. split; [lia|]. split; [reflexivity|]. auto.
    + destruct (Z.ltb_spec (check_md4 + 1) (_nSeqMatches j)).
      * eapply IH in H; try eassumption; try lia; [|auto].
        destruct H as (G1 & G2 & G3 & G4).
        split; [exact G1|]. split; [lia|]. split; [discriminate|exact G4].
      * injection H as <- <- <- <-.
        split; [exact Hc1|]. split; [lia|]. split; [discriminate|]. auto.
Qed.

Lemma writeBlocks_length fuel j data bfrom bto j' :
  writeBlocks fuel j data bfrom bto = Some j' ->
  length (blockHashes j') = length (blockHashes j).
Proof.
  intros H. unfold writeBlocks in H. apply writeBlocks_loop_frame in H.
  destruct H as (_ & [Hlen _] & _). exact Hlen.
Qed.

Lemma chain_step_config data j j' :
  chain_step md4 data j j' ->
  _nSeqMatches j' = _nSeqMatches j
  /\ _nBlockSize j' = _nBlockSize j
  /\ _nStrongCheckSumBytes j' = _nStrongCheckSumBytes j.
Proof.
  intros ([Hc _] & _). config_fields Hc. auto.
Qed.

Lemma chain_step_aligned data j j' :
  chain_step md4 data j j' -> aligned j -> aligned j'.
Proof. intros ([Hc _] & _). apply aligned_same. exact Hc. Qed.

(** A walk of a chain is a [chain_step]: what it writes has passed the
    strong comparison. *)
Lemma chain_loop_sound fuel walk : forall j data onlyone rs md4sum done_md4 got j' got',
  _nSeqMatches j <= 2 ->
  aligned j -> ids_nonneg j ->
  cache_ok md4 j data md4sum done_md4 ->
  chain_loop md4 fuel walk j data onlyone rs md4sum done_md4 got = Some (j', got') ->
  chain_step md4 data j j' /\ ids_nonneg j'.
Proof.
  induction walk as [|walk IH];
    intros j data onlyone rs md4sum done_md4 got j' got' Hseq Ha Hi Hcache H;
    cbn [chain_loop] in H; [discriminate|].
  destruct (_pRover j) as [e|] eqn:Erover;
    [|injection H as <- _; split; [apply chain_step_refl|exact Hi]].
  assert (He : 0 <= e).
  { destruct Hi as (_ & _ & H3 & _). rewrite Erover in H3. cbn in H3.
    apply Z.leb_le. exact H3. }
  set (j0 := set_pRover j (if onlyone then None else Entry.next (entry j e))) in H.
  assert (S0 : chain_step md4 data j j0) by (apply chain_step_same; reflexivity).
  assert (Hseq0 : _nSeqMatches j0 <= 2) by exact Hseq.
  assert (Ha0 : aligned j0) by exact Ha.
  assert (Hi0 : ids_nonneg j0).
  { apply (ids_nonneg_same j); try reflexivity; try exact Hi.
    - cbn [_pRover set_pRover]. destruct onlyone; [reflexivity|].
      destruct Hi as (_ & H2 & _). apply H2.
    - destruct Hi as (_ & _ & _ & H4). exact H4. }
  assert (Hcache0 : cache_ok md4 j0 data md4sum done_md4) by exact Hcache.
  assert (Hrec : forall md4sum1 done1 got1,
             cache_ok md4 j0 data md4sum1 done1 ->
             chain_loop md4 fuel walk j0 data onlyone rs md4sum1 done1 got1
             = Some (j', got') ->
             chain_step md4 data j j' /\ ids_nonneg j').
  { intros md4sum1 done1 got1 Hc1 H1.
    destruct (IH _ _ _ _ _ _ _ _ _ Hseq0 Ha0 Hi0 Hc1 H1) as [S1 Hi1].
    split; [|exact Hi1]. eapply chain_step_trans; [exact S0|exact S1]. }
  destruct (negb (Rsum.a (Entry.r (entry j0 e))
                    =? Z.land (Rsum.a rs) (_pWeakCheckSumMask j0))
            || negb (Rsum.b (Entry.r (entry j0 e)) =? Rsum.b rs)).
  { eapply Hrec; [exact Hcache0|exact H]. }
  destruct (negb onlyone && (1 <? _nSeqMatches j0)
            && (negb (Rsum.a (Entry.r (entry j0 (e + 1)))
                        =? Z.land (Rsum.a (snd (_pCurrentWeakCheckSums j0)))
                             (_pWeakCheckSumMask j0))
                || negb (Rsum.b (Entry.r (entry j0 (e + 1)))
                           =? Rsum.b (snd (_pCurrentWeakCheckSums j0))))).
  { eapply Hrec; [exact Hcache0|exact H]. }
  destruct (strong_loop md4 (Z.to_nat (_nSeqMatches j0 - 1)) j0 data onlyone e
              md4sum done_md4 0) as [[[ok check'] md4sum'] done'] eqn:Es.
  pose proof Hcache0 as (_ & Hdone & _).
  eapply strong_loop_sound in Es; try eassumption; try lia.
  destruct Es as (Hcache' & Hcheck' & Honly & Hver).
  destruct ok.
  - specialize (Hver eq_refl).
    set (next_known := if onlyone then _nNextKnown j0
                       else nextKnownBlock (_nBlocks j0) (_ranges j0) e) in H.
    set (num := if e + check' <? next_known then check' else next_known - e) in H.
    set (j1 := if e + check' <? next_known
               then (if onlyone then set_pNextMatch j0 (Some (e + check'))
                     else set_nNextKnown (set_pNextMatch j0 (Some (e + check')))
                            next_known)
               else j0) in H.
    assert (S1 : chain_step md4 data j0 j1).
    { unfold j1. destruct (e + check' <? next_known); [|apply chain_step_refl].
      destruct onlyone; apply chain_step_same; reflexivity. }
    assert (Hi1 : ids_nonneg j1).
    { apply (ids_nonneg_same j0); try exact Hi0.
      - unfold j1. destruct (e + check' <? next_known); [destruct onlyone|];
          reflexivity.
      - unfold j1. destruct (e + check' <? next_known); [destruct onlyone|];
          reflexivity.
      - replace (_pRover j1) with (_pRover j0)
          by (unfold j1; destruct (e + check' <? next_known);
              [destruct onlyone|]; reflexivity).
        destruct Hi0 as (_ & _ & H3 & _). exact H3.
      - unfold j1. destruct (e + check' <? next_known).
        + assert (Hn : nonneg_link (Some (e + check')) = true)
            by (cbn [nonneg_link]; apply Z.leb_le; lia).
          destruct onlyone; exact Hn.
        + destruct Hi0 as (_ & _ & _ & H4). exact H4. }
    assert (Hnum : num <= check').
    { unfold num. destruct (Z.ltb_spec (e + check') next_known); lia. }
    destruct (writeBlocks fuel j1 data e (e + num - 1)) as [j2|] eqn:Ew;
      [|discriminate].
    pose proof (chain_step_config _ _ _ S1) as (Q1 & B1 & SB1).
    pose proof (writeBlocks_ids _ _ _ _ _ _ Ew Hi1) as Hi2.
    apply writeBlocks_step in Ew; [|apply (chain_step_aligned _ _ _ S1 Ha0)|exact He|].
    2:{ intros k Hk. rewrite B1.
        assert (Hv := Hver k ltac:(lia)).
        unfold strong_match in *.
        replace (entry j1 (e + k)) with (entry j0 (e + k))
          by (unfold j1; destruct (e + check' <? next_known);
              [destruct onlyone|]; reflexivity).
        rewrite SB1. exact Hv. }
    destruct Ew as (S2 & _).
    pose proof (chain_step_config _ _ _ S2) as (Q2 & B2 & SB2).
    pose proof (chain_step_trans _ _ _ _ S1 S2) as S12.
    assert (Hseq2 : _nSeqMatches j2 <= 2) by (rewrite Q2, Q1; exact Hseq0).
    assert (Hcache2 : cache_ok md4 j2 data md4sum' done').
    { destruct Hcache' as (C1 & C2 & C3). repeat split; try assumption.
      intros k Hk. rewrite B2, B1. apply C3. assumption. }
    destruct (IH _ _ _ _ _ _ _ _ _ Hseq2 (chain_step_aligned _ _ _ S12 Ha0) Hi2
                Hcache2 H) as [S3 Hi3].
    split; [|exact Hi3].
    eapply chain_step_trans; [exact S0|].
    eapply chain_step_trans; [exact S12|exact S3].
  - eapply Hrec; [exact Hcache'|exact H].
Qed.

Lemma checkCheckSumsOnHashChain_sound fuel j e data onlyone j' got :
  _nSeqMatches j <= 2 ->
  aligned j -> ids_nonneg j -> 0 <= e ->
  checkCheckSumsOnHashChain md4 fuel j e data onlyone = Some (j', got) ->
  chain_step md4 data j j' /\ ids_nonneg j'.
Proof.
  intros Hseq Ha Hi He H. unfold checkCheckSumsOnHashChain in H.
  eapply chain_loop_sound in H.
  - destruct H as [S1 Hi1]. split; [|exact Hi1].
    eapply chain_step_trans; [|exact S1]. apply chain_step_same; reflexivity.
  - exact Hseq.
  - exact Ha.
  - apply (ids_nonneg_same j); try reflexivity; try exact Hi.
    cbn [_pRover set_pRover nonneg_link]. apply Z.leb_le. exact He.
  - split; [reflexivity|]. split; [lia|]. intros k Hk. lia.
Qed.

Lemma chain_keeps_refl j : chain_keeps j j.
Proof. repeat split. Qed.

Lemma chain_keeps_trans j1 j2 j3 :
  chain_keeps j1 j2 -> chain_keeps j2 j3 -> chain_keeps j1 j3.
Proof.
  intros (A1 & A2 & A3 & A4) (B1 & B2 & B3 & B4). repeat split; congruence.
Qed.

Lemma writeBlocks_keeps fuel j data bfrom bto j' :
  writeBlocks fuel j data bfrom bto = Some j' -> chain_keeps j j'.
Proof.
  intros H. unfold writeBlocks in H. apply writeBlocks_loop_frame in H.
  destruct H as (Hc & [Hlen _] & _ & Hs & _ & _ & Hw).
  repeat split; assumption.
Qed.

(** A walk of a chain whose links ascend ends. *)
Lemma chain_loop_terminates fuel walk : forall j data onlyone rs md4sum done_md4 got,
  links_ascend j ->
  hashes_built j = true ->
  (S (length (blockHashes j)) < fuel)%nat ->
  (chain_rank j (_pRover j) < walk)%nat ->
  exists j' got',
    chain_loop md4 fuel walk j data onlyone rs md4sum done_md4 got = Some (j', got')
    /\ links_ascend j'
    /\ chain_keeps j j'
    /\ hashes_built j' = true.
Proof.
  induction walk as [|walk IH];
    intros j data onlyone rs md4sum done_md4 got Hl Hh Hfuel Hwalk; [lia|].
  cbn [chain_loop].
  destruct (_pRover j) as [e|] eqn:Er;
    [|exists j, got; repeat split; auto].
  set (j0 := set_pRover j (if onlyone then None else Entry.next (entry j e))).
  assert (Hl0 : links_ascend j0)
    by (apply (links_ascend_same_table j); [reflexivity|assumption]).
  assert (Hh0 : hashes_built j0 = true) by exact Hh.
  assert (K0 : chain_keeps j j0) by (repeat split).
  assert (Hlen0 : length (blockHashes j0) = length (blockHashes j)) by reflexivity.
  assert (Hr0 : (chain_rank j0 (_pRover j0) < walk)%nat).
  { rewrite (chain_rank_same j) by reflexivity. unfold j0. cbn [_pRover set_pRover].
    destruct onlyone.
    - cbn [chain_rank]. cbn [chain_rank] in Hwalk. lia.
    - pose proof (chain_rank_next j e Hl). lia. }
  assert (Hrec : forall md4sum1 done1 got1,
             exists j' got',
               chain_loop md4 fuel walk j0 data onlyone rs md4sum1 done1 got1
               = Some (j', got')
               /\ links_ascend j'
               /\ chain_keeps j j'
               /\ hashes_built j' = true).
  { intros. destruct (IH j0 data onlyone rs md4sum1 done1 got1 Hl0 Hh0)
      as (j' & got' & E & Hl' & K' & Hh');
      [rewrite Hlen0; assumption|assumption|].
    exists j', got'. split; [assumption|]. split; [assumption|].
    split; [apply (chain_keeps_trans j j0 j' K0 K')|assumption]. }
  destruct (negb (Rsum.a (Entry.r (entry j0 e))
                    =? Z.land (Rsum.a rs) (_pWeakCheckSumMask j0))
            || negb (Rsum.b (Entry.r (entry j0 e)) =? Rsum.b rs));
    [apply Hrec|].
  destruct (negb onlyone && (1 <? _nSeqMatches j0)
            && (negb (Rsum.a (Entry.r (entry j0 (e + 1)))
                        =? Z.land (Rsum.a (snd (_pCurrentWeakCheckSums j0)))
                             (_pWeakCheckSumMask j0))
                || negb (Rsum.b (Entry.r (entry j0 (e + 1)))
                           =? Rsum.b (snd (_pCurrentWeakCheckSums j0)))));
    [apply Hrec|].
  destruct (strong_loop md4 (Z.to_nat (_nSeqMatches j0 - 1)) j0 data onlyone e
              md4sum done_md4 0) as [[[ok check'] md4sum'] done'].
  destruct ok; [|apply Hrec].
  set (next_known := if onlyone then _nNextKnown j0
                     else nextKnownBlock (_nBlocks j0) (_ranges j0) e).
  set (num := if e + check' <? next_known then check' else next_known - e).
  set (j1 := if e + check' <? next_known
             then (if onlyone then set_pNextMatch j0 (Some (e + check'))
                   else set_nNextKnown (set_pNextMatch j0 (Some (e + check')))
                          next_known)
             else j0).
  assert (Hb1 : blockHashes j1 = blockHashes j0
                /\ _pRover j1 = _pRover j0
                /\ chain_keeps j0 j1
                /\ hashes_built j1 = hashes_built j0).
  { unfold j1. destruct (e + check' <? next_known); [destruct onlyone|];
      repeat split. }
  destruct Hb1 as (Hb1 & Hrv1 & K1 & Hh1).
  rewrite Hh0 in Hh1.
  destruct (writeBlocks_links fuel j1 data e (e + num - 1))
    as (j2 & Ew & Hl2 & Hr2).
  { apply (links_ascend_same_table j0); assumption. }
  { apply hashes_built_parts in Hh1. apply Hh1. }
  { rewrite Hb1, Hlen0. assumption. }
  rewrite Ew. pose proof (writeBlocks_keeps _ _ _ _ _ _ Ew) as K2.
  pose proof (writeBlocks_hashes _ _ _ _ _ _ Ew Hh1) as Hh2.
  pose proof K2 as (_ & Hlen2 & _).
  destruct (IH j2 data onlyone rs md4sum' done' (got + num) Hl2 Hh2)
    as (j' & got' & E & Hl' & K' & Hh').
  - rewrite Hlen2, Hb1, Hlen0. assumption.
  - rewrite Hrv1 in Hr2.
    rewrite (chain_rank_same j0 j1) in Hr2 by (rewrite Hb1; reflexivity). lia.
  - exists j', got'. split; [assumption|]. split; [assumption|].
    split; [|assumption].
    eapply chain_keeps_trans; [exact K0|].
    eapply chain_keeps_trans; [exact K1|].
    eapply chain_keeps_trans; [exact K2|exact K'].
Qed.

Lemma checkCheckSumsOnHashChain_terminates fuel j e data onlyone :
  scan_ready fuel j ->
  exists j' got,
    checkCheckSumsOnHashChain md4 fuel j e data onlyone = Some (j', got)
    /\ scan_ready fuel j'
    /\ chain_keeps j j'.
Proof.
  intros (Hl & Hfuel & Hh). unfold checkCheckSumsOnHashChain.
  match goal with |- context [chain_loop md4 fuel fuel ?j0 data onlyone ?rs ?m ?d ?g] =>
    destruct (chain_loop_terminates fuel fuel j0 data onlyone rs m d g)
      as (j' & got & E & Hl' & K' & Hh') end.
  - apply (links_ascend_same_table j); [reflexivity|assumption].
  - exact Hh.
  - exact Hfuel.
  - pose proof (chain_rank_bound
                  (set_pRover (set_pNextMatch j None) (Some e))
                  (_pRover (set_pRover (set_pNextMatch j None) (Some e)))) as Hb.
    change (blockHashes (set_pRover (set_pNextMatch j None) (Some e)))
      with (blockHashes j) in Hb. lia.
  - exists j', got. split; [assumption|].
    assert (K : chain_keeps j j') by exact K'.
    split; [|exact K]. split; [assumption|].
    destruct K as (_ & Hlen & _). rewrite Hlen. split; assumption.
Qed.

(** ** Scanning a buffer: termination *)

Lemma scan_ready_same fuel j j' :
  blockHashes j' = blockHashes j -> hashes_built j' = hashes_built j ->
  scan_ready fuel j -> scan_ready fuel j'.
Proof.
  intros E Eh (Hl & Hf & Hh). split; [|split].
  - apply (links_ascend_same_table j); assumption.
  - rewrite E. assumption.
  - rewrite Eh. assumption.
Qed.

Lemma match_next_terminates fuel j data :
  scan_ready fuel j ->
  exists j' thismatch blocks_matched,
    match_next md4 fuel j data = Some (j', thismatch, blocks_matched)
    /\ scan_ready fuel j'
    /\ chain_keeps j j'
    /\ (blocks_matched = 0 \/ blocks_matched = 1).
Proof.
  intros Hr. unfold match_next.
  assert (Hno : exists j' thismatch blocks_matched,
             Some (j, 0, 0) = Some (j', thismatch, blocks_matched)
             /\ scan_ready fuel j'
             /\ chain_keeps j j'
             /\ (blocks_matched = 0 \/ blocks_matched = 1)).
  { exists j, 0, 0. split; [reflexivity|]. split; [assumption|].
    split; [apply chain_keeps_refl|auto]. }
  destruct (_pNextMatch j) as [e|]; [|exact Hno].
  destruct (1 <? _nSeqMatches j); [|exact Hno].
  destruct (checkCheckSumsOnHashChain_terminates fuel j e data true Hr)
    as (j' & got & E & Hr' & K').
  rewrite E. eexists _, _, _. split; [reflexivity|].
  split; [assumption|]. split; [assumption|].
  destruct (got =? 0); auto.
Qed.

Lemma match_hash_terminates fuel j data thismatch blocks_matched :
  scan_ready fuel j ->
  exists j' thismatch' blocks_matched',
    match_hash md4 fuel j data thismatch blocks_matched
    = Some (j', thismatch', blocks_matched')
    /\ scan_ready fuel j'
    /\ chain_keeps j j'
    /\ (blocks_matched' = blocks_matched \/ blocks_matched' = _nSeqMatches j).
Proof.
  intros Hr. unfold match_hash.
  assert (Hno : exists j' thismatch' blocks_matched',
             Some (j, thismatch, blocks_matched)
             = Some (j', thismatch', blocks_matched')
             /\ scan_ready fuel j'
             /\ chain_keeps j j'
             /\ (blocks_matched' = blocks_matched
                 \/ blocks_matched' = _nSeqMatches j)).
  { exists j, thismatch, blocks_matched. split; [reflexivity|].
    split; [assumption|]. split; [apply chain_keeps_refl|auto]. }
  destruct (thismatch =? 0); [|exact Hno].
  pose proof Hr as (_ & _ & Hh). apply hashes_built_parts in Hh.
  destruct Hh as [Hrs Hbit]. rewrite Hbit. cbn [negb].
  destruct (negb _); [|exact Hno].
  rewrite Hrs. cbn [negb].
  destruct (zget None (rsumHash j) _) as [e|]; [|exact Hno].
  destruct (checkCheckSumsOnHashChain_terminates fuel j e data false Hr)
    as (j' & got & E & Hr' & K').
  rewrite E. eexists _, _, _. split; [reflexivity|].
  split; [assumption|]. split; [assumption|].
  destruct (got =? 0); [auto|]. right.
  destruct K' as (Hc & _). config_fields Hc. assumption.
Qed.

(** The loop of [submitSourceData] ends: every iteration returns or moves
    the window forward, and the window never passes the end of the
    data. *)
Lemma submit_loop_terminates fuel steps : forall j data len x got,
  scan_ready fuel j ->
  1 <= _nBlockSize j ->
  x + _nContext j <= len ->
  (Z.to_nat (len - _nContext j - x) < steps)%nat ->
  exists j' got',
    submit_loop md4 fuel steps j data len x got = Some (j', got')
    /\ scan_ready fuel j'
    /\ config_of j' = config_of j
    /\ (_nSkip j' = _nSkip j \/ 0 < _nSkip j' <= hit_step j).
Proof.
  induction steps as [|steps IH]; intros j data len x got Hr Hbs Hx Hsteps; [lia|].
  cbn [submit_loop].
  destruct (Z.eqb_spec (x + _nContext j) len) as [Heq|Hne].
  { exists j, got. repeat split; try apply Hr; auto. }
  destruct (match_next_terminates fuel j (advance data x) Hr)
    as (j1 & tm1 & bm1 & E1 & Hr1 & K1 & Hbm1).
  rewrite E1.
  destruct (match_hash_terminates fuel j1 (advance data x) tm1 bm1 Hr1)
    as (j2 & tm2 & bm2 & E2 & Hr2 & K2 & Hbm2).
  rewrite E2.
  pose proof (chain_keeps_trans _ _ _ K1 K2) as (Hc & Hlen & Hskip & Hsums).
  pose proof K1 as (Hc1 & _).
  pose proof (config_of_fields _ _ Hc1) as (_ & _ & _ & _ & _ & Hseq1 & _).
  config_fields Hc.
  assert (Hstep : forall x' sums,
            x < x' -> x' + _nContext j <= len ->
            exists j' got',
              submit_loop md4 fuel steps (set_pCurrentWeakCheckSums j2 sums)
                data len x' (got + tm2) = Some (j', got')
              /\ scan_ready fuel j'
              /\ config_of j' = config_of j
              /\ (_nSkip j' = _nSkip j \/ 0 < _nSkip j' <= hit_step j)).
  { intros x' sums Hx' Hfit.
    destruct (IH (set_pCurrentWeakCheckSums j2 sums) data len x' (got + tm2))
      as (j' & got' & E & Hr' & Hc' & Hs').
    - apply (scan_ready_same fuel j2); [reflexivity|reflexivity|assumption].
    - change (_nBlockSize (set_pCurrentWeakCheckSums j2 sums)) with (_nBlockSize j2).
      lia.
    - change (_nContext (set_pCurrentWeakCheckSums j2 sums)) with (_nContext j2).
      lia.
    - change (_nContext (set_pCurrentWeakCheckSums j2 sums)) with (_nContext j2).
      lia.
    - exists j', got'. split; [assumption|]. split; [assumption|].
      split; [rewrite Hc'; exact Hc|].
      change (_nSkip (set_pCurrentWeakCheckSums j2 sums)) with (_nSkip j2) in Hs'.
      unfold hit_step in *.
      change (_nBlockSize (set_pCurrentWeakCheckSums j2 sums))
        with (_nBlockSize j2) in Hs'.
      change (_nSeqMatches (set_pCurrentWeakCheckSums j2 sums))
        with (_nSeqMatches j2) in Hs'.
      rewrite Hbs0, Hseq, Hskip in Hs'. exact Hs'. }
  destruct (Z.eqb_spec bm2 0) as [Hbm0|Hbm0]; cbn [negb].
  - apply Hstep; lia.
  - set (x' := x + (_nBlockSize j + (if 1 <? bm2 then _nBlockSize j else 0))).
    assert (Hjump : x < x' <= x + hit_step j).
    { unfold x', hit_step.
      destruct (Z.ltb_spec 1 bm2); destruct (Z.ltb_spec 1 (_nSeqMatches j)); lia. }
    destruct (Z.ltb_spec len (x' + _nContext j2)) as [Hpast|Hfit].
    + eexists _, _. split; [reflexivity|].
      split; [apply (scan_ready_same fuel j2); [reflexivity|reflexivity|assumption]|].
      split; [exact Hc|]. right. cbn [_nSkip set_nSkip]. lia.
    + apply Hstep; lia.
Qed.

End ChainSound.

(** ** Scanning a buffer: what is written has been compared *)

Section ScanSound.

Variable md4 : list byte -> list byte.

Lemma taken_from_advance data x w :
  0 <= x -> taken_from (advance data x) w -> taken_from data w.
Proof.
  intros Hx (y & Hy & E). exists (x + y). split; [lia|].
  rewrite E at 1. apply window_ext. intros k Hk.
  rewrite byte_at_advance' by lia. f_equal. lia.
Qed.

Lemma taken_from_ext data data' w :
  (forall k, 0 <= k -> byte_at data k = byte_at data' k) ->
  taken_from data w -> taken_from data' w.
Proof.
  intros H (y & Hy & E). exists y. split; [assumption|].
  rewrite E at 1. apply window_ext. intros k Hk. apply H. lia.
Qed.

Lemma scan_step_refl data j : scan_step md4 data j j.
Proof. split; [apply scan_frame_refl|apply verified_writes_refl]. Qed.

Lemma scan_step_trans data j1 j2 j3 :
  scan_step md4 data j1 j2 -> scan_step md4 data j2 j3 ->
  scan_step md4 data j1 j3.
Proof.
  intros [A1 A2] [B1 B2]. split.
  - eapply scan_frame_trans; eassumption.
  - eapply verified_writes_trans; eassumption.
Qed.

(** A walk with the window at [x] of the buffer is a step of the scan of
    the buffer. *)
Lemma chain_step_scan_step data x j j' :
  0 <= x -> chain_step md4 (advance data x) j j' -> scan_step md4 data j j'.
Proof.
  intros Hx (A & _ & _ & ws & E & F). split; [assumption|].
  exists ws. split; [exact E|].
  eapply Forall_impl; [|exact F]. intros w [Hw Ht].
  split; [exact Hw|]. eapply taken_from_advance; eassumption.
Qed.

Lemma scan_step_same j j' :
  config_of j' = config_of j ->
  blockHashes j' = blockHashes j ->
  _pTargetFile j' = _pTargetFile j ->
  forall data, scan_step md4 data j j'.
Proof.
  intros Hc Hb Hf data. split; [split; [assumption|]|].
  - split; [rewrite Hb; reflexivity|]. intros e. unfold entry. rewrite Hb. auto.
  - exists []. split; [rewrite Hf; reflexivity|constructor].
Qed.

Lemma scan_step_seq data j j' :
  scan_step md4 data j j' -> _nSeqMatches j' = _nSeqMatches j.
Proof.
  intros [[Hc _] _].
  pose proof (config_of_fields _ _ Hc) as (_ & _ & _ & _ & _ & Hseq & _).
  exact Hseq.
Qed.

Lemma scan_step_aligned data j j' :
  scan_step md4 data j j' -> aligned j -> aligned j'.
Proof. intros [[Hc _] _]. apply aligned_same. exact Hc. Qed.

Lemma match_next_sound fuel j data x j' thismatch blocks_matched :
  _nSeqMatches j <= 2 ->
  aligned j -> ids_nonneg j -> 0 <= x ->
  match_next md4 fuel j (advance data x) = Some (j', thismatch, blocks_matched) ->
  scan_step md4 data j j' /\ ids_nonneg j' /\ _nSkip j' = _nSkip j.
Proof.
  intros Hseq Ha Hi Hx H. unfold match_next in H.
  assert (Hsame : Some (j, 0, 0) = Some (j', thismatch, blocks_matched) ->
                  scan_step md4 data j j' /\ ids_nonneg j' /\ _nSkip j' = _nSkip j).
  { intros E. injection E as <- _ _. split; [apply scan_step_refl|auto]. }
  destruct (_pNextMatch j) as [e|] eqn:En; [|exact (Hsame H)].
  destruct (1 <? _nSeqMatches j); [|exact (Hsame H)].
  destruct (checkCheckSumsOnHashChain md4 fuel j e (advance data x) true)
    as [[j1 tm]|] eqn:E; [|discriminate].
  injection H as <- _ _.
  apply checkCheckSumsOnHashChain_sound in E; try assumption.
  - destruct E as [S1 Hi1]. split; [|split; [exact Hi1|]].
    + eapply chain_step_scan_step; eassumption.
    + destruct S1 as (_ & Hs & _). exact Hs.
  - destruct Hi as (_ & _ & _ & H4). rewrite En in H4. cbn in H4.
    apply Z.leb_le. exact H4.
Qed.

Lemma match_hash_sound fuel j data x thismatch blocks_matched
    j' thismatch' blocks_matched' :
  _nSeqMatches j <= 2 ->
  aligned j -> ids_nonneg j -> 0 <= x ->
  match_hash md4 fuel j (advance data x) thismatch blocks_matched
  = Some (j', thismatch', blocks_matched') ->
  scan_step md4 data j j' /\ ids_nonneg j' /\ _nSkip j' = _nSkip j.
Proof.
  intros Hseq Ha Hi Hx H. unfold match_hash in H.
  assert (Hsame : Some (j, thismatch, blocks_matched)
                  = Some (j', thismatch', blocks_matched') ->
                  scan_step md4 data j j' /\ ids_nonneg j' /\ _nSkip j' = _nSkip j).
  { intros E. injection E as <- _ _. split; [apply scan_step_refl|auto]. }
  destruct (thismatch =? 0); [|exact (Hsame H)].
  destruct (negb (is_some (_pBitHash j))); [discriminate|].
  destruct (negb (_ =? 0)); [|exact (Hsame H)].
  destruct (negb (is_some (_pRsumHash j))); [discriminate|].
  destruct (zget None (rsumHash j) _) as [e|] eqn:Eb; [|exact (Hsame H)].
  destruct (checkCheckSumsOnHashChain md4 fuel j e (advance data x) false)
    as [[j1 tm]|] eqn:E; [|discriminate].
  injection H as <- _ _.
  apply checkCheckSumsOnHashChain_sound in E; try assumption.
  - destruct E as [S1 Hi1]. split; [|split; [exact Hi1|]].
    + eapply chain_step_scan_step; eassumption.
    + destruct S1 as (_ & Hs & _). exact Hs.
  - destruct Hi as (H1 & _).
    match type of Eb with zget None _ ?b = _ => specialize (H1 b) end.
    rewrite Eb in H1. cbn in H1. apply Z.leb_le. exact H1.
Qed.

Lemma ids_nonneg_set_sums j sums :
  ids_nonneg j -> ids_nonneg (set_pCurrentWeakCheckSums j sums).
Proof. intros (H1 & H2 & H3 & H4). repeat split; assumption. Qed.

Lemma submit_loop_sound fuel steps : forall j data len x got j' got',
  _nSeqMatches j <= 2 ->
  aligned j -> ids_nonneg j -> 0 <= x ->
  submit_loop md4 fuel steps j data len x got = Some (j', got') ->
  scan_step md4 data j j' /\ ids_nonneg j'
  /\ (_nSkip j' = _nSkip j \/ 0 < _nSkip j').
Proof.
  induction steps as [|steps IH]; intros j data len x got j' got' Hseq Ha Hi Hx H;
    cbn [submit_loop] in H; [discriminate|].
  destruct (x + _nContext j =? len);
    [injection H as <- _; split; [apply scan_step_refl|auto]|].
  destruct (match_next md4 fuel j (advance data x)) as [[[j1 tm1] bm1]|] eqn:E1;
    [|discriminate].
  apply match_next_sound in E1; try assumption.
  destruct E1 as (E1 & Hi1 & Hs1).
  pose proof (scan_step_seq _ _ _ E1) as Q1.
  pose proof (scan_step_aligned _ _ _ E1 Ha) as Ha1.
  destruct (match_hash md4 fuel j1 (advance data x) tm1 bm1)
    as [[[j2 tm2] bm2]|] eqn:E2; [|discriminate].
  apply match_hash_sound in E2; try assumption; [|lia].
  destruct E2 as (E2 & Hi2 & Hs2).
  pose proof (scan_step_seq _ _ _ E2) as Q2.
  pose proof (scan_step_aligned _ _ _ E2 Ha1) as Ha2.
  pose proof (scan_step_trans _ _ _ _ E1 E2) as S2.
  pose proof (aligned_block_size _ Ha) as Hbs.
  assert (Hrec : forall sums x',
             0 <= x' ->
             submit_loop md4 fuel steps (set_pCurrentWeakCheckSums j2 sums)
               data len x' (got + tm2) = Some (j', got') ->
             scan_step md4 data j j' /\ ids_nonneg j'
             /\ (_nSkip j' = _nSkip j \/ 0 < _nSkip j')).
  { intros sums x' Hx' H'.
    assert (Hseq3 : _nSeqMatches (set_pCurrentWeakCheckSums j2 sums) <= 2)
      by (cbn [_nSeqMatches set_pCurrentWeakCheckSums]; lia).
    assert (Ha3 : aligned (set_pCurrentWeakCheckSums j2 sums)) by exact Ha2.
    pose proof (ids_nonneg_set_sums j2 sums Hi2) as Hi3'.
    destruct (IH _ _ _ _ _ _ _ Hseq3 Ha3 Hi3' Hx' H') as (S3 & Hi3 & Hs3).
    split; [|split; [exact Hi3|]].
    - eapply scan_step_trans; [exact S2|].
      eapply scan_step_trans; [|exact S3]. apply scan_step_same; reflexivity.
    - cbn [_nSkip set_pCurrentWeakCheckSums] in Hs3. rewrite Hs2, Hs1 in Hs3.
      exact Hs3. }
  destruct (negb (bm2 =? 0)).
  - match type of H with
    | (if len <? ?x' + _ then _ else _) = _ => set (x1 := x') in H
    end.
    assert (Hx1 : 0 <= x1).
    { unfold x1. destruct (1 <? bm2); lia. }
    destruct (Z.ltb_spec len (x1 + _nContext j2)) as [Hpast|Hfit].
    + injection H as <- _. split; [|split].
      * eapply scan_step_trans; [exact S2|]. apply scan_step_same; reflexivity.
      * destruct Hi2 as (G1 & G2 & G3 & G4).
        split; [exact G1|split; [exact G2|split; [exact G3|exact G4]]].
      * right. cbn [_nSkip set_nSkip]. lia.
    + eapply Hrec; [|exact H]. exact Hx1.
  - eapply Hrec; [|exact H]. lia.
Qed.

Lemma submitSourceData_sound fuel j data len offset j' got :
  _nSeqMatches j <= 2 ->
  aligned j -> ids_nonneg j ->
  (offset = 0 \/ 0 <= _nSkip j) ->
  submitSourceData md4 fuel j data len offset = Some (j', got) ->
  scan_step md4 data j j' /\ ids_nonneg j' /\ 0 <= _nSkip j'.
Proof.
  intros Hseq Ha Hi Hoff H. unfold submitSourceData in H.
  apply submit_loop_sound in H.
  - destruct H as (S1 & Hi1 & Hs1). split; [|split; [exact Hi1|]].
    + eapply scan_step_trans; [|exact S1].
      apply scan_step_same;
        destruct (offset =? 0); destruct (negb _ || _); reflexivity.
    + cbn [_nSkip set_nSkip] in Hs1. lia.
  - destruct (offset =? 0); destruct (negb _ || _); exact Hseq.
  - destruct (offset =? 0); destruct (negb _ || _); exact Ha.
  - destruct Hi as (H1 & H2 & H3 & H4).
    destruct (offset =? 0); destruct (negb _ || _); repeat split; assumption.
  - destruct (Z.eqb_spec offset 0); lia.
Qed.

Lemma file_step_refl j : file_step md4 j j.
Proof.
  split; [apply scan_frame_refl|]. exists []. split; [reflexivity|constructor].
Qed.

Lemma file_step_trans j1 j2 j3 :
  file_step md4 j1 j2 -> file_step md4 j2 j3 -> file_step md4 j1 j3.
Proof.
  intros [A1 (ws1 & E1 & F1)] [B1 (ws2 & E2 & F2)]. split.
  - eapply scan_frame_trans; eassumption.
  - exists (ws2 ++ ws1). split.
    + rewrite E2, E1. apply app_assoc.
    + apply Forall_app. split; [|assumption].
      eapply Forall_impl; [|exact F2].
      intros w. apply verified_write_frame. assumption.
Qed.

Lemma scan_step_file_step data j j' : scan_step md4 data j j' -> file_step md4 j j'.
Proof.
  intros [A (ws & E & F)]. split; [assumption|]. exists ws. split; [exact E|].
  eapply Forall_impl; [|exact F]. intros w [Hw _]. exact Hw.
Qed.

Lemma source_loop_sound fuel rounds : forall j file buf in_ got j' got',
  _nSeqMatches j <= 2 ->
  aligned j -> ids_nonneg j ->
  (in_ = 0 \/ 0 <= _nSkip j) ->
  source_loop md4 fuel rounds j file buf in_ got = Some (j', got') ->
  file_step md4 j j'.
Proof.
  induction rounds as [|rounds IH];
    intros j file buf in_ got j' got' Hseq Ha Hi Hin H;
    cbn [source_loop] in H; [discriminate|].
  destruct (QFile_atEnd file); [injection H as <- _; apply file_step_refl|].
  destruct (in_ =? 0).
  - destruct (QFile_read file (_nBlockSize j * 16)) as [bytes file1].
    destruct (submitSourceData md4 fuel j _ _ in_) as [[j1 got1]|] eqn:E;
      [|discriminate].
    apply submitSourceData_sound in E; try assumption.
    destruct E as (E & Hi1 & Hs1).
    eapply file_step_trans; [eapply scan_step_file_step; exact E|].
    eapply IH; [| | | |exact H].
    + rewrite (scan_step_seq _ _ _ E). assumption.
    + exact (scan_step_aligned _ _ _ E Ha).
    + exact Hi1.
    + right. exact Hs1.
  - destruct (QFile_read file (_nBlockSize j * 16 - _nContext j)) as [bytes file1].
    destruct (submitSourceData md4 fuel j _ _ in_) as [[j1 got1]|] eqn:E;
      [|discriminate].
    apply submitSourceData_sound in E; try assumption.
    destruct E as (E & Hi1 & Hs1).
    eapply file_step_trans; [eapply scan_step_file_step; exact E|].
    eapply IH; [| | | |exact H].
    + rewrite (scan_step_seq _ _ _ E). assumption.
    + exact (scan_step_aligned _ _ _ E Ha).
    + exact Hi1.
    + right. exact Hs1.
Qed.

End ScanSound.

(** ** The chains [buildHash] builds *)

Lemma zget_repeat {A} (d v : A) n k : zget d (repeat v n) k = v \/ zget d (repeat v n) k = d.
Proof.
  unfold zget. destruct (k <? 0); [auto|].
  destruct (Nat.lt_ge_cases (Z.to_nat k) n).
  - left. apply nth_repeat_lt. assumption.
  - right. apply nth_overflow. rewrite repeat_length. assumption.
Qed.

Lemma buildHash_fill_keeps id : forall j,
  let j' := buildHash_fill j id in
  params_of j' = params_of j
  /\ scan_state_of j' = scan_state_of j
  /\ same_checksums j j'.
Proof.
  induction id as [|id IH]; intros j; cbv zeta.
  - split; [reflexivity|]. split; [reflexivity|apply same_checksums_refl].
  - cbn [buildHash_fill].
    match goal with |- context [buildHash_fill ?j0 id] =>
      destruct (IH j0) as (H1 & H2 & H3);
      assert (S0 : same_checksums j j0)
    end.
    { match goal with |- same_checksums j (set_pBitHash (set_pRsumHash ?j1 _) _) =>
        change (same_checksums j j1) end.
      apply same_checksums_set_entry_next. }
    split; [rewrite H1; reflexivity|]. split; [rewrite H2; reflexivity|].
    eapply same_checksums_trans; eassumption.
Qed.

Lemma buildHash_keeps j :
  let j' := snd (buildHash j) in
  params_of j' = params_of j
  /\ scan_state_of j' = scan_state_of j
  /\ same_checksums j j'.
Proof.
  cbv zeta. unfold buildHash. cbn [snd].
  match goal with |- context [buildHash_fill ?j0 ?n] =>
    destruct (buildHash_fill_keeps n j0) as (H1 & H2 & H3) end.
  split; [rewrite H1; reflexivity|]. split; [rewrite H2; reflexivity|].
  exact H3.
Qed.

Lemma buildHash_fill_links id : forall j,
  (forall e v, Z.of_nat id <= e -> Entry.next (entry j e) = Some v -> e < v) ->
  (forall b e', zget None (rsumHash j) b = Some e' -> Z.of_nat id <= e') ->
  links_ascend (buildHash_fill j id).
Proof.
  induction id as [|id IH]; intros j Ha Hb.
  - cbn [buildHash_fill]. intros e v Hv.
    destruct (Z_lt_dec e 0);
      [rewrite entry_outside in Hv by lia; discriminate|].
    apply Ha; [lia|assumption].
  - cbn [buildHash_fill]. apply IH.
    + intros e v He Hv.
      match type of Hv with
      | Entry.next (entry (set_pBitHash (set_pRsumHash ?j1 _) _) _) = _ =>
          change (Entry.next (entry j1 e) = Some v) in Hv
      end.
      rewrite entry_set_entry_next in Hv.
      destruct ((e =? Z.of_nat id) && (0 <=? Z.of_nat id)
                && (Z.of_nat id <? Z.of_nat (length (blockHashes j)))) eqn:E.
      * cbn [Entry.next] in Hv. apply Hb in Hv.
        apply andb_true_iff in E. destruct E as [E _].
        apply andb_true_iff in E. destruct E as [E _]. apply Z.eqb_eq in E. lia.
      * destruct (Z.eq_dec e (Z.of_nat id)) as [->|Hne].
        -- destruct (Z.eqb_spec (Z.of_nat id) (Z.of_nat id)); [|lia].
           destruct (Z.leb_spec 0 (Z.of_nat id)); [|lia].
           destruct (Z.ltb_spec (Z.of_nat id) (Z.of_nat (length (blockHashes j))));
             [discriminate|].
           rewrite entry_outside in Hv by lia. discriminate.
        -- apply Ha; [lia|assumption].
    + intros b e' Hh.
      match type of Hh with
      | zget None (rsumHash (set_pBitHash ?j2 _)) _ = _ =>
          change (zget None (rsumHash j2) b = Some e') in Hh
      end.
      unfold rsumHash at 1 in Hh. cbn [_pRsumHash set_pRsumHash] in Hh.
      rewrite zget_zset_any in Hh.
      destruct ((b =? _) && _ && _).
      * injection Hh as <-. lia.
      * match type of Hh with
        | zget None (rsumHash (set_entry_next _ _ _)) _ = _ =>
            change (zget None (rsumHash j) b = Some e') in Hh
        end.
        apply Hb in Hh. lia.
Qed.

Lemma buildHash_links j : links_ascend j -> links_ascend (snd (buildHash j)).
Proof.
  intros Hl. unfold buildHash. cbn [snd]. apply buildHash_fill_links.
  - intros e v _ Hv. apply (Hl e v). exact Hv.
  - intros b e' Hh. unfold rsumHash in Hh. cbn [_pRsumHash set_pBitHash
      set_pBitHashMask set_pRsumHash] in Hh.
    destruct (zget_repeat (@None Z) None
                (Z.to_nat (_pHashMask (set_pHashMask j
                   (Z.shiftl 2 (hash_size_loop (_nBlocks j) 16) - 1)) + 1)) b)
      as [E|E]; rewrite E in Hh; discriminate.
Qed.

(** ** The scan: termination, and what it writes *)

Section ScanClaims.

Variable md4 : list byte -> list byte.

Lemma submitSourceData_ends fuel j data len offset :
  scan_ready fuel j ->
  1 <= _nBlockSize j ->
  (if offset =? 0 then 0 else _nSkip j) + _nContext j <= len ->
  len - _nContext j - (if offset =? 0 then 0 else _nSkip j) < Z.of_nat fuel ->
  exists j' got,
    submitSourceData md4 fuel j data len offset = Some (j', got)
    /\ scan_ready fuel j'
    /\ config_of j' = config_of j
    /\ 0 <= _nSkip j' <= hit_step j.
Proof.
  intros Hr Hbs Hx Hfuel. unfold submitSourceData.
  match goal with |- context [submit_loop md4 fuel fuel ?j0 data len ?x 0] =>
    destruct (submit_loop_terminates md4 fuel fuel j0 data len x 0)
      as (j' & got & E & Hr' & Hc' & Hs')
  end.
  - eapply scan_ready_same; [| |exact Hr];
      destruct (offset =? 0); destruct (negb _ || _); reflexivity.
  - replace (_nBlockSize _) with (_nBlockSize j); [assumption|].
    destruct (offset =? 0); destruct (negb _ || _); reflexivity.
  - replace (_nContext _) with (_nContext j); [assumption|].
    destruct (offset =? 0); destruct (negb _ || _); reflexivity.
  - replace (_nContext _) with (_nContext j); [lia|].
    destruct (offset =? 0); destruct (negb _ || _); reflexivity.
  - exists j', got. split; [exact E|]. split; [exact Hr'|].
    split.
    + rewrite Hc'. destruct (offset =? 0); destruct (negb _ || _); reflexivity.
    + assert (Hh : hit_step
                (set_nSkip
                   (if negb ((if offset =? 0 then 0 else _nSkip j) =? 0)
                       || (offset =? 0)
                    then
                      set_pCurrentWeakCheckSums
                        (if offset =? 0 then set_pNextMatch j None else j)
                        (calc_rsum_block
                           (advance data (if offset =? 0 then 0 else _nSkip j))
                           (_nBlockSize j),
                         if 1 <? _nSeqMatches
                                   (if offset =? 0 then set_pNextMatch j None else j)
                         then calc_rsum_block
                                (advance data
                                   ((if offset =? 0 then 0 else _nSkip j)
                                    + _nBlockSize j)) (_nBlockSize j)
                         else snd (_pCurrentWeakCheckSums
                                     (if offset =? 0 then set_pNextMatch j None
                                      else j)))
                    else if offset =? 0 then set_pNextMatch j None else j) 0)
                = hit_step j)
        by (destruct (offset =? 0); destruct (negb _ || _); reflexivity).
      rewrite Hh in Hs'. cbn [_nSkip set_nSkip] in Hs'.
      assert (0 <= hit_step j)
        by (unfold hit_step; destruct (1 <? _nSeqMatches j); lia).
      lia.
Qed.

(** C10: [submitSourceData(data, len, offset)] ends whenever the first
    window fits, [x + context <= len] for [x] the carried-over skip or 0,
    on a job whose hashes are built, whose chains ascend and whose block
    size is positive, given fuel for its loops; the skip it leaves is 0
    or at most one step of a hit, and the hashes and the order of the
    chains are kept for the next call. *)
Theorem submitSourceData_terminates fuel j data len offset :
  hashes_built j = true ->
  links_ascendb j = true ->
  1 <= _nBlockSize j ->
  let x := if offset =? 0 then 0 else _nSkip j in
  x + _nContext j <= len ->
  Z.of_nat (length (blockHashes j)) + 1 < Z.of_nat fuel ->
  len - _nContext j - x < Z.of_nat fuel ->
  exists j' got,
    submitSourceData md4 fuel j data len offset = Some (j', got)
    /\ links_ascendb j' = true
    /\ config_of j' = config_of j
    /\ 0 <= _nSkip j' <= hit_step j
    /\ hashes_built j' = true.
Proof.
  intros Hh Hl Hbs x Hx Hf1 Hf2.
  destruct (submitSourceData_ends fuel j data len offset)
    as (j' & got & E & (Hl' & _ & Hh') & Hc' & Hs'); try assumption.
  - split; [apply links_ascendb_ok; assumption|]. split; [lia|assumption].
  - exists j', got. split; [exact E|].
    split; [apply links_ascendb_ok; assumption|auto].
Qed.

Lemma verified_write_params j j' w :
  params_of j' = params_of j -> same_checksums j j' ->
  verified_write md4 j' w -> verified_write md4 j w.
Proof.
  intros Hp [_ Hs] (id & num & Hid & Hnum & Hpos & Hlen & Hv).
  unfold params_of in Hp. injection Hp as Hbs Hoff _ _ _ Hsb _ _ Hsh.
  exists id, num. rewrite <- Hbs, <- Hsh, <- Hoff.
  repeat split; try assumption.
  intros k Hk. specialize (Hv k Hk). unfold strong_match in *.
  destruct (Hs (id + k)) as [_ Hck]. rewrite <- Hck, <- Hsb. exact Hv.
Qed.

(** The job [submitSourceFile] scans with: the job itself, or the job
    with its hash built. *)
Lemma scanned_job_keeps j :
  let j1 := if is_some (_pRsumHash j) then j else snd (buildHash j) in
  params_of j1 = params_of j /\ scan_state_of j1 = scan_state_of j
  /\ same_checksums j j1
  /\ (ids_nonneg j -> ids_nonneg j1).
Proof.
  cbv zeta. destruct (is_some (_pRsumHash j)).
  - split; [reflexivity|]. split; [reflexivity|].
    split; [apply same_checksums_refl|auto].
  - destruct (buildHash_keeps j) as (A & B & C).
    split; [exact A|]. split; [exact B|]. split; [exact C|].
    apply buildHash_ids.
Qed.

Lemma submitSourceFile_sound fuel j file j' got :
  _nSeqMatches j <= 2 ->
  aligned j -> ids_nonneg j ->
  submitSourceFile md4 fuel j file = Some (j', got) ->
  exists ws,
    file_journal (_pTargetFile j') = ws ++ file_journal (_pTargetFile j)
    /\ Forall (verified_write md4 j) ws.
Proof.
  intros Hseq Ha Hi H. unfold submitSourceFile in H.
  pose proof (scanned_job_keeps j) as H1. cbv zeta in H1.
  set (j1 := if is_some (_pRsumHash j) then j else snd (buildHash j)) in *.
  destruct H1 as (Hp & Hst & Hck & Hi1). specialize (Hi1 Hi).
  assert (Hp' := Hp). unfold params_of in Hp'.
  injection Hp' as Hbs Hoff _ _ _ _ Hsq _ Hsh.
  apply source_loop_sound in H.
  - destruct H as [_ (ws & Hj & Hws)]. exists ws. split.
    + rewrite Hj. unfold scan_state_of in Hst. injection Hst as -> _ _ _ _ _ _.
      reflexivity.
    + eapply Forall_impl; [|exact Hws]. intros w.
      apply verified_write_params; assumption.
  - rewrite Hsq. exact Hseq.
  - destruct Ha as (A1 & A2 & A3). unfold aligned. rewrite Hsh, Hbs, Hoff. auto.
  - exact Hi1.
  - left. reflexivity.
Qed.

(** C2, amended: with a block size that is the power of two of the block
    shift and block ids that are not negative, every write to the target
    file made while a seed file is scanned, by the fast path or by the
    walk of a chain, is a write of blocks that have passed the strong
    comparison: it is at the position of a block [id], its bytes are a
    number of blocks, and the [k]-th of them passes the comparison with
    the stored checksum of block [id + k]. *)
Theorem written_blocks_pass_strong_check fuel j file j' got :
  _nSeqMatches j <= 2 ->
  0 <= _nBlockShift j ->
  _nBlockSize j = 2 ^ _nBlockShift j ->
  0 <= _nBlockIdOffset j ->
  ids_nonnegb j = true ->
  submitSourceFile md4 fuel j file = Some (j', got) ->
  exists ws,
    file_journal (_pTargetFile j') = ws ++ file_journal (_pTargetFile j)
    /\ Forall (verified_write md4 j) ws.
Proof.
  intros Hseq Hsh Hbs Hoff Hi. apply submitSourceFile_sound; [exact Hseq| |].
  - split; [exact Hsh|]. split; [exact Hbs|exact Hoff].
  - apply ids_nonnegb_ok. exact Hi.
Qed.

End ScanClaims.

Lemma submitSourceData_terminates_witness :
  let j := Scenario.hashed Scenario.seed1 in
  let data := Scenario.seed1 ++ repeat x00 4 in
  exists j' got,
    submitSourceData MD4.md4 30 j data 20 0 = Some (j', got)
    /\ links_ascendb j' = true
    /\ config_of j' = config_of j
    /\ 0 <= _nSkip j' <= hit_step j
    /\ hashes_built j' = true.
Proof.
  intros j data.
  apply (submitSourceData_terminates MD4.md4 30 j data 20 0); by_computation.
Defined.

(** C2, as stated, fails for a block size that is not a power of two:
    with [block_size = 3] the block shift is 1, so that scanning the
    target "abcdefghi" itself obtains its three blocks and writes two
    bytes for each, at the positions 0, 2 and 4; the bytes written for a
    block are not its [block_size] bytes, and their digest agrees with
    the stored checksum of no block. *)
Lemma two_bytes_written_for_blocks_of_three :
  let T := [x61; x62; x63; x64; x65; x66; x67; x68; x69] in
  let j := snd (parseTargetFileCheckSumBlocks stale_stack (job_for T T 3 0 3 4 16 1)) in
  _nBlockSize j = 3 /\ _nBlockShift j = 1
  /\ option_map
       (fun r => (snd r, file_journal (_pTargetFile (fst r))))
       (submitSourceFile MD4.md4 40 j (mk_file T 0 []))
     = Some (3, [(4, [x67; x68]); (2, [x64; x65]); (0, [x61; x62])])
  /\ forallb
       (fun bytes =>
          forallb
            (fun id =>
               negb (memcmp_eq (MD4.md4 bytes) (Entry.checksum (entry j id))
                       (_nStrongCheckSumBytes j)))
            [0; 1; 2])
       [[x67; x68]; [x64; x65]; [x61; x62]]
     = true.
Proof. repeat split; by_computation. Qed.

Lemma written_blocks_pass_strong_check_witness :
  let j := Scenario.parsed Scenario.seed1 in
  let file := mk_file Scenario.seed1 0 [] in
  exists j' got,
    submitSourceFile MD4.md4 30 j file = Some (j', got)
    /\ exists ws,
         file_journal (_pTargetFile j') = ws ++ file_journal (_pTargetFile j)
         /\ Forall (verified_write MD4.md4 j) ws.
Proof.
  intros j file.
  destruct (submitSourceFile MD4.md4 30 j file) as [[j' got]|] eqn:E.
  - exists j', got. split; [reflexivity|].
    apply (written_blocks_pass_strong_check MD4.md4 30 j file j' got);
      [by_computation..|exact E].
  - vm_compute in E. discriminate E.
Defined.

(** ** The first block with a property *)







(** ** Known blocks *)







(** ** Unlinking a block that has been obtained *)

















(** ** The walk of a chain when one block at a time is matched *)






Section Walk.

Variable md4 : list byte -> list byte.







End Walk.

(** ** A step of the scan when one block at a time is matched *)





Section Match.

Variable md4 : list byte -> list byte.




End Match.

(** ** The scan of a buffer that holds the target *)

Lemma progress_mono j j' p p' :
  config_of j' = config_of j ->
  (forall y, unknown j' y = true -> unknown j y = true) ->
  progress j p -> p' <= p -> progress j' p'.
Proof.
  intros Hc Hmono Hp Hle e He Hlt. config_fields Hc.
  destruct (unknown j' e) eqn:Eu; [|reflexivity].
  apply Hmono in Eu. rewrite Hp in Eu; [discriminate|lia|lia].
Qed.

Section Submit.

Variable md4 : list byte -> list byte.




End Submit.

(** ** The buffer of [submitSourceFile] *)



Lemma byte_at_outside data k :
  k < 0 \/ Z.of_nat (length data) <= k -> byte_at data k = x00.
Proof. apply zget_outside. Qed.

Lemma byte_at_blit buf off bytes k :
  0 <= k < Z.of_nat (length buf) ->
  byte_at (blit buf off bytes) k
  = if (off <=? k) && (k <? off + Z.of_nat (length bytes))
    then byte_at bytes (k - off) else byte_at buf k.
Proof.
  intros Hk. unfold blit, byte_at at 1. rewrite zget_tabulate by assumption.
  reflexivity.
Qed.

Lemma blit_length buf off bytes : length (blit buf off bytes) = length buf.
Proof. apply tabulate_length. Qed.

Lemma byte_at_repeat n k : byte_at (repeat x00 n) k = x00.
Proof.
  unfold byte_at. destruct (zget_repeat x00 x00 n k); assumption.
Qed.



(** ** The scan of one buffer of the seed file *)



Section Chunk.

Variable md4 : list byte -> list byte.







End Chunk.

(** ** The scan of a seed file that is the target *)




Section Source.

Variable md4 : list byte -> list byte.


End Source.

(** ** A seed shorter than the context *)

(** C9, as stated, fails: the seed "AB" is shorter than the context of 4
    bytes, and scanning it against the target "AB", whose one block is
    "AB" padded with zeros, obtains that block: the seed is padded with
    [context] zero bytes before it is scanned. *)
Lemma short_seed_matches_padded_block :
  let seed := [x41; x42] in
  let j :=
    snd (parseTargetFileCheckSumBlocks stale_stack
           (job_for seed seed 4 0 1 4 16 1)) in
  Z.of_nat (length seed) < _nContext j
  /\ option_map
       (fun r => (snd r, file_journal (_pTargetFile (fst r))))
       (submitSourceFile MD4.md4 20 j (mk_file seed 0 []))
     = Some (1, [(0, [x41; x42; x00; x00])]).
Proof. split; by_computation. Qed.

Lemma buildHash_fill_built id : forall j,
  hashes_built j = true -> hashes_built (buildHash_fill j id) = true.
Proof.
  induction id as [|id IH]; intros j H; cbn [buildHash_fill]; [exact H|].
  apply IH. reflexivity.
Qed.

Lemma buildHash_built j : hashes_built (snd (buildHash j)) = true.
Proof. unfold buildHash. cbn [snd]. apply buildHash_fill_built. reflexivity. Qed.

(** The buffer of the only round of the scan of a short seed holds the
    seed followed by zeros. *)
Lemma padded_seed_bytes n seed ctx k :
  (length seed <= n)%nat -> 0 <= k ->
  byte_at
    (blit (blit (repeat x00 n) 0 seed) (Z.of_nat (length seed)) (repeat x00 ctx))
    k
  = byte_at seed k.
Proof.
  intros Hn Hk.
  destruct (Z_lt_dec k (Z.of_nat n)) as [Hin|Hout].
  - rewrite byte_at_blit by (rewrite blit_length, repeat_length; lia).
    rewrite repeat_length.
    destruct (Z.leb_spec (Z.of_nat (length seed)) k).
    + rewrite (byte_at_outside seed) by lia.
      destruct (k <? _); cbn [andb]; [apply byte_at_repeat|].
      rewrite byte_at_blit by (rewrite repeat_length; lia).
      destruct (Z.leb_spec 0 k); [|lia].
      destruct (Z.ltb_spec k (0 + Z.of_nat (length seed))); [lia|].
      cbn [andb]. apply byte_at_repeat.
    + cbn [andb]. rewrite byte_at_blit by (rewrite repeat_length; lia).
      destruct (Z.leb_spec 0 k); [|lia].
      destruct (Z.ltb_spec k (0 + Z.of_nat (length seed))); [|lia].
      cbn [andb]. f_equal. lia.
  - rewrite byte_at_outside by (rewrite !blit_length, repeat_length; lia).
    rewrite byte_at_outside by lia. reflexivity.
Qed.

Section ShortSeed.

Variable md4 : list byte -> list byte.

Lemma firstn_all_le {A} (l : list A) n : (length l <= n)%nat -> firstn n l = l.
Proof. intros H. apply firstn_all2. assumption. Qed.

(** C9, amended: scanning a seed file shorter than the context, with a
    block size that is the power of two of the block shift, ends; every
    write it makes is a write of blocks that have passed the strong
    comparison, at the position of the first of them, and its bytes are
    bytes of the seed followed by zeros; and an empty seed gives
    [got_blocks = 0] and no write. *)
Theorem short_seed_scan fuel j file :
  links_ascendb j = true ->
  ids_nonnegb j = true ->
  is_some (_pBitHash j) = is_some (_pRsumHash j) ->
  0 <= _nBlockShift j ->
  _nBlockSize j = 2 ^ _nBlockShift j ->
  0 <= _nBlockIdOffset j ->
  1 <= _nSeqMatches j <= 2 ->
  _nContext j = _nBlockSize j * _nSeqMatches j ->
  file_pos file = 0 ->
  Z.of_nat (length (file_data file)) < _nContext j ->
  Z.of_nat (length (blockHashes j)) + Z.of_nat (length (file_data file)) + 2
  <= Z.of_nat fuel ->
  exists j' got,
    submitSourceFile md4 fuel j file = Some (j', got)
    /\ (exists ws,
          file_journal (_pTargetFile j') = ws ++ file_journal (_pTargetFile j)
          /\ Forall (fun w => verified_write md4 j w
                              /\ taken_from (file_data file) w) ws)
    /\ (file_data file = [] ->
        got = 0 /\ file_journal (_pTargetFile j') = file_journal (_pTargetFile j)).
Proof.
  intros Hl Hids Hboth Hsh Hpow Hoff Hseq Hctx Hpos Hshort Hfuel.
  assert (Hbs : 1 <= _nBlockSize j).
  { rewrite Hpow. pose proof (Z.pow_pos_nonneg 2 (_nBlockShift j)). lia. }
  apply links_ascendb_ok in Hl. apply ids_nonnegb_ok in Hids.
  unfold submitSourceFile.
  pose proof (scanned_job_keeps j) as H1. cbv zeta in H1.
  assert (Hh1 : hashes_built
                  (if is_some (_pRsumHash j) then j else snd (buildHash j)) = true).
  { destruct (is_some (_pRsumHash j)) eqn:Er; [|apply buildHash_built].
    apply hashes_built_parts. split; [exact Er|exact Hboth]. }
  assert (Hl1 : links_ascend
                  (if is_some (_pRsumHash j) then j else snd (buildHash j))).
  { destruct (is_some (_pRsumHash j)); [exact Hl|apply buildHash_links; exact Hl]. }
  set (j1 := if is_some (_pRsumHash j) then j else snd (buildHash j)) in *.
  destruct H1 as (Hp & Hst & Hck & Hi1). specialize (Hi1 Hids).
  pose proof Hck as [Hlen _].
  assert (Hp' := Hp). unfold params_of in Hp'.
  injection Hp' as Hbs1 Hoff1 _ _ _ _ Hseq1 Hctx1 Hsh1.
  assert (Hst' := Hst). unfold scan_state_of in Hst'.
  injection Hst' as Hfile1 _ _ _ _ _ _.
  assert (Ha1 : aligned j1)
    by (unfold aligned; rewrite Hsh1, Hbs1, Hoff1; auto).
  destruct fuel as [|rounds]; [lia|]. cbn [source_loop].
  unfold QFile_atEnd at 1, QFile_size. rewrite Hpos.
  destruct (Z.leb_spec (Z.of_nat (length (file_data file))) 0) as [Hempty|Hsome].
  { exists j1, 0. split; [reflexivity|]. split.
    - exists []. split; [rewrite Hfile1; reflexivity|constructor].
    - intros _. split; [reflexivity|]. rewrite Hfile1. reflexivity. }
  cbn [Z.eqb]. unfold QFile_read. rewrite Hpos. cbn [Z.to_nat skipn].
  rewrite firstn_all_le by (rewrite Hbs1; nia).
  unfold QFile_atEnd at 1 2, QFile_size. cbn [file_data file_pos].
  destruct (Z.leb_spec (Z.of_nat (length (file_data file)))
              (0 + Z.of_nat (length (file_data file)))); [|lia].
  match goal with
  | |- context [submitSourceData md4 ?f j1 ?buf ?len 0] =>
      destruct (submitSourceData_ends md4 f j1 buf len 0)
        as (j2 & got & E & _ & _ & _);
        [ | | | |
          pose proof (submitSourceData_sound md4 f j1 buf len 0 j2 got) as Hsound ]
  end.
  - split; [assumption|]. split; [rewrite Hlen; lia|assumption].
  - lia.
  - cbn [Z.eqb]. lia.
  - cbn [Z.eqb]. lia.
  - rewrite E. destruct rounds as [|rounds]; [lia|]. cbn [source_loop].
    unfold QFile_atEnd, QFile_size. cbn [file_data file_pos].
    destruct (Z.leb_spec (Z.of_nat (length (file_data file)))
                (0 + Z.of_nat (length (file_data file)))); [|lia].
    exists j2, (0 + got). split; [reflexivity|]. split.
    + destruct Hsound as ([_ (ws & Ews & Fws)] & _);
        [lia|exact Ha1|exact Hi1|left; reflexivity|exact E|].
      exists ws. split; [rewrite Ews, Hfile1; reflexivity|].
      eapply Forall_impl; [|exact Fws]. intros w [Hw Ht]. split.
      * eapply verified_write_params; eassumption.
      * revert Ht. apply taken_from_ext. intros k Hk.
        apply padded_seed_bytes; [|exact Hk]. nia.
    + intros Hnil. rewrite Hnil in Hsome. cbn in Hsome. lia.
Qed.

End ShortSeed.

Lemma short_seed_scan_witness :
  let seed := [x41; x42] in
  let j :=
    snd (parseTargetFileCheckSumBlocks stale_stack
           (job_for seed seed 4 0 1 4 16 1)) in
  let file := mk_file seed 0 [] in
  exists j' got,
    submitSourceFile MD4.md4 20 j file = Some (j', got)
    /\ (exists ws,
          file_journal (_pTargetFile j') = ws ++ file_journal (_pTargetFile j)
          /\ Forall (fun w => verified_write MD4.md4 j w
                              /\ taken_from (file_data file) w) ws)
    /\ (file_data file = [] ->
        got = 0 /\ file_journal (_pTargetFile j') = file_journal (_pTargetFile j)).
Proof.
  intros seed j file.
  apply (short_seed_scan MD4.md4 20 j file); try by_computation.
  split; by_computation.
Defined.

(** ** The hashes [buildHash] builds *)










(** ** The report when every block is known *)



(** ** A seed file that is the target *)






Section Identical.

Variable md4 : list byte -> list byte.




End Identical.

(** ** Seeds that are the target: two cases *)



